(** * Flux: release planner, cluster sync engine and registry cache warmer

    A shallow embedding of three parts of the repository:

    - [Sync]: the two versions of [cluster/kubernetes/release.go]
      (the [Kubectl] type, its staged change set and [execute]);
    - [Releaser]: [release/releaser.go] ([Release], the six release modes,
      [execute] and the release actions);
    - [Warmer]: the registry cache warmer ([warm]).

    Go code that threads state (the external tool, the file system, the
    cluster, the cache) is written in a state monad over an abstract world
    whose collaborators are parameters of the development. *)

From Stdlib Require Import ZArith Lia.
From stdpp Require Import base option list strings gmap pretty.

(** The line feed that [fmt.Fprintln] appends. *)
Definition LF : string := String (Ascii.ascii_of_nat 10) EmptyString.

(** [strings.Join]. *)
Fixpoint Join (l : list string) (sep : string) : string :=
  match l with
  | [] => ""
  | [x] => x
  | x :: l' => x +:+ sep +:+ Join l' sep
  end.

(** [strings.Contains]. *)
Fixpoint Contains (s substr : string) : bool :=
  String.prefix substr s ||
  match s with
  | EmptyString => false
  | String _ s' => Contains s' substr
  end.

(** Go's [error] values are modelled by their message. *)
Definition error : Type := string.

(* ===================================================================== *)
(** * The cluster sync engine                                             *)
(* ===================================================================== *)

Module Sync.

(** [var cmds = []string{"delete", "apply"}] *)
Definition cmds : list string := ["delete"; "apply"].

(** The fields of [rest.Config] that [connectArgs] reads. *)
Record Config := {
  Host : string;
  Username : string;
  Password : string;
  CertFile : string;
  CAFile : string;
  KeyFile : string;
  BearerToken : string;
}.

(** Modelled from the spec: the [apiObject] type is not part of the sources;
    it carries the manifest bytes and the declared namespace, and
    [hasDefaultNamespace] holds for "manifests whose declared namespace is
    `default` or omitted". *)
Record apiObject := {
  bytes : string;
  namespace : string;
}.

Definition hasDefaultNamespace (o : apiObject) : bool :=
  bool_decide (namespace o = "") || bool_decide (namespace o = "default").

(** [type obj struct { id string; *apiObject }] *)
Record obj := {
  id : string;
  api : apiObject;
}.

(** Go maps are references: a map value is either [nil] or points to a map
    object that every copy of the value shares. *)
Abbreviation mapref := nat.
Abbreviation bufref := nat.
Abbreviation setref := nat.

(** [type changeSet struct { objs map[string][]obj }] *)
Record changeSet := {
  objs : option mapref;
}.

(** [type Kubectl struct { exe string; config *rest.Config; changeSet }] *)
Record Kubectl := {
  exe : string;
  config : Config;
  kChangeSet : changeSet;
}.

(** The [executeSet] type of the second version of the file:
    [type executeSet struct { cmd []string; rw io.ReadWriter; objs []obj }],
    always handled through a pointer. *)
Record executeSet := {
  es_cmd : list string;
  es_rw : bufref;
  es_objs : list obj;
}.

(** One run of the external tool: the executable, its full argument list
    and what it reads on standard input. *)
Record Invocation := {
  inv_exe : string;
  inv_args : list string;
  inv_stdin : string;
}.

(** What [cmd.Run] leaves behind: whether it returned an error, and the two
    captured output streams. *)
Record RunResult := {
  failed : bool;
  stderr : string;
  stdout : string;
}.

(** One [logger.Log] record of [doCommand] (the elapsed time is left out). *)
Record LogEntry := {
  log_cmd : string;
  log_err : option error;
  log_output : string;
}.

(** [cluster.SyncError], a [map[string]error] owned by the caller. *)
Abbreviation SyncError := (gmap string error).

Section Engine.

(** The world the external tool acts on, the tool itself, and
    [strings.TrimSpace] of the Go standard library. *)
Context {W : Type}.
Variable run : Invocation -> W -> RunResult * W.
Variable TrimSpace : string -> string.

Record State := {
  world : W;
  maps : list (gmap string (list obj));   (* the Go map objects *)
  bufs : list string;                     (* the bytes.Buffer objects *)
  sets : list executeSet;                 (* the *executeSet objects *)
  calls : list Invocation;                (* tool runs, oldest first *)
  logs : list LogEntry;
}.

Definition M (A : Type) : Type := State -> A * State.

#[global] Instance M_ret : MRet M := fun A a s => (a, s).
#[global] Instance M_bind : MBind M :=
  fun A B f m s => let '(a, s') := m s in f a s'.

Definition get : M State := fun s => (s, s).
Definition put (s : State) : M unit := fun _ => (tt, s).

Fixpoint forEach {A} (l : list A) (body : A -> M unit) : M unit :=
  match l with
  | [] => mret tt
  | x :: l' => body x ≫= fun _ => forEach l' body
  end.

(** ** Heap operations *)

(** [make(map[string][]obj)] *)
Definition makeMap : M mapref := fun s =>
  (length (maps s),
   {| world := world s; maps := maps s ++ [∅]; bufs := bufs s;
      sets := sets s; calls := calls s; logs := logs s |}).

(** [m[cmd]]: reading a nil map, or a missing key, gives the nil slice. *)
Definition bucket (s : State) (c : changeSet) (cmd : string) : list obj :=
  match objs c with
  | None => []
  | Some r => default [] (maps s !! r ≫= fun m => m !! cmd)
  end.

Definition mapIndex (c : changeSet) (cmd : string) : M (list obj) :=
  fun s => (bucket s c cmd, s).

Definition updMap (r : mapref) (f : gmap string (list obj) -> gmap string (list obj)) : M unit :=
  fun s =>
  (tt, {| world := world s; maps := alter f r (maps s); bufs := bufs s;
          sets := sets s; calls := calls s; logs := logs s |}).

(** [&bytes.Buffer{}] *)
Definition newBuffer : M bufref := fun s =>
  (length (bufs s),
   {| world := world s; maps := maps s; bufs := bufs s ++ [""];
      sets := sets s; calls := calls s; logs := logs s |}).

Definition readBuffer (r : bufref) : M string :=
  fun s => (default "" (bufs s !! r), s).

(** [fmt.Fprintln(rw, x)] *)
Definition Fprintln (r : bufref) (x : string) : M unit := fun s =>
  (tt, {| world := world s; maps := maps s;
          bufs := alter (fun b => b +:+ x +:+ LF) r (bufs s);
          sets := sets s; calls := calls s; logs := logs s |}).

Definition allocSet (e : executeSet) : M setref := fun s =>
  (length (sets s),
   {| world := world s; maps := maps s; bufs := bufs s;
      sets := sets s ++ [e]; calls := calls s; logs := logs s |}).

Definition emptySet : executeSet := {| es_cmd := []; es_rw := 0; es_objs := [] |}.

Definition derefSet (r : setref) : M executeSet :=
  fun s => (default emptySet (sets s !! r), s).

Definition updSet (r : setref) (f : executeSet -> executeSet) : M unit := fun s =>
  (tt, {| world := world s; maps := maps s; bufs := bufs s;
          sets := alter f r (sets s); calls := calls s; logs := logs s |}).

(** ** The change set *)

(** [func (c *changeSet) stage(cmd, id string, o *apiObject)].  The receiver
    is a pointer: the struct the method leaves behind is returned, and the
    caller stores it back into the variable the method was called on. *)
Definition stage (c : changeSet) (cmd id0 : string) (o : apiObject) : M changeSet :=
  c ← (match objs c with
       | None => r ← makeMap; mret {| objs := Some r |}
       | Some _ => mret c
       end);
  l ← mapIndex c cmd;
  _ ← (match objs c with
       | Some r => updMap r (<[cmd := l ++ [{| id := id0; api := o |}]]>)
       | None => mret tt
       end);
  mret c.

(** [func (c *changeSet) clear()] *)
Definition clear (c : changeSet) : M changeSet :=
  match objs c with
  | None => r ← makeMap; mret {| objs := Some r |}
  | Some r => _ ← updMap r (fmap (fun _ => [])); mret c
  end.

(** ** Running the tool *)

Definition flag (name value : string) : list string :=
  if bool_decide (value = "") then [] else [name +:+ value].

(** [func (c *Kubectl) connectArgs() []string] *)
Definition connectArgs (c : Kubectl) : list string :=
  flag "--server=" (Host (config c)) ++
  flag "--username=" (Username (config c)) ++
  flag "--password=" (Password (config c)) ++
  flag "--client-certificate=" (CertFile (config c)) ++
  flag "--certificate-authority=" (CAFile (config c)) ++
  flag "--client-key=" (KeyFile (config c)) ++
  flag "--token=" (BearerToken (config c)).

(** [func (c *Kubectl) kubectlCommand(args ...string) *exec.Cmd] with its
    standard input attached. *)
Definition kubectlCommand (c : Kubectl) (args : list string) (stdin : string) : Invocation :=
  {| inv_exe := exe c; inv_args := connectArgs c ++ args; inv_stdin := stdin |}.

(** [cmd.Run()] *)
Definition Run (i : Invocation) : M RunResult := fun s =>
  let '(r, w) := run i (world s) in
  (r, {| world := w; maps := maps s; bufs := bufs s; sets := sets s;
         calls := calls s ++ [i]; logs := logs s |}).

Definition Log (e : LogEntry) : M unit := fun s =>
  (tt, {| world := world s; maps := maps s; bufs := bufs s; sets := sets s;
          calls := calls s; logs := logs s ++ [e] |}).

(** [func (c *Kubectl) doCommand(logger, r io.Reader, args ...string) error];
    [r] is what the reader yields. *)
Definition doCommand (c : Kubectl) (r : string) (args : list string) : M (option error) :=
  let args := args ++ ["-f"; "-"] in
  res ← Run (kubectlCommand c args r);
  let err := if failed res
             then Some ("running kubectl: " +:+ TrimSpace (stderr res))
             else None in
  _ ← Log {| log_cmd := "kubectl " +:+ Join args " "; log_err := err;
             log_output := TrimSpace (stdout res) |};
  mret err.

(** The fallback loop both versions share:
<<
    for _, obj := range objs {
        r := bytes.NewReader(obj.bytes)
        if err := c.doCommand(logger, r, cmd...); err != nil {
            errs[obj.id] = err
        }
    }
>> *)
Fixpoint oneByOne (c : Kubectl) (cmd : list string) (l : list obj)
    (errs : SyncError) : M SyncError :=
  match l with
  | [] => mret errs
  | o :: l' =>
      err ← doCommand c (bytes (api o)) cmd;
      oneByOne c cmd l'
        (match err with Some e => <[id o := e]> errs | None => errs end)
  end.

(** The invocation [doCommand] makes for a reader yielding [stdin]. *)
Definition command (c : Kubectl) (args : list string) (stdin : string) : Invocation :=
  kubectlCommand c (args ++ ["-f"; "-"]) stdin.

(** The results of the runs of the fallback loop, in order. *)
Fixpoint individual (c : Kubectl) (cmd : list string) (l : list obj) (s : State)
    : list (option error) :=
  match l with
  | [] => []
  | o :: l' =>
      let r := doCommand c (bytes (api o)) cmd s in
      r.1 :: individual c cmd l' r.2
  end.

(** [if err != nil { errs[obj.id] = err }] *)
Definition record (errs : SyncError) (p : obj * option error) : SyncError :=
  match p.2 with
  | Some e => <[id p.1 := e]> errs
  | None => errs
  end.

(** ** The sync engine as the specification words it

    "For each non-empty sub-batch the engine concatenates the manifests into
    a single multi-document stream separated by [---] lines and invokes the
    external tool with standard input set to that stream."  "If the bulk
    invocation exits nonzero, the engine re-invokes the tool once per
    manifest in the sub-batch [...].  Successful bulk invocations do not
    re-attempt." *)
Definition stream (l : list obj) : string :=
  foldr (fun o rest => "---" +:+ LF +:+ bytes (api o) +:+ LF +:+ rest) "" l.

Definition subBatch (c : Kubectl) (cmd : list string) (l : list obj)
    (errs : SyncError) : M SyncError :=
  match l with
  | [] => mret errs
  | _ =>
      err ← doCommand c (stream l) cmd;
      match err with
      | Some _ => oneByOne c cmd l errs
      | None => mret errs
      end
  end.

Definition isDefault (o : obj) : bool := hasDefaultNamespace (api o).

Definition specCmd (c : Kubectl) (staged : string -> list obj) (errs : SyncError)
    (c0 : string) : M SyncError :=
  errs ← subBatch c [c0; "--namespace"; "default"] (filter isDefault (staged c0)) errs;
  subBatch c [c0] (filter (fun o => negb (isDefault o)) (staged c0)) errs.

Definition specExecute (c : Kubectl) (staged : string -> list obj) (errs : SyncError)
    : M SyncError :=
  errs ← specCmd c staged errs "delete";
  specCmd c staged errs "apply".

(** ** Relations between states, for the proofs *)

(** A computation is quiet when it only touches the Go heap. *)
Definition quiet {A} (m : M A) : Prop :=
  forall s, world (m s).2 = world s /\ calls (m s).2 = calls s /\ logs (m s).2 = logs s.

(** Two states the tool and the logger cannot tell apart. *)
Definition sim (s t : State) : Prop :=
  world s = world t /\ calls s = calls t /\ logs s = logs t.

Definition sameHeap (s t : State) : Prop :=
  maps s = maps t /\ bufs s = bufs t /\ sets s = sets t.

(** [s.objs = append(s.objs, o)] *)
Definition appendObj (x : obj) (e : executeSet) : executeSet :=
  {| es_cmd := es_cmd e; es_rw := es_rw e; es_objs := es_objs e ++ [x] |}.

(** The two sets of one iteration of the second version, as its staging
    loop keeps them: each holds its manifests, and its buffer their
    stream. *)
Definition staged (s : State) (d o : setref) (cd co : list string)
    (bd bo : bufref) (ld lo : list obj) : Prop :=
  sets s !! d = Some {| es_cmd := cd; es_rw := bd; es_objs := ld |} /\
  sets s !! o = Some {| es_cmd := co; es_rw := bo; es_objs := lo |} /\
  bufs s !! bd = Some (stream ld) /\
  bufs s !! bo = Some (stream lo).

(** [for _, x := range l { acc = body(acc, x) }] *)
Fixpoint foldM {A B} (body : B -> A -> M B) (acc : B) (l : list A) : M B :=
  match l with
  | [] => mret acc
  | x :: l' => body acc x ≫= fun acc' => foldM body acc' l'
  end.

End Engine.

Arguments State W : clear implicits.
Arguments M W A : clear implicits.

(** ** First version: [cluster/kubernetes/release.go]

    [execute] declares a local struct type that embeds a [changeSet] by
    value, and stages every manifest into a copy of one of two such
    structs. *)
Module Inline.

(** [type executeSet struct { rw io.ReadWriter; cmd []string; changeSet }] *)
Record executeSet := {
  rw : bufref;
  cmd : list string;
  cs : changeSet;
}.

Section Execute.

Context {W : Type}.
Variable run : Invocation -> W -> RunResult * W.
Variable TrimSpace : string -> string.

(** The body of the staging loop:
<<
    set := defaultSet
    if !obj.hasDefaultNamespace() {
        set = otherSet
    }
    set.stage(cmd, obj.id, obj.apiObject)
    fmt.Fprintln(set.rw, "---")
    fmt.Fprintln(set.rw, string(obj.bytes))
>>
    [set] is a struct value: the assignment copies the buffer pointer, the
    argument slice and the embedded [changeSet], whose map is [nil] or a
    reference.  [stage] acts on the copy, which is dropped when the
    iteration ends; [defaultSet] and [otherSet] are never assigned. *)
Definition stageOne (c0 : string) (defaultSet otherSet : executeSet) (o : obj)
    : M W unit :=
  let set := defaultSet in
  let set := if negb (hasDefaultNamespace (api o)) then otherSet else set in
  cs' ← stage (cs set) c0 (id o) (api o);
  let set := {| rw := rw set; cmd := cmd set; cs := cs' |} in
  _ ← Fprintln (rw set) "---";
  Fprintln (rw set) (bytes (api o)).

(** The bulk run of one set and its fallback, written twice in the source
    (once for [defaultSet], once for [otherSet]):
<<
    if err := c.doCommand(logger, set.rw, set.cmd...); err != nil {
        for _, obj := range set.objs[cmd] { ... }
    }
>> *)
Definition attempt (c : Kubectl) (set : executeSet) (c0 : string)
    (errs : SyncError) : M W SyncError :=
  stdin ← readBuffer (rw set);
  err ← doCommand run TrimSpace c stdin (cmd set);
  match err with
  | Some _ =>
      l ← mapIndex (cs set) c0;
      oneByOne run TrimSpace c (cmd set) l errs
  | None => mret errs
  end.

(** One iteration of [for _, cmd := range cmds]. *)
Definition executeCmd (c : Kubectl) (errs : SyncError) (c0 : string)
    : M W SyncError :=
  rwD ← newBuffer;
  let defaultSet :=
    {| rw := rwD; cmd := [c0; "--namespace"; "default"]; cs := {| objs := None |} |} in
  rwO ← newBuffer;
  let otherSet := {| rw := rwO; cmd := [c0]; cs := {| objs := None |} |} in
  l ← mapIndex (kChangeSet c) c0;
  _ ← forEach l (stageOne c0 defaultSet otherSet);
  errs ← attempt c defaultSet c0 errs;
  attempt c otherSet c0 errs.

(** [func (c *Kubectl) execute(logger log.Logger, errs cluster.SyncError)];
    the deferred [c.changeSet.clear()] runs last. *)
Definition execute (c : Kubectl) (errs : SyncError) : M W (Kubectl * SyncError) :=
  errs ← foldM (executeCmd c) errs cmds;
  cs' ← clear (kChangeSet c);
  mret ({| exe := exe c; config := config c; kChangeSet := cs' |}, errs).

End Execute.
End Inline.

(** ** Second version: [src/unnamed/part_000]

    The sets are [*executeSet] pointers, and [exec] returns at once on a set
    without objects. *)
Module Staged.

Section Execute.

Context {W : Type}.
Variable run : Invocation -> W -> RunResult * W.
Variable TrimSpace : string -> string.

(** [func newExecuteSet(cmd ...string) *executeSet] *)
Definition newExecuteSet (cmd : list string) : M W setref :=
  rw ← newBuffer;
  allocSet {| es_cmd := cmd; es_rw := rw; es_objs := [] |}.

(** [func (s *executeSet) stage(o obj)] *)
Definition stage (s : setref) (o : obj) : M W unit :=
  _ ← updSet s (appendObj o);
  e ← derefSet s;
  Fprintln (es_rw e) ("---" +:+ LF +:+ bytes (api o)).

(** [func (c *Kubectl) exec(logger, s *executeSet, cmd string, errs)] *)
Definition exec (c : Kubectl) (s : setref) (c0 : string) (errs : SyncError)
    : M W SyncError :=
  e ← derefSet s;
  if decide (length (es_objs e) = 0) then mret errs
  else
    stdin ← readBuffer (es_rw e);
    err ← doCommand run TrimSpace c stdin (es_cmd e);
    match err with
    | Some _ => oneByOne run TrimSpace c (es_cmd e) (es_objs e) errs
    | None => mret errs
    end.

(** The body of the staging loop: [set] is a copy of the pointer. *)
Definition stageOne (defaultSet otherSet : setref) (o : obj) : M W unit :=
  let set := defaultSet in
  let set := if negb (hasDefaultNamespace (api o)) then otherSet else set in
  stage set o.

(** One iteration of [for _, cmd := range cmds]. *)
Definition executeCmd (c : Kubectl) (errs : SyncError) (c0 : string)
    : M W SyncError :=
  defaultSet ← newExecuteSet [c0; "--namespace"; "default"];
  otherSet ← newExecuteSet [c0];
  l ← mapIndex (kChangeSet c) c0;
  _ ← forEach l (stageOne defaultSet otherSet);
  errs ← exec c defaultSet c0 errs;
  exec c otherSet c0 errs.

(** [func (c *Kubectl) execute(logger log.Logger, errs cluster.SyncError)] *)
Definition execute (c : Kubectl) (errs : SyncError) : M W (Kubectl * SyncError) :=
  errs ← foldM (executeCmd c) errs cmds;
  cs' ← clear (kChangeSet c);
  mret ({| exe := exe c; config := config c; kChangeSet := cs' |}, errs).

End Execute.
End Staged.

(** ** A concrete cluster for the examples

    The tool counts its runs and rejects any input in which the word
    [malformed] occurs. *)
Module Example.

Definition toyRun (i : Invocation) (w : nat) : RunResult * nat :=
  ({| failed := Contains (inv_stdin i) "malformed";
      stderr := "error: unable to decode"; stdout := "" |}, S w).

(** A tool that rejects everything, as when the cluster cannot be reached. *)
Definition downRun (i : Invocation) (w : nat) : RunResult * nat :=
  ({| failed := true; stderr := "connection refused"; stdout := "" |}, S w).

Definition toyTrim (s : string) : string := s.

Definition cfg : Config :=
  {| Host := ""; Username := ""; Password := ""; CertFile := "";
     CAFile := ""; KeyFile := ""; BearerToken := "" |}.

Definition s0 : State nat :=
  {| world := 0; maps := []; bufs := []; sets := []; calls := []; logs := [] |}.

Definition kubectl0 : Kubectl :=
  {| exe := "kubectl"; config := cfg; kChangeSet := {| objs := None |} |}.

Definition withChangeSet (cs : changeSet) : Kubectl :=
  {| exe := "kubectl"; config := cfg; kChangeSet := cs |}.

Definition good1 : apiObject := {| bytes := "kind: Deployment # one"; namespace := "" |}.
Definition bad2 : apiObject := {| bytes := "kind: malformed"; namespace := "default" |}.
Definition good3 : apiObject := {| bytes := "kind: Deployment # three"; namespace := "" |}.

(** Three [apply] manifests in the default namespace, the middle one
    malformed. *)
Definition stageThree : M nat Kubectl :=
  c ← stage (kChangeSet kubectl0) "apply" "default:deployment/one" good1;
  c ← stage c "apply" "default:deployment/two" bad2;
  c ← stage c "apply" "default:deployment/three" good3;
  mret (withChangeSet c).

(** One [apply] manifest in the default namespace. *)
Definition stageOne : M nat Kubectl :=
  c ← stage (kChangeSet kubectl0) "apply" "default:deployment/one" good1;
  mret (withChangeSet c).

End Example.

End Sync.

(* ===================================================================== *)
(** * The release planner and executor                                    *)
(* ===================================================================== *)

Module Releaser.

(** [(value, error)] results, where the code looks at the value only when
    the error is nil. *)
Inductive result (A : Type) : Type :=
| Ok (a : A)
| Err (e : error).
Arguments Ok {A} a.
Arguments Err {A} e.

(** [errors.Wrap(err, msg)] and [errors.Wrapf]. *)
Definition Wrap (e : error) (msg : string) : error := msg +:+ ": " +:+ e.

(** ** Data *)

(** [flux.ServiceID], [flux.InstanceID] and [flux.ImageID] are string types:
    the code converts them with [string(x)] and compares them with [==]. *)
Abbreviation ServiceID := string (only parsing).
Abbreviation InstanceID := string (only parsing).
Abbreviation ImageID := string (only parsing).

(** Modelled from the spec: "release-kind is `PLAN` (dry-run) or `EXECUTE`";
    the code only tests [kind == flux.ReleaseKindExecute]. *)
Inductive ReleaseKind := ReleaseKindPlan | ReleaseKindExecute.

#[global] Instance ReleaseKind_eq_dec : EqDecision ReleaseKind.
Proof. solve_decision. Defined.

(** [fmt.Sprint(job.Spec.Kind)] *)
Definition SprintKind (k : ReleaseKind) : string :=
  match k with ReleaseKindPlan => "plan" | ReleaseKindExecute => "execute" end.

(** [flux.ReleaseJobSpec] and [flux.ReleaseJob], as far as [Release] reads
    and writes them. *)
Record ReleaseJobSpec := {
  ServiceSpec : string;
  ImageSpec : string;
  Kind : ReleaseKind;
  Excludes : list ServiceID;
}.

Record ReleaseJob := {
  Instance : InstanceID;
  Spec : ReleaseJobSpec;
  Status : string;
  Log : list string;
}.

(** [platform.Container] *)
Record Container := {
  Name : string;
  Image : string;
}.

(** Modelled from the spec: [registry.Image] and [registry.Repository] are
    not part of the sources.  An image has the text [String()] gives and a
    creation instant; a repository has a name and the images the registry
    advertises for it. *)
Record RegistryImage := {
  ImageString : string;
  CreatedAt : Z;
}.

Record Repository := {
  RepoName : string;
  Images : list RegistryImage;
}.

(** Modelled from the spec: [LatestImage] is not part of the sources;
    "Latest is defined as the registry tag with the greatest creation
    timestamp", and there is none in an empty repository. *)
Definition newer (a b : RegistryImage) : RegistryImage :=
  if (CreatedAt a <? CreatedAt b)%Z then b else a.

Definition LatestImage (r : Repository) : result RegistryImage :=
  match Images r with
  | [] => Err "no images in repository"
  | i :: l => Ok (foldl newer i l)
  end.

(** [platform.NamespacedService], [platform.RegradeSpec] *)
Record NamespacedService := {
  Namespace : string;
  Service : string;
}.

Record RegradeSpec := {
  NamespacedService_ : NamespacedService;
  NewDefinition : string;
}.

(** What [PlatformRegrade] returns when it is not nil: a
    [platform.RegradeError] (a map, here in the order [range] visits it), or
    an error of another type. *)
Inductive TransactionError :=
| RegradeError (errs : list (NamespacedService * error))
| OtherError (e : error).

Definition TransactionErrorText (t : TransactionError) : error :=
  match t with
  | RegradeError errs => Join (map snd errs) "; "
  | OtherError e => e
  end.

(** [os.FileInfo] *)
Record FileInfo := {
  IsDir : bool;
  Mode : nat;
}.

(** [type containerRegrade struct] *)
Record containerRegrade := {
  container : string;
  current : ImageID;
  target : ImageID;
}.

(** Modelled from the spec: [flux.ReleaseContext] is not part of the
    sources.  "A scoped resource created per release, owning a filesystem
    clone path and a credential file path [...].  Carries a per-workload
    mutated-manifest map populated by the update action and consumed by the
    regrade action." *)
Record ReleaseContext := {
  RepoPath : string;
  RepoKey : string;
  PodControllers : gmap ServiceID string;
}.

Definition NewReleaseContext : ReleaseContext :=
  {| RepoPath := ""; RepoKey := ""; PodControllers := ∅ |}.

(** ** Collaborators

    Every call that leaves the package: the [helper] (platform and
    registry), the [git.Repo], the file system, and the two functions of the
    [kubernetes] package.  The index is the type of the answer. *)
Inductive Call : Type -> Type :=
| AllServices (inst : InstanceID) : Call (result (list ServiceID))
| AllReleasableImagesFor (inst : InstanceID) (ids : list ServiceID)
    : Call (result (list (ServiceID * list Container)))
| PlatformContainersFor (inst : InstanceID) (namespace service : string)
    : Call (result (list Container))
| RegistryGetRepository (repository : string) : Call (result Repository)
| PlatformRegrade (inst : InstanceID) (specs : list RegradeSpec)
    : Call (option TransactionError)
| Clone : Call (result (string * string))
| CommitAndPush (path keyFile msg : string) : Call (string * option error)
| Stat (path : string) : Call (result FileInfo)
| ReadFile (path : string) : Call (result string)
| WriteFile (path data : string) (mode : nat) : Call (option error)
| RemoveAll (path : string) : Call unit
| FilesFor (path namespace service : string) : Call (result (list string))
| UpdatePodController (def image : string) : Call (result string).

(** Whether a call changes the repository checkout or the cluster. *)
Definition mutating {X} (c : Call X) : bool :=
  match c with
  | PlatformRegrade _ _ | Clone | CommitAndPush _ _ _
  | WriteFile _ _ _ | RemoveAll _ => true
  | _ => false
  end.

(** What a release leaves behind for an observer. *)
Inductive Event :=
| UpdateJob (j : ReleaseJob)                     (* updater.UpdateJob *)
| HelperLog (keyvals : list string)              (* r.helper.Log *)
| LogEvent (namespace service msg : string)      (* r.history.LogEvent *)
| Observe (histogram : string) (labels : list string)  (* metrics *)
| Called {X} (c : Call X).

(** [type ServiceIDSet map[flux.ServiceID]struct{}] *)
Abbreviation ServiceIDSet := (gset string) (only parsing).

(** [func (s ServiceIDSet) Add(ids []flux.ServiceID)] *)
Definition Add (s : ServiceIDSet) (ids : list ServiceID) : ServiceIDSet :=
  foldl (fun s id => {[ id ]} ∪ s) s ids.

(** [func (s ServiceIDSet) Contains(id flux.ServiceID) bool] *)
Definition SetContains (s : ServiceIDSet) (id : ServiceID) : bool :=
  bool_decide (id ∈ s).

(** [func (ids ServiceIDs) Without(set ServiceIDSet) (res ServiceIDs)] *)
Fixpoint Without (ids : list ServiceID) (set : ServiceIDSet) : list ServiceID :=
  match ids with
  | [] => []
  | id :: ids' =>
      if negb (SetContains set id) then id :: Without ids' set
      else Without ids' set
  end.

(** [const maxSimultaneousReleases = 1] *)
Definition maxSimultaneousReleases : nat := 1.

(** [func service2string(a []flux.ServiceID) []string] *)
Definition service2string (a : list ServiceID) : list string := map (fun x => x) a.

(** ** The state monad with panics *)

(** How a Go call ends: it returns, or it panics. *)
Inductive Outcome (A : Type) : Type :=
| Normal (a : A)
| Panic (v : string).
Arguments Normal {A} a.
Arguments Panic {A} v.

Section Release.

(** The outside world and the collaborators acting on it. *)
Context {W : Type}.
Variable handle : forall X, Call X -> W -> X * W.

(** Functions and constants of packages that are not part of the sources:
    [flux.ParseImageID], [ImageID.Repository], [ServiceID.Components],
    [flux.ParseServiceID], [filepath.Join], the field [repo.Path], the three
    selector constants, and [fmt.Sprintf].  Where the format is a constant
    of the source the formatted text is written out; [Sprintf] is used where
    the format is a value ([updateJob]). *)
Variable ParseImageID : string -> ImageID.
Variable Repository_ : ImageID -> string.
Variable Components : ServiceID -> string * string.
Variable ParseServiceID : string -> result ServiceID.
Variable filepathJoin : string -> string -> string.
Variable repoPath : string.
Variable Sprintf : string -> list string -> string.
Variable ServiceSpecAll : string.
Variable ImageSpecLatest : string.
Variable ImageSpecNone : string.

(** What the release modes and the actions work on: the world, the job the
    caller passed by pointer, the release context of the running [execute],
    and everything observed so far.  The semaphore of the releaser is not
    part of it: [r.semaphore] occurs in [newReleaser] and [Release] only. *)
Record State := {
  world : W;
  job : ReleaseJob;
  rc : ReleaseContext;
  trace : list Event;
}.

Definition M (A : Type) : Type := State -> Outcome A * State.

#[global] Instance M_ret : MRet M := fun A a s => (Normal a, s).
#[global] Instance M_bind : MBind M :=
  fun A B f m s =>
    match m s with
    | (Normal a, s') => f a s'
    | (Panic v, s') => (Panic v, s')
    end.

Definition panic {A} (v : string) : M A := fun s => (Panic v, s).

(** [defer cleanup()] around [body]: the cleanup runs however the body ends,
    and a panic goes on afterwards. *)
Definition defer {A} (cleanup : M unit) (body : M A) : M A := fun s =>
  let '(o, s1) := body s in
  match cleanup s1 with
  | (Normal _, s2) => (o, s2)
  | (Panic v, s2) => (Panic v, s2)
  end.

Definition emit (e : Event) : M unit := fun s =>
  (Normal tt, {| world := world s; job := job s;
                 rc := rc s; trace := trace s ++ [e] |}).

(** A collaborator call: it is recorded, and answered by the world. *)
Definition call {X} (c : Call X) : M X := fun s =>
  let '(x, w) := handle X c (world s) in
  (Normal x, {| world := w; job := job s;
                rc := rc s; trace := trace s ++ [Called c] |}).

Definition getRC : M ReleaseContext := fun s => (Normal (rc s), s).

Definition setRC (c : ReleaseContext) : M unit := fun s =>
  (Normal tt, {| world := world s; job := job s;
                 rc := c; trace := trace s |}).

Definition getJob : M ReleaseJob := fun s => (Normal (job s), s).

Definition setJob (j : ReleaseJob) : M unit := fun s =>
  (Normal tt, {| world := world s; job := j;
                 rc := rc s; trace := trace s |}).

(** The closure [updateJob] of [Release]:
<<
    status := fmt.Sprintf(format, args...)
    job.Status = status
    job.Log = append(job.Log, status)
    updater.UpdateJob( *job)
>> *)
Definition updateJob (format : string) (args : list string) : M unit :=
  let status := Sprintf format args in
  j ← getJob;
  let j' := {| Instance := Instance j; Spec := Spec j; Status := status;
               Log := Log j ++ [status] |} in
  _ ← setJob j';
  emit (UpdateJob j').

(** [r.helper.Log(keyvals...)] *)
Definition helperLog (keyvals : list string) : M unit := emit (HelperLog keyvals).

(** [fmt.Sprint(err == nil)] *)
Definition SprintBool (b : bool) : string := if b then "true" else "false".

(** [flux.ReleaseAction]: a description, the side-effect body (a closure
    over the release context, or nil) and the result text. *)
Record ReleaseAction := {
  Description : string;
  Do : option (M (string * option error));
  Result : string;
}.

(** The deferred observation every action body starts with:
<<
    defer func(begin time.Time) {
        r.metrics.ActionDuration.With("action", name,
            "success", fmt.Sprint(err == nil)).Observe(...)
    }(time.Now())
>>
    A panicking body leaves the named result [err] nil. *)
Definition observed (name : string) (body : M (string * option error))
    : M (string * option error) := fun s =>
  let '(o, s1) := body s in
  let success := match o with
                 | Normal (_, Some _) => false
                 | _ => true
                 end in
  match emit (Observe "ActionDuration"
                ["action"; name; "success"; SprintBool success]) s1 with
  | (_, s2) => (o, s2)
  end.

(** ** Release actions *)

(** [return res, err] in an action body. *)
Definition ret (res : string) (err : option error) : M (string * option error) :=
  mret (res, err).

Definition action (description : string) (do : M (string * option error))
    : ReleaseAction :=
  {| Description := description; Do := Some do; Result := "" |}.

(** [func (r *releaser) releaseActionPrintf(format string, args ...interface{})],
    applied to the formatted description. *)
Definition releaseActionPrintf (description : string) : ReleaseAction :=
  action description (observed "printf" (ret "" None)).

(** [func (r *releaser) releaseActionClone() flux.ReleaseAction] *)
Definition releaseActionClone : ReleaseAction :=
  action "Clone the config repo."
    (observed "clone"
       (r ← call Clone;
        match r with
        | Err e => ret "" (Some (Wrap e "clone the config repo"))
        | Ok (path, keyFile) =>
            c ← getRC;
            _ ← setRC {| RepoPath := path; RepoKey := keyFile;
                         PodControllers := PodControllers c |};
            ret "Clone OK." None
        end)).

(** [if fi, err := os.Stat(path); err != nil || !fi.IsDir()] *)
Definition notADirectory (r : result FileInfo) : bool :=
  match r with
  | Err _ => true
  | Ok fi => negb (IsDir fi)
  end.

(** [rc.PodControllers[service] = def] *)
Definition storePodController (service : ServiceID) (def : string) : M unit :=
  c ← getRC;
  setRC {| RepoPath := RepoPath c; RepoKey := RepoKey c;
           PodControllers := <[service := def]> (PodControllers c) |}.

(** [func (r *releaser) releaseActionFindPodController(service flux.ServiceID)] *)
Definition releaseActionFindPodController (service : ServiceID) : ReleaseAction :=
  action ("Load the resource definition file for service " +:+ service)
    (observed "find_pod_controller"
       (c ← getRC;
        let resourcePath := filepathJoin (RepoPath c) repoPath in
        fi ← call (Stat resourcePath);
        if notADirectory fi
        then ret "" (Some ("the resource path (" +:+ resourcePath +:+ ") is not valid"))
        else
          let '(namespace, serviceName) := Components service in
          r ← call (FilesFor resourcePath namespace serviceName);
          match r with
          | Err e =>
              ret "" (Some (Wrap e ("finding resource definition file for " +:+ service)))
          | Ok files =>
              if decide (length files <= 0)   (* fine; we'll just skip it *)
              then ret ("no resource definition file found for " +:+ service
                           +:+ "; skipping") None
              else if decide (1 < length files)
              then ret "" (Some ("multiple resource definition files found for "
                                     +:+ service +:+ ": " +:+ Join files ", "))
              else
                def ← call (ReadFile (default "" (files !! 0)));
                match def with
                | Err e => ret "" (Some e)
                | Ok def =>
                    _ ← storePodController service def;
                    ret "Found pod controller OK." None
                end
          end)).

(** The loop of [releaseActionUpdatePodController]:
<<
    for _, regrade := range regrades {
        def, err = kubernetes.UpdatePodController(def, string(regrade.target), ioutil.Discard)
        if err != nil {
            return "", errors.Wrapf(err, "updating pod controller for %s", regrade.target)
        }
    }
>> *)
Fixpoint updateAll (def : string) (regrades : list containerRegrade) : M (result string) :=
  match regrades with
  | [] => mret (Ok def)
  | regrade :: rest =>
      r ← call (UpdatePodController def (target regrade));
      match r with
      | Err e => mret (Err (Wrap e ("updating pod controller for " +:+ target regrade)))
      | Ok def' => updateAll def' rest
      end
  end.

Definition regradeText (regrade : containerRegrade) : string :=
  container regrade +:+ " (" +:+ current regrade +:+ " -> " +:+ target regrade +:+ ")".

(** [func (r *releaser) releaseActionUpdatePodController(service, regrades)] *)
Definition releaseActionUpdatePodController (service : ServiceID)
    (regrades : list containerRegrade) : ReleaseAction :=
  let actionList := Join (map regradeText regrades) ", " in
  action ("Update " +:+ pretty (length regrades)
            +:+ " images(s) in the resource definition file for " +:+ service
            +:+ ": " +:+ actionList +:+ ".")
    (observed "update_pod_controller"
       (c ← getRC;
        let resourcePath := filepathJoin (RepoPath c) repoPath in
        fi ← call (Stat resourcePath);
        if notADirectory fi
        then ret "" (Some ("the resource path (" +:+ resourcePath +:+ ") is not valid"))
        else
          let '(namespace, serviceName) := Components service in
          r ← call (FilesFor resourcePath namespace serviceName);
          match r with
          | Err e =>
              ret "" (Some (Wrap e ("finding resource definition file for " +:+ service)))
          | Ok files =>
              if decide (length files <= 0)
              then ret ("no resource definition file found for " +:+ service
                           +:+ "; skipping") None
              else if decide (1 < length files)
              then ret "" (Some ("multiple resource definition files found for "
                                     +:+ service +:+ ": " +:+ Join files ", "))
              else
                let file := default "" (files !! 0) in
                def ← call (ReadFile file);
                match def with
                | Err e => ret "" (Some e)
                | Ok def =>
                    fi ← call (Stat file);
                    match fi with
                    | Err e => ret "" (Some e)
                    | Ok fi =>
                        def ← updateAll def regrades;
                        match def with
                        | Err e => ret "" (Some e)
                        | Ok def =>
                            (* Write the file back, so commit/push works. *)
                            w ← call (WriteFile file def (Mode fi));
                            match w with
                            | Some e => ret "" (Some e)
                            | None =>
                                (* Put the def in the map, so release works. *)
                                _ ← storePodController service def;
                                ret "Update pod controller OK." None
                            end
                        end
                    end
                end
          end)).

(** [func (r *releaser) releaseActionCommitAndPush(msg string)] *)
Definition releaseActionCommitAndPush (msg : string) : ReleaseAction :=
  action "Commit and push the config repo."
    (observed "commit_and_push"
       (c ← getRC;
        fi ← call (Stat (RepoPath c));
        if notADirectory fi
        then ret "" (Some ("the repo path (" +:+ RepoPath c +:+ ") is not valid"))
        else
          k ← call (Stat (RepoKey c));
          match k with
          | Err e =>
              ret "" (Some ("the repo key (" +:+ RepoKey c +:+ ") is not valid: " +:+ e))
          | Ok _ =>
              '(result, err) ← call (CommitAndPush (RepoPath c) (RepoKey c) msg);
              if bool_decide (err = None) && bool_decide (result = "")
              then ret ("Pushed commit: " +:+ msg) None
              else ret result err
          end)).

(** The first loop of [releaseActionRegradeServices]: collect a spec for
    every service that has a definition in the release context. *)
Fixpoint collectSpecs (cause : string) (services : list ServiceID)
    (results : gmap string error) (specs : list RegradeSpec)
    : M (gmap string error * list RegradeSpec) :=
  match services with
  | [] => mret (results, specs)
  | service :: rest =>
      c ← getRC;
      match PodControllers c !! service with
      | None =>
          collectSpecs cause rest
            (<[service := "no pod controller in release context; skipping regrade"]> results)
            specs
      | Some def =>
          let '(namespace, serviceName) := Components service in
          _ ← emit (LogEvent namespace serviceName ("Starting regrade " +:+ cause));
          collectSpecs cause rest results
            (specs ++ [{| NamespacedService_ :=
                            {| Namespace := namespace; Service := serviceName |};
                          NewDefinition := def |}])
      end
  end.

(** [id, _ := flux.ParseServiceID(...)]: the zero value on an error. *)
Definition parsedOrZero (r : result ServiceID) : ServiceID :=
  match r with Ok id => id | Err _ => "" end.

(** "Splat any errors into our results map." *)
Definition splat (results : gmap string error)
    (errs : list (NamespacedService * error)) : gmap string error :=
  foldl (fun results '(ns, regradeErr) =>
           <[parsedOrZero (ParseServiceID (Namespace ns +:+ "/" +:+ Service ns))
               := regradeErr]> results)
        results errs.

(** "Report individual service regrade results." *)
Fixpoint report (cause : string) (services : list ServiceID)
    (results : gmap string error) : M unit :=
  match services with
  | [] => mret tt
  | service :: rest =>
      let '(namespace, serviceName) := Components service in
      _ ← emit (LogEvent namespace serviceName
                  (match results !! service with
                   | None => "Regrade " +:+ cause +:+ ": done"
                   | Some e => "Regrade " +:+ cause +:+ ": failed: " +:+ e
                   end));
      report cause rest results
  end.

(** [func (r *releaser) releaseActionRegradeServices(inst, services, cause)].
    [transactionErr.(platform.RegradeError)] panics on an error of another
    type. *)
Definition releaseActionRegradeServices (inst : InstanceID)
    (services : list ServiceID) (cause : string) : ReleaseAction :=
  action ("Regrade " +:+ pretty (length services) +:+ " service(s): "
            +:+ Join (service2string services) ", " +:+ ".")
    (observed "regrade_services"
       ('(results, specs) ← collectSpecs cause services ∅ [];
        (* Execute the regrades as a single transaction. *)
        transactionErr ← call (PlatformRegrade inst specs);
        results ← match transactionErr with
                  | None => mret results
                  | Some (RegradeError errs) => mret (splat results errs)
                  | Some (OtherError e) =>
                      panic "interface conversion: error is not platform.RegradeError"
                  end;
        _ ← report cause services results;
        ret "" (TransactionErrorText <$> transactionErr))).

(** ** Executing a plan *)

(** Modelled from the spec: [ReleaseContext.Clean] is not part of the
    sources; "the release context owns the clone directory exclusively and
    must delete it on release completion".  A context that was never cloned
    into has no directory. *)
Definition Clean : M unit :=
  c ← getRC;
  if bool_decide (RepoPath c = "") then mret tt
  else call (RemoveAll (RepoPath c)).

Definition setResult (a : ReleaseAction) (r : string) : ReleaseAction :=
  {| Description := Description a; Do := Do a; Result := r |}.

(** The loop of [execute]; the slice it returns carries the [Result] fields
    the loop assigned. *)
Fixpoint executeActions (kind : ReleaseKind) (actions : list ReleaseAction)
    : M (list ReleaseAction * option error) :=
  match actions with
  | [] => mret ([], None)
  | a :: rest =>
      _ ← updateJob (Description a) [];
      _ ← helperLog ["description"; Description a];
      match Do a with
      | None =>
          '(rest', err) ← executeActions kind rest;
          mret (a :: rest', err)
      | Some do =>
          if decide (kind = ReleaseKindExecute) then
            '(result, err) ← do;
            match err with
            | Some e =>
                _ ← updateJob e [];
                _ ← helperLog ["err"; e];
                mret (setResult a ("Failed: " +:+ e) :: rest, Some e)
            | None =>
                _ ← (if bool_decide (result = "") then mret tt
                     else updateJob result []);
                '(rest', err) ← executeActions kind rest;
                mret (setResult a result :: rest', err)
            end
          else
            '(rest', err) ← executeActions kind rest;
            mret (a :: rest', err)
      end
  end.

(** [func (r *releaser) execute(actions, kind, updateJob) error] *)
Definition execute (actions : list ReleaseAction) (kind : ReleaseKind)
    : M (list ReleaseAction * option error) :=
  _ ← setRC NewReleaseContext;
  defer Clean (executeActions kind actions).

(** ** Planning *)

(** [stage.ObserveDuration()] for the timer [stage] currently holds. *)
Definition observeStage (method stage : string) : M unit :=
  emit (Observe "StageDuration" ["method"; method; "stage"; stage]).

(** How the body of a release mode ends: the plan [res] so far, the stage
    being timed, and the error it returns. *)
Record Planned := {
  res : list ReleaseAction;
  stage : string;
  err : option error;
}.

(** The two deferred closures of every release mode, in the order they run:
<<
    defer func() { stage.ObserveDuration() }()
    defer func() {
        if err == nil {
            err = r.execute(res, kind, updateJob)
        }
    }()
>> *)
Definition finish (method : string) (kind : ReleaseKind) (p : Planned)
    : M (option error) :=
  _ ← observeStage method (stage p);
  match err p with
  | None => '(_, e) ← execute (res p) kind; mret e
  | Some e => mret (Some e)
  end.

(** One iteration of a loop that may leave the function with an error. *)
Inductive Step (A : Type) : Type :=
| Next (a : A)
| Return (e : error).
Arguments Next {A} a.
Arguments Return {A} e.

Fixpoint loopM {A B} (body : B -> A -> M (Step B)) (acc : B) (l : list A)
    : M (Step B) :=
  match l with
  | [] => mret (Next acc)
  | x :: l' =>
      r ← body acc x;
      match r with
      | Next acc' => loopM body acc' l'
      | Return e => mret (Return e)
      end
  end.

(** [regradeMap[serviceID] = append(regradeMap[serviceID], regrade)] *)
Definition appendRegrade (regradeMap : gmap string (list containerRegrade))
    (serviceID : ServiceID) (regrade : containerRegrade)
    : gmap string (list containerRegrade) :=
  <[serviceID := default [] (regradeMap !! serviceID) ++ [regrade]]> regradeMap.

(** The plan shared by the four updating modes once regrades exist. *)
Definition updateActions (regradeMap : list (ServiceID * list containerRegrade))
    : list ReleaseAction :=
  map (fun '(service, regrades) => releaseActionUpdatePodController service regrades)
      regradeMap.

(** *** [releaseAllToLatest] *)

(** The body of the inner loop, for one container of [serviceID]. *)
Definition allToLatestContainer (serviceID : ServiceID)
    (acc : list ReleaseAction * gmap string (list containerRegrade))
    (c : Container)
    : M (Step (list ReleaseAction * gmap string (list containerRegrade))) :=
  let '(res, regradeMap) := acc in
  let currentImageID := ParseImageID (Image c) in
  r ← call (RegistryGetRepository (Repository_ currentImageID));
  match r with
  | Err e => mret (Return (Wrap e ("fetching image repo for " +:+ currentImageID)))
  | Ok imageRepo =>
      match LatestImage imageRepo with
      | Err e => mret (Return (Wrap e ("getting latest image from " +:+ RepoName imageRepo)))
      | Ok latestImage =>
          let latestImageID := ParseImageID (ImageString latestImage) in
          if bool_decide (currentImageID = latestImageID)
          then mret (Next (res ++ [releaseActionPrintf
                              ("Service image " +:+ currentImageID
                                 +:+ " is already the latest one; skipping.")],
                           regradeMap))
          else mret (Next (res, appendRegrade regradeMap serviceID
                                  {| container := Name c;
                                     current := currentImageID;
                                     target := latestImageID |}))
      end
  end.

(** [for serviceID, containers := range containerMap { for ... } }] *)
Definition allToLatestRegrades (containerMap : list (ServiceID * list Container))
    (res : list ReleaseAction)
    : M (Step (list ReleaseAction * gmap string (list containerRegrade))) :=
  loopM (fun acc '(serviceID, containers) =>
           loopM (allToLatestContainer serviceID) acc containers)
        (res, ∅) containerMap.

Definition releaseAllToLatestBody (inst : InstanceID) (exclude : gset string)
    : M Planned :=
  let method := "release_all_to_latest" in
  let res := [releaseActionPrintf
                "I'm going to release all services to their latest images."] in
  r ← call (AllServices inst);
  match r with
  | Err e =>
      mret {| res := res; stage := "fetch_all_platform_services";
              err := Some (Wrap e "fetching all platform services") |}
  | Ok serviceIDs =>
      _ ← observeStage method "fetch_all_platform_services";
      r ← call (AllReleasableImagesFor inst (Without serviceIDs exclude));
      match r with
      | Err e =>
          mret {| res := res; stage := "all_releasable_images_for";
                  err := Some (Wrap e "fetching images for services") |}
      | Ok containerMap =>
          _ ← observeStage method "all_releasable_images_for";
          r ← allToLatestRegrades containerMap res;
          match r with
          | Return e =>
              mret {| res := res; stage := "calculate_regrades"; err := Some e |}
          | Next (res, regradeMap) =>
              if decide (size regradeMap <= 0)
              then mret {| res := res ++ [releaseActionPrintf
                             "All services are running the latest images. Nothing to do."];
                           stage := "calculate_regrades"; err := None |}
              else
                _ ← observeStage method "calculate_regrades";
                let services := (map_to_list regradeMap).*1 in
                mret {| res := res ++ [releaseActionClone]
                          ++ updateActions (map_to_list regradeMap)
                          ++ [releaseActionCommitAndPush
                                "Release latest images to all services"]
                          ++ [releaseActionRegradeServices inst services
                                "latest images (to all services)"];
                        stage := "finalize"; err := None |}
          end
      end
  end.

(** [func (r *releaser) releaseAllToLatest(inst, kind, exclude, updateJob)] *)
Definition releaseAllToLatest (inst : InstanceID) (kind : ReleaseKind)
    (exclude : gset string) : M (option error) :=
  p ← releaseAllToLatestBody inst exclude;
  finish "release_all_to_latest" kind p.

(** *** [releaseAllForImage] *)

Definition allForImageContainer (target : ImageID) (serviceID : ServiceID)
    (acc : list ReleaseAction * gmap string (list containerRegrade))
    (c : Container)
    : list ReleaseAction * gmap string (list containerRegrade) :=
  let '(res, regradeMap) := acc in
  let candidate := ParseImageID (Image c) in
  if negb (bool_decide (Repository_ candidate = Repository_ target))
  then (res, regradeMap)
  else if bool_decide (candidate = target)
  then (res ++ [releaseActionPrintf
                  ("Service " +:+ serviceID +:+ " image " +:+ candidate
                     +:+ " matches the target image exactly. Skipping.")],
        regradeMap)
  else (res, appendRegrade regradeMap serviceID
               {| container := Name c; current := candidate; target := target |}).

Definition allForImageRegrades (target : ImageID)
    (containerMap : list (ServiceID * list Container)) (res : list ReleaseAction)
    : list ReleaseAction * gmap string (list containerRegrade) :=
  foldl (fun acc '(serviceID, containers) =>
           foldl (allForImageContainer target serviceID) acc containers)
        (res, ∅) containerMap.

Definition releaseAllForImageBody (inst : InstanceID) (target : ImageID)
    (exclude : gset string) : M Planned :=
  let method := "release_all_for_image" in
  let res := [releaseActionPrintf
                ("I'm going to release image " +:+ target
                   +:+ " to all services that would use it.")] in
  r ← call (AllServices inst);
  match r with
  | Err e =>
      mret {| res := res; stage := "fetch_all_platform_services";
              err := Some (Wrap e "fetching all platform services") |}
  | Ok serviceIDs =>
      _ ← observeStage method "fetch_all_platform_services";
      r ← call (AllReleasableImagesFor inst (Without serviceIDs exclude));
      match r with
      | Err e =>
          mret {| res := res; stage := "all_releasable_images_for";
                  err := Some (Wrap e "fetching images for services") |}
      | Ok containerMap =>
          _ ← observeStage method "all_releasable_images_for";
          let '(res, regradeMap) := allForImageRegrades target containerMap res in
          if decide (size regradeMap <= 0)
          then mret {| res := res ++ [releaseActionPrintf
                         ("All matching services are already running image "
                            +:+ target +:+ ". Nothing to do.")];
                       stage := "calculate_regrades"; err := None |}
          else
            _ ← observeStage method "calculate_regrades";
            let services := (map_to_list regradeMap).*1 in
            mret {| res := res ++ [releaseActionClone]
                      ++ updateActions (map_to_list regradeMap)
                      ++ [releaseActionCommitAndPush
                            ("Release " +:+ target +:+ " to all services")]
                      ++ [releaseActionRegradeServices inst services
                            (target +:+ " (to all services)")];
                    stage := "finalize"; err := None |}
      end
  end.

(** [func (r *releaser) releaseAllForImage(inst, target, kind, exclude, updateJob)] *)
Definition releaseAllForImage (inst : InstanceID) (target : ImageID)
    (kind : ReleaseKind) (exclude : gset string) : M (option error) :=
  p ← releaseAllForImageBody inst target exclude;
  finish "release_all_for_image" kind p.

(** *** [releaseOneToLatest] *)

Definition oneToLatestContainer
    (acc : list ReleaseAction * list containerRegrade) (c : Container)
    : M (Step (list ReleaseAction * list containerRegrade)) :=
  let '(res, regrades) := acc in
  let imageID := ParseImageID (Image c) in
  r ← call (RegistryGetRepository (Repository_ imageID));
  match r with
  | Err e => mret (Return (Wrap e ("fetching repository for " +:+ imageID)))
  | Ok imageRepo =>
      if decide (length (Images imageRepo) <= 0)
      then mret (Next (res ++ [releaseActionPrintf
                          ("The service image " +:+ imageID
                             +:+ " had no images available in its repository; very strange!")],
                       regrades))
      else
        match LatestImage imageRepo with
        | Err e =>
            mret (Return (Wrap e ("getting latest image from " +:+ RepoName imageRepo)))
        | Ok latestImage =>
            let latestID := ParseImageID (ImageString latestImage) in
            if bool_decide (imageID = latestID)
            then mret (Next (res ++ [releaseActionPrintf
                                ("The service image " +:+ imageID
                                   +:+ " is already at latest; skipping.")],
                             regrades))
            else mret (Next (res, regrades ++ [{| container := Name c;
                                                  current := imageID;
                                                  target := latestID |}]))
        end
  end.

Definition oneToLatestRegrades (containers : list Container) (res : list ReleaseAction)
    : M (Step (list ReleaseAction * list containerRegrade)) :=
  loopM oneToLatestContainer (res, []) containers.

Definition releaseOneToLatestBody (inst : InstanceID) (id : ServiceID)
    (exclude : gset string) : M Planned :=
  let method := "release_one_to_latest" in
  let res := [releaseActionPrintf
                ("I'm going to release the latest images(s) for service " +:+ id +:+ ".")] in
  if SetContains exclude id
  then mret {| res := res ++ [releaseActionPrintf
                 ("Specified service " +:+ id +:+ " is excluded; ignoring.")];
               stage := "fetch_images_for_service"; err := None |}
  else
    let '(namespace, service) := Components id in
    r ← call (PlatformContainersFor inst namespace service);
    match r with
    | Err e =>
        mret {| res := res; stage := "fetch_images_for_service";
                err := Some (Wrap e ("fetching images for service " +:+ id)) |}
    | Ok containers =>
        _ ← observeStage method "fetch_images_for_service";
        r ← oneToLatestRegrades containers res;
        match r with
        | Return e =>
            mret {| res := res; stage := "calculate_regrades"; err := Some e |}
        | Next (res, regrades) =>
            if decide (length regrades <= 0)
            then mret {| res := res ++ [releaseActionPrintf
                           "The service is already running the latest version of all its images. Nothing to do."];
                         stage := "calculate_regrades"; err := None |}
            else
              _ ← observeStage method "calculate_regrades";
              mret {| res := res ++ [releaseActionClone;
                                     releaseActionUpdatePodController id regrades;
                                     releaseActionCommitAndPush
                                       ("Release latest images to " +:+ id);
                                     releaseActionRegradeServices inst [id] "latest images"];
                      stage := "finalize"; err := None |}
        end
    end.

(** [func (r *releaser) releaseOneToLatest(inst, id, kind, exclude, updateJob)] *)
Definition releaseOneToLatest (inst : InstanceID) (id : ServiceID)
    (kind : ReleaseKind) (exclude : gset string) : M (option error) :=
  p ← releaseOneToLatestBody inst id exclude;
  finish "release_one_to_latest" kind p.

(** *** [releaseOne] *)

Definition oneContainer (target : ImageID)
    (acc : list ReleaseAction * list containerRegrade) (c : Container)
    : list ReleaseAction * list containerRegrade :=
  let '(res, regrades) := acc in
  let candidate := ParseImageID (Image c) in
  if negb (bool_decide (Repository_ candidate = Repository_ target))
  then (res ++ [releaseActionPrintf
                  ("Image " +:+ candidate +:+ " is different than " +:+ target
                     +:+ ". Ignoring.")],
        regrades)
  else if bool_decide (candidate = target)
  then (res ++ [releaseActionPrintf
                  ("Image " +:+ candidate +:+ " is already released. Skipping.")],
        regrades)
  else (res, regrades ++ [{| container := Name c; current := candidate;
                             target := target |}]).

Definition oneRegrades (target : ImageID) (containers : list Container)
    (res : list ReleaseAction) : list ReleaseAction * list containerRegrade :=
  foldl (oneContainer target) (res, []) containers.

Definition releaseOneBody (inst : InstanceID) (serviceID : ServiceID)
    (target : ImageID) (exclude : gset string) : M Planned :=
  let method := "release_one" in
  let res := [releaseActionPrintf
                ("I'm going to release image " +:+ target +:+ " to service "
                   +:+ serviceID +:+ ".")] in
  if SetContains exclude serviceID
  then mret {| res := res ++ [releaseActionPrintf
                 ("Specified service " +:+ serviceID +:+ " is excluded; ignoring.")];
               stage := "fetch_images_for_service"; err := None |}
  else
    let '(namespace, service) := Components serviceID in
    r ← call (PlatformContainersFor inst namespace service);
    match r with
    | Err e =>
        mret {| res := res; stage := "fetch_images_for_service";
                err := Some (Wrap e ("fetching images for service " +:+ serviceID)) |}
    | Ok containers =>
        _ ← observeStage method "fetch_images_for_service";
        let '(res, regrades) := oneRegrades target containers res in
        if decide (length regrades <= 0)
        then mret {| res := res ++ [releaseActionPrintf
                       ("Service " +:+ serviceID +:+ " doesn't need a regrade to "
                          +:+ target +:+ ". Nothing to do.")];
                     stage := "calculate_regrades"; err := None |}
        else
          _ ← observeStage method "calculate_regrades";
          mret {| res := res ++ [releaseActionClone;
                                 releaseActionUpdatePodController serviceID regrades;
                                 releaseActionCommitAndPush
                                   ("Release " +:+ target +:+ " to " +:+ serviceID);
                                 releaseActionRegradeServices inst [serviceID] target];
                  stage := "finalize"; err := None |}
    end.

(** [func (r *releaser) releaseOne(inst, serviceID, target, kind, exclude, updateJob)] *)
Definition releaseOne (inst : InstanceID) (serviceID : ServiceID)
    (target : ImageID) (kind : ReleaseKind) (exclude : gset string)
    : M (option error) :=
  p ← releaseOneBody inst serviceID target exclude;
  finish "release_one" kind p.

(** *** The two modes without update *)

Definition releaseOneWithoutUpdateBody (inst : InstanceID) (serviceID : ServiceID)
    (exclude : gset string) : M Planned :=
  if SetContains exclude serviceID
  then mret {| res := [releaseActionPrintf
                 ("Specified service " +:+ serviceID +:+ " is excluded; ignoring.")];
               stage := "finalize"; err := None |}
  else mret {| res := [releaseActionPrintf
                 ("I'm going to release service " +:+ serviceID
                    +:+ " using the config from the git repo, without updating it");
                       releaseActionClone;
                       releaseActionFindPodController serviceID;
                       releaseActionRegradeServices inst [serviceID] "without update"];
               stage := "finalize"; err := None |}.

(** [func (r *releaser) releaseOneWithoutUpdate(inst, serviceID, kind, exclude, updateJob)] *)
Definition releaseOneWithoutUpdate (inst : InstanceID) (serviceID : ServiceID)
    (kind : ReleaseKind) (exclude : gset string) : M (option error) :=
  p ← releaseOneWithoutUpdateBody inst serviceID exclude;
  finish "release_one_without_update" kind p.

Definition releaseAllWithoutUpdateBody (inst : InstanceID) (exclude : gset string)
    : M Planned :=
  let method := "release_all_without_update" in
  r ← call (AllServices inst);
  match r with
  | Err e =>
      mret {| res := []; stage := "fetch_all_platform_services";
              err := Some (Wrap e "fetching all platform services") |}
  | Ok serviceIDs =>
      let serviceIDs := Without serviceIDs exclude in
      _ ← observeStage method "fetch_all_platform_services";
      mret {| res := [releaseActionPrintf
                "I'm going to release all services using the config from the git repo, without updating it.";
                      releaseActionClone]
                ++ map releaseActionFindPodController serviceIDs
                ++ [releaseActionRegradeServices inst serviceIDs
                      "without update (all services)"];
              stage := "finalize"; err := None |}
  end.

(** [func (r *releaser) releaseAllWithoutUpdate(inst, kind, exclude, updateJob)] *)
Definition releaseAllWithoutUpdate (inst : InstanceID) (kind : ReleaseKind)
    (exclude : gset string) : M (option error) :=
  p ← releaseAllWithoutUpdateBody inst exclude;
  finish "release_all_without_update" kind p.

(** ** [Release] *)

(** The releaser at run time: its semaphore channel, as the number of
    values it buffers, and the state above. *)
Record Process := {
  semaphore : nat;
  state : State;
}.

(** A computation of a release mode, run by the releaser. *)
Definition lift {A} (m : M A) (p : Process) : Outcome A * Process :=
  let '(o, s) := m (state p) in
  (o, {| semaphore := semaphore p; state := s |}).

(** The non-blocking send of [Release]:
<<
    select {
    case r.semaphore <- struct{}{}:
        break // we've acquired the lock
    default:
        return errors.New("a release is already in progress; please try again later")
    }
>>
    on a channel made with capacity [maxSimultaneousReleases]; the answer
    tells which case ran. *)
Definition trySend (p : Process) : bool * Process :=
  if decide (semaphore p < maxSimultaneousReleases)
  then (true, {| semaphore := S (semaphore p); state := state p |})
  else (false, p).

(** [<-r.semaphore], where the channel holds a value. *)
Definition receive (p : Process) : Process :=
  {| semaphore := pred (semaphore p); state := state p |}.

(** The release type the [switch] of [Release] assigns before it calls the
    release mode. *)
Definition releaseTypeOf (spec : ReleaseJobSpec) : string :=
  if bool_decide (ServiceSpec spec = ServiceSpecAll)
     && bool_decide (ImageSpec spec = ImageSpecLatest) then "release_all_to_latest"
  else if bool_decide (ServiceSpec spec = ServiceSpecAll)
     && bool_decide (ImageSpec spec = ImageSpecNone) then "release_all_without_update"
  else if bool_decide (ServiceSpec spec = ServiceSpecAll) then "release_all_for_image"
  else if bool_decide (ImageSpec spec = ImageSpecLatest) then "release_one_to_latest"
  else if bool_decide (ImageSpec spec = ImageSpecNone) then "release_one_without_update"
  else "release_one".

Definition parsingError (e : error) (spec : ReleaseJobSpec) : error :=
  Wrap e ("parsing service ID from spec " +:+ ServiceSpec spec).

(** The [switch] of [Release]. *)
Definition dispatch (j : ReleaseJob) (exclude : gset string) : M (option error) :=
  let spec := Spec j in
  if bool_decide (ServiceSpec spec = ServiceSpecAll)
     && bool_decide (ImageSpec spec = ImageSpecLatest)
  then releaseAllToLatest (Instance j) (Kind spec) exclude
  else if bool_decide (ServiceSpec spec = ServiceSpecAll)
     && bool_decide (ImageSpec spec = ImageSpecNone)
  then releaseAllWithoutUpdate (Instance j) (Kind spec) exclude
  else if bool_decide (ServiceSpec spec = ServiceSpecAll)
  then
    let imageID := ParseImageID (ImageSpec spec) in
    releaseAllForImage (Instance j) imageID (Kind spec) exclude
  else if bool_decide (ImageSpec spec = ImageSpecLatest)
  then
    match ParseServiceID (ServiceSpec spec) with
    | Err e => mret (Some (parsingError e spec))
    | Ok serviceID => releaseOneToLatest (Instance j) serviceID (Kind spec) exclude
    end
  else if bool_decide (ImageSpec spec = ImageSpecNone)
  then
    match ParseServiceID (ServiceSpec spec) with
    | Err e => mret (Some (parsingError e spec))
    | Ok serviceID => releaseOneWithoutUpdate (Instance j) serviceID (Kind spec) exclude
    end
  else
    match ParseServiceID (ServiceSpec spec) with
    | Err e => mret (Some (parsingError e spec))
    | Ok serviceID =>
        let imageID := ParseImageID (ImageSpec spec) in
        releaseOne (Instance j) serviceID imageID (Kind spec) exclude
    end.

(** The first deferred closure of [Release], run when the call ends with
    outcome [o]:
<<
    defer func(begin time.Time) {
        r.metrics.ReleaseDuration.With("release_type", releaseType,
            "release_kind", fmt.Sprint(job.Spec.Kind),
            "success", fmt.Sprint(err == nil)).Observe(...)
    }(time.Now())
>>
    A panic leaves the named result [err] nil. *)
Definition observeRelease (releaseType : string) (kind : ReleaseKind)
    (o : Outcome (option error)) : M (option error) := fun s =>
  let success := match o with Normal (Some _) => false | _ => true end in
  (o, (emit (Observe "ReleaseDuration"
               ["release_type"; releaseType; "release_kind"; SprintKind kind;
                "success"; SprintBool success]) s).2).

Definition alreadyInProgress : error :=
  "a release is already in progress; please try again later".

(** [func (r *releaser) Release(job *flux.ReleaseJob, updater) (err error)].
    The deferred [<-r.semaphore] runs when the call ends, however it ends,
    and before the deferred observation. *)
Definition Release (p : Process) : Outcome (option error) * Process :=
  let j := job (state p) in
  let exclude := Add ∅ (Excludes (Spec j)) in
  match trySend p with
  | (true, p1) =>
      let '(o, p2) := lift (_ ← updateJob "Calculating release actions." [];
                            dispatch j exclude) p1 in
      let p3 := receive p2 in
      lift (observeRelease (releaseTypeOf (Spec j)) (Kind (Spec j)) o) p3
  | (false, p1) =>
      lift (observeRelease "unknown" (Kind (Spec j))
              (Normal (Some alreadyInProgress))) p1
  end.

(** ** Goroutines calling [Release]

    Each goroutine is waiting to call [Release], inside it with the slot
    (in flight), or back from it.  The steps on the shared releaser are the
    send and the receive above; the planning and the actions in between
    never touch the channel. *)
Inductive Phase := Waiting | InFlight | Finished.

#[global] Instance Phase_eq_dec : EqDecision Phase.
Proof. solve_decision. Defined.

Record System := {
  shared : Process;
  goroutines : list Phase;
}.

Inductive step : System -> System -> Prop :=
| step_acquire sys i s' :
    goroutines sys !! i = Some Waiting ->
    trySend (shared sys) = (true, s') ->
    step sys {| shared := s'; goroutines := <[i := InFlight]> (goroutines sys) |}
| step_reject sys i s' :
    goroutines sys !! i = Some Waiting ->
    trySend (shared sys) = (false, s') ->
    step sys {| shared := s'; goroutines := <[i := Finished]> (goroutines sys) |}
| step_work sys i {A} (m : M A) :
    goroutines sys !! i = Some InFlight ->
    step sys {| shared := (lift m (shared sys)).2; goroutines := goroutines sys |}
| step_exit sys i s' :
    goroutines sys !! i = Some InFlight ->
    receive (shared sys) = s' ->
    step sys {| shared := s'; goroutines := <[i := Finished]> (goroutines sys) |}
| step_again sys i :
    goroutines sys !! i = Some Finished ->
    step sys {| shared := shared sys; goroutines := <[i := Waiting]> (goroutines sys) |}.

Inductive reachable (init : System) : System -> Prop :=
| reach_init : reachable init init
| reach_step sys sys' : reachable init sys -> step sys sys' -> reachable init sys'.

(** The number of releases in flight. *)
Definition inFlight (sys : System) : nat :=
  length (filter (fun p => p = InFlight) (goroutines sys)).

(** What a goroutine counts for among the releases in flight. *)
Definition weight (ph : Phase) : nat := if decide (ph = InFlight) then 1 else 0.

(** Nobody holds the slot and the channel is empty. *)
Definition idle (sys : System) : Prop :=
  semaphore (shared sys) = 0 /\ inFlight sys = 0.

(** ** Notions the properties are stated with *)

(** What [execute] does with an action under [EXECUTE]: [action.Do(rc)],
    when [Do] is not nil. *)
Definition runAction (a : ReleaseAction) : M (string * option error) :=
  match Do a with
  | Some do => do
  | None => ret "" None
  end.

(** The status the sink gets for an action: [updateJob(action.Description)]
    formats the description. *)
Definition describe (a : ReleaseAction) : string := Sprintf (Description a) [].

(** The statuses the result sink received. *)
Definition reported (t : list Event) : list string :=
  omap (fun e => match e with UpdateJob j => Some (Status j) | _ => None end) t.

(** Collaborator calls among the events. *)
Definition isCall (e : Event) : bool :=
  match e with Called _ => true | _ => false end.

Definition isWrite (e : Event) : bool :=
  match e with Called (WriteFile _ _ _) => true | _ => false end.

(** An action body that returns a non-nil error. *)
Definition returnsError (o : Outcome (string * option error)) : Prop :=
  exists res e, o = Normal (res, Some e).

(** The invariant of a container regrade: "current.repository ==
    target.repository; current ≠ target". *)
Definition validRegrade (r : containerRegrade) : Prop :=
  Repository_ (current r) = Repository_ (target r) /\ current r <> target r.

(** The half of it the to-latest modes test themselves. *)
Definition differs (r : containerRegrade) : Prop := current r <> target r.

(** The registry answers a request for a repository with images of that
    repository: "Latest is defined as the registry tag with the greatest
    creation timestamp among tags of the container's current
    repository". *)
Definition honestRegistry : Prop :=
  forall repository w r w' img,
    handle _ (RegistryGetRepository repository) w = (Ok r, w') ->
    img ∈ Images r ->
    Repository_ (ParseImageID (ImageString img)) = repository.

End Release.

Arguments Next {A} a.
Arguments Return {A} e.
Arguments State W : clear implicits.
Arguments M W A : clear implicits.
Arguments ReleaseAction W : clear implicits.
Arguments Planned W : clear implicits.
Arguments Process W : clear implicits.
Arguments System W : clear implicits.

(** ** A concrete deployment for the examples

    One service, [default/helloworld], running two containers; the registry
    advertises a newer [helloworld] image.  The world counts the mutating
    calls made so far, and [files] is what [kubernetes.FilesFor] finds. *)
Module Example.

(** The text before the first colon: the repository of an image name. *)
Fixpoint beforeColon (s : string) : string :=
  match s with
  | EmptyString => EmptyString
  | String a s' => if Ascii.eqb a (Ascii.ascii_of_nat 58) then EmptyString else String a (beforeColon s')
  end.

Definition helloworld : Container :=
  {| Name := "goodbyeworld"; Image := "quay.io/weaveworks/helloworld:master-a000001" |}.
Definition sidecar : Container :=
  {| Name := "sidecar"; Image := "quay.io/weaveworks/sidecar:master-a000002" |}.
Definition newImage : string := "quay.io/weaveworks/helloworld:master-a000002".

(** The registry knows the two repositories in use, and advertises two tags
    for each. *)
Definition toyRegistry (repository : string) : result Repository :=
  if bool_decide (repository = "quay.io/weaveworks/helloworld")
     || bool_decide (repository = "quay.io/weaveworks/sidecar")
  then Ok {| RepoName := repository;
             Images := [ {| ImageString := repository +:+ ":master-a000001"; CreatedAt := 1 |};
                         {| ImageString := repository +:+ ":master-a000002"; CreatedAt := 2 |} ] |}
  else Err "repository not found".

(** A registry that answers every request with an image of another
    repository. *)
Definition strayRegistry (repository : string) : result Repository :=
  Ok {| RepoName := repository;
        Images := [ {| ImageString := "docker.io/library/other:1"; CreatedAt := 1 |} ] |}.

Definition toyHandle (files : list string) (registry : string -> result Repository)
    (regrade : option TransactionError) (X : Type) (c : Call X) (w : nat) : X * nat :=
  match c in Call X return X * nat with
  | AllServices _ => (Ok ["default/helloworld"], w)
  | AllReleasableImagesFor _ ids =>
      (Ok (map (fun id => (id, [helloworld; sidecar])) ids), w)
  | PlatformContainersFor _ _ _ => (Ok [helloworld; sidecar], w)
  | RegistryGetRepository repository => (registry repository, w)
  | PlatformRegrade _ _ => (regrade, S w)
  | Clone => (Ok ("/tmp/flux-clone", "/tmp/flux-key"), S w)
  | CommitAndPush _ _ _ => (("", None), S w)
  | Stat _ => (Ok {| IsDir := true; Mode := 420 |}, w)
  | ReadFile _ => (Ok "image: quay.io/weaveworks/helloworld:master-a000001", w)
  | WriteFile _ _ _ => (None, S w)
  | RemoveAll _ => (tt, S w)
  | FilesFor _ _ _ => (Ok files, w)
  | UpdatePodController _ image => (Ok ("image: " +:+ image), w)
  end.

Definition toyComponents (id : string) : string * string := ("default", id).
Definition toyParseServiceID (s : string) : result string := Ok s.
Definition toyJoin (a b : string) : string := a +:+ "/" +:+ b.
Definition toySprintf (format : string) (args : list string) : string := format.

Definition toyJob (serviceSpec imageSpec : string) (kind : ReleaseKind) : ReleaseJob :=
  {| Instance := "instance";
     Spec := {| ServiceSpec := serviceSpec; ImageSpec := imageSpec; Kind := kind;
                Excludes := [] |};
     Status := ""; Log := [] |}.

(** "Release [default/helloworld] to its latest images", for real. *)
Definition executeJob : ReleaseJob :=
  toyJob "default/helloworld" "<all latest>" ReleaseKindExecute.

Definition s0 (j : ReleaseJob) : State nat :=
  {| world := 0; job := j; rc := NewReleaseContext; trace := [] |}.

Definition p0 (j : ReleaseJob) (sem : nat) : Process nat :=
  {| semaphore := sem; state := s0 j |}.

(** [Release] in this deployment. *)
Definition toyRelease (files : list string) (registry : string -> result Repository)
    (regrade : option TransactionError) (p : Process nat)
    : Outcome (option error) * Process nat :=
  Release (toyHandle files registry regrade) (fun s => s) beforeColon toyComponents
    toyParseServiceID toyJoin "resources" toySprintf "<all>" "<all latest>" "<no updates>" p.

(** The update action of [default/helloworld] in this deployment. *)
Definition toyUpdate (files : list string) : ReleaseAction nat :=
  releaseActionUpdatePodController (toyHandle files toyRegistry None)
    toyComponents toyJoin "resources" "default/helloworld"
    [ {| container := "goodbyeworld";
         current := "quay.io/weaveworks/helloworld:master-a000001";
         target := newImage |} ].

End Example.

End Releaser.

(* ===================================================================== *)
(** * The registry cache warmer                                           *)
(* ===================================================================== *)

Module Warmer.

Import Releaser (result, Ok, Err, Wrap).

(** Modelled from the spec: the image type of this version of the [flux]
    package is not part of the sources.  "Image Reference. A triple (host,
    namespace/repository, tag). Two references are same-repository iff host
    and repository match; equal iff all three match." *)
Record ImageID := {
  Host : string;
  NamespaceImage : string;
  Tag : string;
}.

#[global] Instance ImageID_eq_dec : EqDecision ImageID.
Proof. solve_decision. Defined.

(** [func (i ImageID) WithNewTag(t string) ImageID] *)
Definition WithNewTag (i : ImageID) (t : string) : ImageID :=
  {| Host := Host i; NamespaceImage := NamespaceImage i; Tag := t |}.

(** [func (i ImageID) HostNamespaceImage() string] *)
Definition HostNamespaceImage (i : ImageID) : string :=
  Host i +:+ "/" +:+ NamespaceImage i.

(** What [client.Manifest] answers: the image and when it was created. *)
Record ImageInfo := {
  ID : ImageID;
  CreatedAt : Z;
}.

(** Instants and durations count nanoseconds; a [time.Duration] is an
    [int64]. *)
Definition Minute : Z := 60 * 1000000000.

(** [const refreshWhenExpiryWithin = 5 * time.Minute] *)
Definition refreshWhenExpiryWithin : Z := 5 * Minute.

(** [const askForNewImagesInterval = time.Minute] *)
Definition askForNewImagesInterval : Z := Minute.

Definition maxDuration : Z := 2 ^ 63 - 1.
Definition minDuration : Z := - 2 ^ 63.

(** [func (t Time) Sub(u Time) Duration]: "If the result exceeds the maximum
    (or minimum) value that can be stored in a Duration, the maximum (or
    minimum) duration will be returned." *)
Definition Sub (t u : Z) : Z :=
  if (maxDuration <? t - u)%Z then maxDuration
  else if (t - u <? minDuration)%Z then minDuration
  else (t - u)%Z.

(** What [Reader.GetExpiration] answers: an expiry and a nil error, the
    sentinel [cache.ErrNotCached], or another error. *)
Inductive Expiration :=
| Expires (expiry : Z)
| ErrNotCached
| ErrOther (e : error).

Abbreviation Client := nat (only parsing).
Abbreviation Key := string (only parsing).
Abbreviation Credentials := string (only parsing).

(** The calls that leave the package: the client factory and its clients,
    the cache writer and reader, and the clock. *)
Inductive Call : Type -> Type :=
| ClientFor (host : string) (creds : Credentials) : Call (result Client)
| Cancel (client : Client) : Call unit
| Tags (client : Client) (id : ImageID) : Call (result (list string))
| Manifest (client : Client) (id : ImageID) : Call (result ImageInfo)
| SetKey (key : Key) (val : string) : Call (option error)
| GetExpiration (key : Key) : Call Expiration
| Now : Call Z.

Inductive Event :=
| Called {X} (c : Call X)
| Logged (keyvals : list string).

(** How [warm] ends: it returns, it blocks for ever on a channel, or it
    panics. *)
Inductive Ending := Returned | Blocked | Panicked (v : string).

(** [type Warmer struct]: [Creds] through the user name it yields for a
    host ([w.Creds.credsFor(host).username]), and [Burst]. *)
Record Warmer := {
  credsFor : string -> string;
  Burst : Z;
}.

Section Warm.

Context {W : Type}.
Variable handle : forall X, Call X -> W -> X * W.

(** Functions of packages that are not part of the sources: the two key
    constructors of the [cache] package, and [json.Marshal] on a tag list
    and on an image. *)
Variable NewTagKey : string -> ImageID -> result Key.
Variable NewManifestKey : string -> ImageID -> result Key.
Variable MarshalTags : list string -> result string.
Variable MarshalImage : ImageInfo -> result string.

Record State := {
  world : W;
  trace : list Event;
}.

Definition M (A : Type) : Type := State -> A * State.

#[global] Instance M_ret : MRet M := fun A a s => (a, s).
#[global] Instance M_bind : MBind M :=
  fun A B f m s => let '(a, s') := m s in f a s'.

Definition call {X} (c : Call X) : M X := fun s =>
  let '(x, w) := handle X c (world s) in
  (x, {| world := w; trace := trace s ++ [Called c] |}).

(** [w.Logger.Log(keyvals...)] *)
Definition Log (keyvals : list string) : M unit := fun s =>
  (tt, {| world := world s; trace := trace s ++ [Logged keyvals] |}).

(** [time.Until(t)], that is [t.Sub(time.Now())]. *)
Definition Until (t : Z) : M Z :=
  now ← call Now;
  mret (Sub t now).

(** The errors that are not logged:
<<
    !strings.Contains(err.Error(), context.DeadlineExceeded.Error()) &&
    !strings.Contains(err.Error(), "net/http: request canceled")
>> *)
Definition worthLogging (e : error) : bool :=
  negb (Contains e "context deadline exceeded") &&
  negb (Contains e "net/http: request canceled").

(** The body of [for _, tag := range tags]: "Create a list of manifests that
    need updating". *)
Definition examine (username : string) (id : ImageID)
    (acc : list ImageID * list ImageID) (tag : string)
    : M (list ImageID * list ImageID) :=
  let '(expiring, missing) := acc in
  let i := WithNewTag id tag in
  match NewManifestKey username i with
  | Err e =>
      _ ← Log ["err"; Wrap e "creating key for memcache"];
      mret (expiring, missing)
  | Ok key =>
      r ← call (GetExpiration key);
      match r with
      | ErrNotCached => mret (expiring, missing ++ [i])
      | Expires expiry =>   (* We've already got it *)
          d ← Until expiry;
          if (refreshWhenExpiryWithin <? d)%Z
          then mret (expiring, missing)
          else mret (expiring ++ [i], missing)
      | ErrOther e =>
          _ ← Log ["err"; e];
          mret (expiring, missing)
      end
  end.

Fixpoint examineAll (username : string) (id : ImageID)
    (acc : list ImageID * list ImageID) (tags : list string)
    : M (list ImageID * list ImageID) :=
  match tags with
  | [] => mret acc
  | tag :: rest =>
      acc' ← examine username id acc tag;
      examineAll username id acc' rest
  end.

(** The goroutine started for one image; it answers whether the cache was
    updated. *)
Definition fetch (client : Client) (username : string) (imageID : ImageID)
    : M bool :=
  r ← call (Manifest client imageID);
  match r with
  | Err e =>
      _ ← (if worthLogging e then Log ["err"; Wrap e "requesting manifests"]
           else mret tt);
      mret false
  | Ok img =>
      match NewManifestKey username (ID img) with
      | Err e =>
          _ ← Log ["err"; Wrap e "creating key for memcache"];
          mret false
      | Ok key =>
          match MarshalImage img with
          | Err e =>
              _ ← Log ["err"; Wrap e "serializing tag to store in cache"];
              mret false
          | Ok val =>
              e ← call (SetKey key val);
              match e with
              | Some e =>
                  _ ← Log ["err"; Wrap e "storing manifests in cache"];
                  mret false
              | None => mret true
              end
          end
      end
  end.

(** The fetches of [toUpdate], one goroutine after the other, counting the
    successful ones. *)
Fixpoint fetchEach (client : Client) (username : string)
    (toUpdate : list ImageID) (successfullyUpdated : nat) : M nat :=
  match toUpdate with
  | [] => mret successfullyUpdated
  | imID :: rest =>
      updated ← fetch client username imID;
      fetchEach client username rest
        (if (updated : bool) then S successfullyUpdated else successfullyUpdated)
  end.

(** The fan-out:
<<
    fetchers := make(chan struct{}, w.Burst)
    for _, imID := range toUpdate {
        awaitFetchers.Add(1)
        fetchers <- struct{}{}
        go func(imageID flux.ImageID) { ... }(imID)
    }
    awaitFetchers.Wait()
>>
    [make] panics on a negative size.  A goroutine gives its token back
    when it ends, so with room for one token every send goes through; on a
    channel without buffer the first send waits for a receiver, and the
    only receivers are goroutines started after a send.  The goroutines run
    here in the order they are started. *)
Definition fanOut (w : Warmer) (client : Client) (username : string)
    (id : ImageID) (toUpdate : list ImageID) : M Ending :=
  if (Burst w <? 0)%Z then mret (Panicked "makechan: size out of range")
  else if (Burst w =? 0)%Z && negb (bool_decide (toUpdate = [])) then mret Blocked
  else
    n ← fetchEach client username toUpdate 0;
    _ ← Log ["updated"; HostNamespaceImage id; "count"; pretty n];
    mret Returned.

(** [func (w *Warmer) warm(id flux.ImageID, creds Credentials)] after the
    client was made: the part [defer client.Cancel()] guards. *)
Definition warmWith (w : Warmer) (client : Client) (id : ImageID) : M Ending :=
  let username := credsFor w (Host id) in
  (* Refresh tags first *)
  r ← call (Tags client id);
  match r with
  | Err e =>
      _ ← (if worthLogging e then Log ["err"; Wrap e "requesting tags"]
           else mret tt);
      mret Returned
  | Ok tags =>
      match MarshalTags tags with
      | Err e =>
          _ ← Log ["err"; Wrap e "serializing tags to store in cache"];
          mret Returned
      | Ok val =>
          match NewTagKey username id with
          | Err e =>
              _ ← Log ["err"; Wrap e "creating key for cache"];
              mret Returned
          | Ok key =>
              e ← call (SetKey key val);
              match e with
              | Some e =>
                  _ ← Log ["err"; Wrap e "storing tags in cache"];
                  mret Returned
              | None =>
                  '(expiring, missing) ← examineAll username id ([], []) tags;
                  if decide (0 < length expiring + length missing)
                  then
                    _ ← Log ["fetching"; HostNamespaceImage id;
                             "total"; pretty (length tags);
                             "expiring"; pretty (length expiring);
                             "missing"; pretty (length missing)];
                    let toUpdate := missing ++ expiring in
                    fanOut w client username id toUpdate
                  else mret Returned
              end
          end
      end
  end.

(** [func (w *Warmer) warm(id flux.ImageID, creds Credentials)]; a goroutine
    that blocks for ever never runs its deferred [client.Cancel()]. *)
Definition warm (w : Warmer) (id : ImageID) (creds : Credentials) : M Ending :=
  r ← call (ClientFor (Host id) creds);
  match r with
  | Err e =>
      _ ← Log ["err"; e];
      mret Returned
  | Ok client =>
      ending ← warmWith w client id;
      match ending with
      | Blocked => mret Blocked
      | _ => _ ← call (Cancel client); mret ending
      end
  end.

(** The images a pass tried to fetch, in order. *)
Definition fetched (t : list Event) : list ImageID :=
  omap (fun e => match e with
                 | Called (Manifest _ i) => Some i
                 | _ => None
                 end) t.

(** The cache keys whose expiration a pass looked up, in order. *)
Definition examined (t : list Event) : list Key :=
  omap (fun e => match e with
                 | Called (GetExpiration k) => Some k
                 | _ => None
                 end) t.

(** ** Notions the properties are stated with *)

(** The state in which the loop over the tags starts: the client was made,
    the tags were listed, the tag list was written. *)
Definition loopStart (s : State) (w3 : W) (client : Client) (creds : Credentials)
    (id : ImageID) (key val : string) : State :=
  {| world := w3;
     trace := ((trace s ++ [Called (ClientFor (Host id) creds)])
                 ++ [Called (Tags client id)])
                ++ [Called (SetKey key val)] |}.

(** The tag list did not reach the cache: it could not be serialised, or
    its key could not be made, or the write failed. *)
Definition tagListNotStored (username : string) (id : ImageID)
    (tags : list string) (w2 : W) : Prop :=
  match MarshalTags tags with
  | Err _ => True
  | Ok val =>
      match NewTagKey username id with
      | Err _ => True
      | Ok key => exists e, (handle _ (SetKey key val) w2).1 = Some e
      end
  end.

End Warm.

Arguments State W : clear implicits.
Arguments M W A : clear implicits.

(** ** A concrete registry and cache for the examples

    The registry advertises three tags.  In the cache, the manifest of [v1]
    is missing, that of [v2] expires in an hour and that of [v3] in two
    minutes; the clock stands at [1000] seconds. *)
Module Example.

Definition second : Z := 1000000000.
Definition theTime : Z := 1000 * second.

Definition image : ImageID :=
  {| Host := "quay.io"; NamespaceImage := "weaveworks/helloworld"; Tag := "" |}.

Definition keyOf (username : string) (i : ImageID) : string :=
  username +:+ "|" +:+ HostNamespaceImage i +:+ ":" +:+ Tag i.

(** The world is the list of keys written so far; [setKey] is what writing
    to the cache answers. *)
Definition toyHandle (setKey : option error) (X : Type) (c : Call X)
    (w : list string) : X * list string :=
  match c in Call X return X * list string with
  | ClientFor _ _ => (Ok 7, w)
  | Cancel _ => (tt, w)
  | Tags _ _ => (Ok ["v1"; "v2"; "v3"], w)
  | Manifest _ i => (Ok {| ID := i; CreatedAt := 0 |}, w)
  | SetKey key _ => (setKey, match setKey with None => w ++ [key] | Some _ => w end)
  | GetExpiration key =>
      (if bool_decide (key = keyOf "user" (WithNewTag image "v1")) then ErrNotCached
       else if bool_decide (key = keyOf "user" (WithNewTag image "v2"))
       then Expires (theTime + 3600 * second)
       else Expires (theTime + 120 * second), w)
  | Now => (theTime, w)
  end.

Definition toyTagKey (username : string) (i : ImageID) : result string :=
  Ok (username +:+ "|" +:+ HostNamespaceImage i).
Definition toyManifestKey (username : string) (i : ImageID) : result string :=
  Ok (keyOf username i).
Definition toyMarshalTags (tags : list string) : result string := Ok (Join tags ",").
Definition toyMarshalImage (img : ImageInfo) : result string :=
  Ok (keyOf "" (ID img)).

Definition warmer (burst : Z) : Warmer :=
  {| credsFor := fun _ => "user"; Burst := burst |}.

Definition s0 : State (list string) := {| world := []; trace := [] |}.

(** One warm pass in this setting. *)
Definition toyWarm (setKey : option error) (burst : Z) : M (list string) Ending :=
  warm (toyHandle setKey) toyTagKey toyManifestKey toyMarshalTags toyMarshalImage
    (warmer burst) image "secret".

End Example.

End Warmer.

(* ===================================================================== *)
(** * Notions for whole runs of the sync engine                           *)
(* ===================================================================== *)

Module SyncRuns.

Import Sync.

(** The two sub-batches of a bucket: the manifests [execute] stages into
    [defaultSet], and those it stages into [otherSet]. *)
Definition defaults (l : list obj) : list obj := filter isDefault l.
Definition others (l : list obj) : list obj := filter (fun o => negb (isDefault o)) l.

(** A run [doCommand] makes for the arguments [cmd]: the configured
    executable, the connection flags, the arguments, and [-f -]. *)
Definition runOf (c : Kubectl) (cmd : list string) (i : Invocation) : Prop :=
  inv_exe i = exe c /\ inv_args i = connectArgs c ++ cmd ++ ["-f"; "-"].

(** A run [execute] makes for the command [c0] (one of [cmds]), on either
    of its two sets. *)
Definition runFor (c : Kubectl) (c0 : string) (i : Invocation) : Prop :=
  runOf c [c0; "--namespace"; "default"] i \/ runOf c [c0] i.

(** The command line [doCommand] logs for the arguments [cmd]:
    ["kubectl "+strings.Join(args, " ")], taken after [-f -] was appended
    and before the connection flags are. *)
Definition logLine (cmd : list string) : string :=
  "kubectl " +:+ Join (cmd ++ ["-f"; "-"]) " ".

Definition logFor (c0 : string) (e : LogEntry) : Prop :=
  log_cmd e = logLine [c0; "--namespace"; "default"] \/ log_cmd e = logLine [c0].

(** The bulk run of a sub-batch: none when it is empty. *)
Definition bulk (c : Kubectl) (cmd : list string) (l : list obj) : list Invocation :=
  match l with
  | [] => []
  | _ => [command c cmd (stream l)]
  end.

(** Everything staged for [execute]: the [delete] bucket and the [apply]
    bucket of the change set. *)
Definition stagedFor {W} (s : State W) (c : Kubectl) : list obj :=
  bucket s (kChangeSet c) "delete" ++ bucket s (kChangeSet c) "apply".

(** The error [doCommand] returns carries the text the tool wrote on its
    standard error, wrapped. *)
Definition kubectlError (errs : SyncError) (k : string) : Prop :=
  exists e, errs !! k = Some ("running kubectl: " +:+ e).

(** From [s] to [s'] the tool was run and the logger called, one record for
    each run, and nothing else was run or logged. *)
Definition ran {W} (P : Invocation -> Prop) (Q : LogEntry -> Prop)
    (s s' : State W) : Prop :=
  exists newcalls newlogs,
    calls s' = calls s ++ newcalls /\ logs s' = logs s ++ newlogs /\
    Forall P newcalls /\ Forall Q newlogs /\ length newlogs = length newcalls.

(** The map of the change set exists on the heap (a nil map needs none). *)
Definition allocated {W} (s : State W) (c : changeSet) : Prop :=
  forall r, objs c = Some r -> r < length (maps s).

(** ** A cluster that accepts everything, and the change set of the examples *)
Module Example.

Import Sync.Example.

(** A tool that accepts every input. *)
Definition calmRun (i : Invocation) (w : nat) : RunResult * nat :=
  ({| failed := false; stderr := ""; stdout := "configured" |}, S w).

(** The [Kubectl] and the heap after the three manifests of [stageThree]
    were staged. *)
Definition threeStaged : Kubectl := (stageThree s0).1.
Definition threeState : State nat := (stageThree s0).2.

End Example.

End SyncRuns.

(* ===================================================================== *)
(** * Notions for whole runs of the releaser                              *)
(* ===================================================================== *)

Module ReleaserRuns.

Import Releaser.

(** Whether a call changes the configuration repository: it writes a file
    of the checkout, or it commits and pushes. *)
Definition changesConfig {X} (c : Call X) : bool :=
  match c with
  | WriteFile _ _ _ | CommitAndPush _ _ _ => true
  | _ => false
  end.

(** Events that are no mutating call, and events that are no change of the
    configuration repository. *)
Definition dry (e : Event) : bool :=
  match e with Called c => negb (mutating c) | _ => true end.

Definition keepsConfig (e : Event) : bool :=
  match e with Called c => negb (changesConfig c) | _ => true end.

(** The files written, with what was written, and the transactions sent to
    the platform, among the events. *)
Definition written (t : list Event) : list (string * string) :=
  omap (fun e => match e with
                 | Called (WriteFile path data _) => Some (path, data)
                 | _ => None
                 end) t.

Definition regraded (t : list Event) : list (list RegradeSpec) :=
  omap (fun e => match e with
                 | Called (PlatformRegrade _ specs) => Some specs
                 | _ => None
                 end) t.

Section Runs.

Context {W : Type}.

(** A computation keeps the relation [R] when the state it ends in is
    related to the state it starts in, whether it returns or panics. *)
Definition keeps (R : State W -> State W -> Prop) {A} (m : M W A) : Prop :=
  forall s, R s (m s).2.

(** What a computation returns, when it returns, satisfies [Q]. *)
Definition yields {A} (Q : A -> Prop) (m : M W A) : Prop :=
  forall s a s', m s = (Normal a, s') -> Q a.

(** An action whose body, if it has one, keeps [R]. *)
Definition actionKeeps (R : State W -> State W -> Prop) (a : ReleaseAction W) : Prop :=
  forall do, Do a = Some do -> keeps R do.

(** From [s] to [s'] events were added, each of them [ok], and none was
    taken away. *)
Definition added (ok : Event -> bool) (s s' : State W) : Prop :=
  exists t, trace s' = trace s ++ t /\ Forall (fun e => ok e = true) t.

(** From [s] to [s'] the job kept its instance and its spec, its log only
    grew, and if it grew the status is its last line. *)
Definition jobGrows (s s' : State W) : Prop :=
  Instance (job s') = Instance (job s) /\ Spec (job s') = Spec (job s) /\
  exists l, Log (job s') = Log (job s) ++ l /\
            Status (job s') = default (Status (job s)) (last l).

(** What a release mode does when the one service it is asked for is
    excluded: it returns nil, calls nobody, and the last status of the job
    says so. *)
Definition ignores (Sprintf : string -> list string -> string) (id : string)
    (s : State W) (r : Outcome (option error) * State W) : Prop :=
  r.1 = Normal None /\ world r.2 = world s /\
  (exists t, trace r.2 = trace s ++ t /\ Forall (fun e => isCall e = false) t) /\
  Status (job r.2) = Sprintf ("Specified service " +:+ id +:+ " is excluded; ignoring.") [].

End Runs.

(** The specs [releaseActionRegradeServices] collects from a release
    context: one for each service that has a definition there, in the order
    of the services. *)
Definition specsOf (Components : string -> string * string) (c : ReleaseContext)
    (services : list string) : list RegradeSpec :=
  omap (fun service =>
          def ← PodControllers c !! service;
          Some {| NamespacedService_ :=
                    {| Namespace := (Components service).1;
                       Service := (Components service).2 |};
                  NewDefinition := def |})
       services.

(** ** More of the deployment of the examples *)
Module Example.

Import Releaser.Example.

(** A parser of service identifiers that wants a namespace. *)
Definition strictParseServiceID (s : string) : result string :=
  if Contains s "/" then Ok s else Err "invalid service ID".

(** The deployment with one matching file, a registry in order and a
    platform that accepts every regrade. *)
Definition calmHandle : forall X, Call X -> nat -> X * nat :=
  toyHandle ["helloworld.yaml"] toyRegistry None.

(** The same deployment when the platform cannot list its services. *)
Definition downHandle (X : Type) (c : Call X) (w : nat) : X * nat :=
  match c in Call X return X * nat with
  | AllServices _ => (Err "platform unreachable", w)
  | c => calmHandle _ c w
  end.

(** [Release] with the strict parser. *)
Definition strictRelease (p : Process nat) : Outcome (option error) * Process nat :=
  Release calmHandle (fun s => s) beforeColon toyComponents strictParseServiceID toyJoin
    "resources" toySprintf "<all>" "<all latest>" "<no updates>" p.

(** A plan whose second action fails, two files matching the service, and
    what would follow. *)
Definition failingPlan : list (ReleaseAction nat) :=
  [releaseActionPrintf "I'm going to release."; toyUpdate ["a.yaml"; "b.yaml"]].

Definition afterwards : list (ReleaseAction nat) :=
  [releaseActionCommitAndPush calmHandle "Release"].

End Example.

End ReleaserRuns.

(* ===================================================================== *)
(** * Notions for whole passes of the warmer                              *)
(* ===================================================================== *)

Module WarmerRuns.

Import Releaser (result, Ok, Err, Wrap).
Import Warmer.

(** The clients cancelled and the cache entries written, among the events,
    in order. *)
Definition cancelled (t : list Event) : list nat :=
  omap (fun e => match e with
                 | Called (Cancel client) => Some client
                 | _ => None
                 end) t.

Definition stored (t : list Event) : list (string * string) :=
  omap (fun e => match e with
                 | Called (SetKey key val) => Some (key, val)
                 | _ => None
                 end) t.

(** Events that are no [Cancel], events that are no lookup of an expiration
    in the cache, and events that are no write to the cache unless what is
    written satisfies [P]. *)
Definition noCancel (e : Event) : Prop :=
  match e with Called (Cancel _) => False | _ => True end.

Definition noLookup (e : Event) : Prop :=
  match e with Called (GetExpiration _) => False | _ => True end.

Definition writesOnly (P : string * string -> Prop) (e : Event) : Prop :=
  match e with Called (SetKey key val) => P (key, val) | _ => True end.

(** A cache entry that holds a tag list as [MarshalTags] writes it, under
    the tag key of the image. *)
Definition tagsEntry (NewTagKey : string -> ImageID -> result string)
    (MarshalTags : list string -> result string) (username : string)
    (id : ImageID) (kv : string * string) : Prop :=
  NewTagKey username id = Ok kv.1 /\ exists tags, MarshalTags tags = Ok kv.2.

(** A cache entry that holds an image as [MarshalImage] writes it, under the
    manifest key of that image's own identifier. *)
Definition manifestEntry (NewManifestKey : string -> ImageID -> result string)
    (MarshalImage : ImageInfo -> result string) (username : string)
    (kv : string * string) : Prop :=
  exists img, NewManifestKey username (ID img) = Ok kv.1 /\ MarshalImage img = Ok kv.2.

(** The manifest keys of the tags for which a key can be made, in the order
    of the tags. *)
Definition manifestKeys (NewManifestKey : string -> ImageID -> result string)
    (username : string) (id : ImageID) (tags : list string) : list string :=
  omap (fun tag => match NewManifestKey username (WithNewTag id tag) with
                   | Ok key => Some key
                   | Err _ => None
                   end) tags.

Section Runs.

Context {W : Type}.

(** From [s] to [s'] events were added, each of them [ok], and none was
    taken away. *)
Definition added (ok : Event -> Prop) (s s' : State W) : Prop :=
  exists t, trace s' = trace s ++ t /\ Forall ok t.

(** A computation that only adds events that are [ok]. *)
Definition adds (ok : Event -> Prop) {A} (m : M W A) : Prop :=
  forall s, added ok s (m s).2.

End Runs.

(** ** More of the registry of the examples *)
Module Example.

Import Warmer.Example.

(** The same registry when it does not answer in time. *)
Definition slowHandle (X : Type) (c : Call X) (w : list string) : X * list string :=
  match c in Call X return X * list string with
  | Tags _ _ => (Err "Get https://quay.io/v2/: context deadline exceeded", w)
  | c => toyHandle None _ c w
  end.

Definition slowWarm : M (list string) Ending :=
  warm slowHandle toyTagKey toyManifestKey toyMarshalTags toyMarshalImage
    (warmer 1) image "secret".

End Example.

End WarmerRuns.

(* ===================================================================== *)
(** * Properties of the sync engine                                       *)
(* ===================================================================== *)

Module SyncFacts.

Import Sync.

Lemma append_assoc (a b c : string) : (a +:+ b) +:+ c = a +:+ (b +:+ c).
Proof.
  induction a as [|x a IH]; [done|].
  change (String x ((a +:+ b) +:+ c) = String x (a +:+ (b +:+ c))).
  by rewrite IH.
Qed.

Lemma append_nil_r (a : string) : a +:+ "" = a.
Proof.
  induction a as [|x a IH]; [done|].
  change (String x (a +:+ "") = String x a). by rewrite IH.
Qed.

Section Facts.

Context {W : Type}.
Variable run : Invocation -> W -> RunResult * W.
Variable TrimSpace : string -> string.

Lemma bind_run {A B} (m : M W A) (f : A -> M W B) s :
  (m ≫= f) s = f (m s).1 (m s).2.
Proof. unfold mbind, M_bind. by destruct (m s). Qed.

Lemma foldM_cons {A B} (body : B -> A -> M W B) acc x l s :
  foldM body acc (x :: l) s = foldM body (body acc x s).1 l (body acc x s).2.
Proof. simpl. by rewrite bind_run. Qed.

(** ** Computations that only touch the Go heap *)

Lemma quiet_ret {A} (a : A) : quiet (W:=W) (mret a).
Proof. by intros s. Qed.

Lemma quiet_bind {A B} (m : M W A) (f : A -> M W B) :
  quiet m -> (forall a, quiet (f a)) -> quiet (m ≫= f).
Proof.
  intros Hm Hf s. rewrite bind_run.
  destruct (Hf (m s).1 (m s).2) as (-> & -> & ->). apply Hm.
Qed.

Lemma quiet_forEach {A} (l : list A) (body : A -> M W unit) :
  (forall a, quiet (body a)) -> quiet (forEach l body).
Proof.
  intros Hb. induction l as [|a l IH]; simpl.
  - apply quiet_ret.
  - apply quiet_bind; auto.
Qed.

Lemma quiet_makeMap : quiet (W:=W) makeMap. Proof. by intros s. Qed.
Lemma quiet_mapIndex c c0 : quiet (W:=W) (mapIndex c c0). Proof. by intros s. Qed.
Lemma quiet_updMap r f : quiet (W:=W) (updMap r f). Proof. by intros s. Qed.
Lemma quiet_newBuffer : quiet (W:=W) newBuffer. Proof. by intros s. Qed.
Lemma quiet_readBuffer r : quiet (W:=W) (readBuffer r). Proof. by intros s. Qed.
Lemma quiet_Fprintln r x : quiet (W:=W) (Fprintln r x). Proof. by intros s. Qed.
Lemma quiet_allocSet e : quiet (W:=W) (allocSet e). Proof. by intros s. Qed.
Lemma quiet_derefSet r : quiet (W:=W) (derefSet r). Proof. by intros s. Qed.
Lemma quiet_updSet r f : quiet (W:=W) (updSet r f). Proof. by intros s. Qed.

Create HintDb quiet.
#[local] Hint Resolve quiet_ret quiet_makeMap quiet_mapIndex quiet_updMap
  quiet_newBuffer quiet_readBuffer quiet_Fprintln quiet_allocSet quiet_derefSet
  quiet_updSet : quiet.

Ltac quiet_tac :=
  repeat first
    [ apply quiet_bind; [|intros ?]
    | apply quiet_forEach; intros ?
    | match goal with |- quiet (match ?x with _ => _ end) => destruct x end
    | solve [auto with quiet] ].

Lemma quiet_stage c c0 i o : quiet (W:=W) (stage c c0 i o).
Proof. unfold stage. quiet_tac. Qed.

Lemma quiet_clear c : quiet (W:=W) (clear c).
Proof. unfold clear. quiet_tac. Qed.

Lemma quiet_inline_stageOne c0 d o x : quiet (W:=W) (Inline.stageOne c0 d o x).
Proof. unfold Inline.stageOne. pose proof quiet_stage. quiet_tac. Qed.

Lemma quiet_staged_stageOne d o x : quiet (W:=W) (Staged.stageOne d o x).
Proof. unfold Staged.stageOne, Staged.stage. quiet_tac. Qed.

(** ** [clear] *)

Lemma clear_bucket (c : changeSet) (s : State W) (c0 : string) :
  bucket (clear c s).2 (clear c s).1 c0 = [].
Proof.
  unfold clear, bucket. destruct (objs c) as [r|] eqn:E; simpl.
  - rewrite E, list_lookup_alter_eq. destruct (maps s !! r) as [m|]; simpl; [|done].
    rewrite lookup_fmap. by destruct (m !! c0).
  - rewrite lookup_app_r by lia. by rewrite Nat.sub_diag.
Qed.

Lemma inline_execute_clear c errs s :
  exists s1,
    (Inline.execute run TrimSpace c errs s).2 = (clear (kChangeSet c) s1).2 /\
    kChangeSet (Inline.execute run TrimSpace c errs s).1.1 = (clear (kChangeSet c) s1).1.
Proof.
  unfold Inline.execute. rewrite !bind_run. eexists. split; reflexivity.
Qed.

Lemma staged_execute_clear c errs s :
  exists s1,
    (Staged.execute run TrimSpace c errs s).2 = (clear (kChangeSet c) s1).2 /\
    kChangeSet (Staged.execute run TrimSpace c errs s).1.1 = (clear (kChangeSet c) s1).1.
Proof.
  unfold Staged.execute. rewrite !bind_run. eexists. split; reflexivity.
Qed.

(** C5. After [execute], in either version of the file and whatever the
    tool answered, the staged change set is empty: every bucket of
    [c.objs], [delete] and [apply] among them, holds no manifest. *)
Theorem execute_leaves_change_set_empty (c : Kubectl) (errs : SyncError)
    (s : State W) (c0 : string) :
  bucket (Inline.execute run TrimSpace c errs s).2
         (kChangeSet (Inline.execute run TrimSpace c errs s).1.1) c0 = [] /\
  bucket (Staged.execute run TrimSpace c errs s).2
         (kChangeSet (Staged.execute run TrimSpace c errs s).1.1) c0 = [].
Proof.
  split.
  - destruct (inline_execute_clear c errs s) as (s1 & -> & ->). apply clear_bucket.
  - destruct (staged_execute_clear c errs s) as (s1 & -> & ->). apply clear_bucket.
Qed.

(** ** What the first version does *)

Lemma doCommand_calls c r args s :
  calls (doCommand run TrimSpace c r args s).2 = calls s ++ [command c args r].
Proof.
  unfold doCommand, Run, Log, command. rewrite !bind_run. simpl.
  by destruct (run _ _).
Qed.

(** A set whose map is nil has nothing to fall back on. *)
Lemma inline_attempt_nil c set c0 errs s :
  objs (Inline.cs set) = None ->
  (Inline.attempt run TrimSpace c set c0 errs s).1 = errs /\
  calls (Inline.attempt run TrimSpace c set c0 errs s).2 =
    calls s ++ [command c (Inline.cmd set) (default "" (bufs s !! Inline.rw set))].
Proof.
  intros Hnil. unfold Inline.attempt. rewrite !bind_run.
  pose proof (doCommand_calls c (readBuffer (Inline.rw set) s).1 (Inline.cmd set)
                (readBuffer (Inline.rw set) s).2) as Hc.
  destruct (doCommand _ _ _ _ _ _) as [[e|] s1]; simpl in *.
  - unfold mapIndex, bucket. rewrite bind_run, Hnil. simpl. done.
  - done.
Qed.

Lemma inline_executeCmd_spec c errs c0 s :
  (Inline.executeCmd run TrimSpace c errs c0 s).1 = errs /\
  exists i1 i2,
    calls (Inline.executeCmd run TrimSpace c errs c0 s).2 = calls s ++ [i1; i2] /\
    inv_args i1 = connectArgs c ++ [c0; "--namespace"; "default"; "-f"; "-"] /\
    inv_args i2 = connectArgs c ++ [c0; "-f"; "-"].
Proof.
  unfold Inline.executeCmd. rewrite !bind_run.
  set (s1 := (newBuffer s).2). set (rD := (newBuffer s).1).
  set (s2 := (newBuffer s1).2). set (rO := (newBuffer s1).1).
  set (l := (mapIndex _ _ s2).1). set (s3 := (mapIndex _ _ s2).2).
  set (d := Inline.Build_executeSet rD _ _). set (o := Inline.Build_executeSet rO _ _).
  set (s4 := (forEach l (Inline.stageOne c0 d o) s3).2).
  assert (Hq : calls s4 = calls s).
  { subst s4. destruct (quiet_forEach l _ (quiet_inline_stageOne c0 d o) s3) as (_ & -> & _).
    done. }
  destruct (inline_attempt_nil c d c0 errs s4 eq_refl) as [E1 C1].
  rewrite E1.
  destruct (inline_attempt_nil c o c0 errs (Inline.attempt run TrimSpace c d c0 errs s4).2 eq_refl)
    as [E2 C2].
  split; [done|]. eexists _, _. split.
  - rewrite C2, C1, Hq, <- app_assoc. done.
  - done.
Qed.

(** Whatever is staged and whatever the tool answers, the first version
    runs the tool exactly four times, twice for each of [delete] and
    [apply], and hands the error map back as it got it. *)
Lemma inline_execute_spec c errs s :
  (Inline.execute run TrimSpace c errs s).1.2 = errs /\
  exists i1 i2 i3 i4,
    calls (Inline.execute run TrimSpace c errs s).2 = calls s ++ [i1; i2; i3; i4] /\
    inv_args i1 = connectArgs c ++ ["delete"; "--namespace"; "default"; "-f"; "-"] /\
    inv_args i2 = connectArgs c ++ ["delete"; "-f"; "-"] /\
    inv_args i3 = connectArgs c ++ ["apply"; "--namespace"; "default"; "-f"; "-"] /\
    inv_args i4 = connectArgs c ++ ["apply"; "-f"; "-"].
Proof.
  unfold Inline.execute, cmds. rewrite bind_run, !foldM_cons. simpl foldM.
  destruct (inline_executeCmd_spec c errs "delete" s) as (E1 & i1 & i2 & C1 & A1 & A2).
  rewrite E1.
  destruct (inline_executeCmd_spec c errs "apply"
              (Inline.executeCmd run TrimSpace c errs "delete" s).2)
    as (E2 & i3 & i4 & C2 & A3 & A4).
  unfold mret at 1, M_ret at 1. simpl. rewrite E2.
  rewrite bind_run. simpl.
  split; [done|]. exists i1, i2, i3, i4. rewrite bind_run. simpl.
  destruct (quiet_clear (kChangeSet c) (Inline.executeCmd run TrimSpace c errs "apply"
              (Inline.executeCmd run TrimSpace c errs "delete" s).2).2) as (_ & -> & _).
  rewrite C2, C1, <- app_assoc. done.
Qed.

(** ** The second version and the specification *)

Lemma sim_refl (s : State W) : sim s s.
Proof. done. Qed.

Lemma sameHeap_trans (s t u : State W) : sameHeap s t -> sameHeap t u -> sameHeap s u.
Proof. unfold sameHeap. intros (-> & -> & ->) (-> & -> & ->). done. Qed.

Lemma quiet_sim {A} (m : M W A) s t : quiet (W:=W) m -> sim s t -> sim (m s).2 t.
Proof. intros Hq (H1 & H2 & H3). unfold sim. destruct (Hq s) as (-> & -> & ->). done. Qed.

Lemma doCommand_sim c r args s t :
  sim s t ->
  (doCommand run TrimSpace c r args s).1 = (doCommand run TrimSpace c r args t).1 /\
  sim (doCommand run TrimSpace c r args s).2 (doCommand run TrimSpace c r args t).2.
Proof.
  intros (Hw & Hc & Hl). unfold doCommand, Run, Log. rewrite !bind_run. simpl.
  rewrite Hw. destruct (run _ (world t)) as [res w']. simpl.
  unfold sim. simpl. by rewrite Hc, Hl.
Qed.

Lemma doCommand_heap c r args s :
  sameHeap (doCommand run TrimSpace c r args s).2 s.
Proof.
  unfold doCommand, Run, Log. rewrite !bind_run. simpl.
  by destruct (run _ _).
Qed.

Lemma oneByOne_sim c cmd l errs s t :
  sim s t ->
  (oneByOne run TrimSpace c cmd l errs s).1 = (oneByOne run TrimSpace c cmd l errs t).1 /\
  sim (oneByOne run TrimSpace c cmd l errs s).2 (oneByOne run TrimSpace c cmd l errs t).2.
Proof.
  revert errs s t. induction l as [|o l IH]; intros errs s t Hs; simpl.
  - done.
  - rewrite !bind_run.
    destruct (doCommand_sim c (bytes (api o)) cmd s t Hs) as [-> Hs'].
    by apply IH.
Qed.

Lemma oneByOne_heap c cmd l errs s :
  sameHeap (oneByOne run TrimSpace c cmd l errs s).2 s.
Proof.
  revert errs s. induction l as [|o l IH]; intros errs s; simpl.
  - done.
  - rewrite !bind_run.
    eapply sameHeap_trans; [apply IH | apply doCommand_heap].
Qed.

Lemma subBatch_heap c cmd l errs s :
  sameHeap (subBatch run TrimSpace c cmd l errs s).2 s.
Proof.
  unfold subBatch. destruct l as [|o l]; [done|]. rewrite bind_run.
  pose proof (doCommand_heap c (stream (o :: l)) cmd s) as Hh.
  destruct (doCommand _ _ _ _ _ s) as [[e|] s1]; cbn [fst snd] in *; [|done].
  eapply sameHeap_trans; [apply oneByOne_heap | done].
Qed.

Lemma derefSet_Some r e (s : State W) : sets s !! r = Some e -> derefSet r s = (e, s).
Proof. intros H. unfold derefSet. by rewrite H. Qed.

Lemma readBuffer_Some r x (s : State W) : bufs s !! r = Some x -> readBuffer r s = (x, s).
Proof. intros H. unfold readBuffer. by rewrite H. Qed.

(** [exec] on a staged set is the sub-batch of the specification. *)
Lemma staged_exec_subBatch c r c0 errs s t e :
  sets s !! r = Some e ->
  bufs s !! es_rw e = Some (stream (es_objs e)) ->
  sim s t ->
  (Staged.exec run TrimSpace c r c0 errs s).1 =
    (subBatch run TrimSpace c (es_cmd e) (es_objs e) errs t).1 /\
  sim (Staged.exec run TrimSpace c r c0 errs s).2
      (subBatch run TrimSpace c (es_cmd e) (es_objs e) errs t).2 /\
  sameHeap (Staged.exec run TrimSpace c r c0 errs s).2 s.
Proof.
  intros Hr Hb Hs. unfold Staged.exec, subBatch. rewrite bind_run.
  rewrite (derefSet_Some r e s Hr). cbn [fst snd].
  destruct (es_objs e) as [|o l] eqn:El.
  - done.
  - destruct (decide (length (o :: l) = 0)) as [Hl|_]; [discriminate Hl|].
    rewrite !bind_run, (readBuffer_Some _ _ s Hb). cbn [fst snd].
    destruct (doCommand_sim c (stream (o :: l)) (es_cmd e) s t Hs) as [E Hs'].
    pose proof (doCommand_heap c (stream (o :: l)) (es_cmd e) s) as Hh.
    rewrite E.
    destruct (doCommand run TrimSpace c (stream (o :: l)) (es_cmd e) t) as [[x|] t1];
      destruct (doCommand run TrimSpace c (stream (o :: l)) (es_cmd e) s) as [y s1];
      cbn [fst snd] in *.
    + destruct (oneByOne_sim c (es_cmd e) (o :: l) errs s1 t1 Hs') as [E1 H1].
      split; [done|]. split; [done|].
      eapply sameHeap_trans; [apply oneByOne_heap | done].
    + done.
Qed.

Lemma stream_snoc l x :
  stream (l ++ [x]) = stream l +:+ (("---" +:+ LF +:+ bytes (api x)) +:+ LF).
Proof.
  induction l as [|y l IH].
  - cbn [app stream foldr]. change (stream []) with "". cbn [String.append].
    by rewrite !append_assoc, append_nil_r.
  - cbn [app]. change (stream (y :: l ++ [x]))
      with ("---" +:+ LF +:+ bytes (api y) +:+ LF +:+ stream (l ++ [x])).
    change (stream (y :: l)) with ("---" +:+ LF +:+ bytes (api y) +:+ LF +:+ stream l).
    rewrite IH. by rewrite !append_assoc.
Qed.

Lemma staged_stage_run r e x (s : State W) :
  sets s !! r = Some e ->
  (Staged.stage r x s).2 =
    {| world := world s; maps := maps s;
       bufs := alter (fun b => b +:+ ("---" +:+ LF +:+ bytes (api x)) +:+ LF) (es_rw e) (bufs s);
       sets := alter (appendObj x) r (sets s);
       calls := calls s; logs := logs s |}.
Proof.
  intros Hr. unfold Staged.stage. rewrite !bind_run.
  rewrite (derefSet_Some r (appendObj x e)).
  - reflexivity.
  - unfold updSet. cbn [snd sets]. rewrite list_lookup_alter_eq, Hr. reflexivity.
Qed.

Lemma staged_stageOne (s : State W) d o cd co bd bo ld lo x :
  d <> o -> bd <> bo ->
  staged s d o cd co bd bo ld lo ->
  staged (Staged.stageOne d o x s).2 d o cd co bd bo
    (ld ++ filter isDefault [x]) (lo ++ filter (fun y => negb (isDefault y)) [x]) /\
  maps (Staged.stageOne d o x s).2 = maps s.
Proof.
  intros Hdo Hb (Hd & Ho & Hbd & Hbo).
  unfold Staged.stageOne, isDefault.
  rewrite !filter_cons, !filter_nil.
  destruct (hasDefaultNamespace (api x)) eqn:E; cbn [negb].
  - rewrite decide_True by done. rewrite decide_False by (by intros []).
    rewrite (staged_stage_run d _ x s Hd). unfold staged. cbn [sets bufs maps es_rw].
    rewrite list_lookup_alter_eq, Hd, list_lookup_alter_ne, Ho by done.
    rewrite list_lookup_alter_eq, Hbd, list_lookup_alter_ne, Hbo by done.
    cbn. rewrite stream_snoc, app_nil_r. done.
  - rewrite decide_False by (by intros []). rewrite decide_True by done.
    rewrite (staged_stage_run o _ x s Ho). unfold staged. cbn [sets bufs maps es_rw].
    rewrite list_lookup_alter_eq, Ho, list_lookup_alter_ne, Hd by done.
    rewrite list_lookup_alter_eq, Hbo, list_lookup_alter_ne, Hbd by done.
    cbn. rewrite stream_snoc, app_nil_r. done.
Qed.

Lemma staged_forEach l : forall (s : State W) d o cd co bd bo ld lo,
  d <> o -> bd <> bo ->
  staged s d o cd co bd bo ld lo ->
  staged (forEach l (Staged.stageOne d o) s).2 d o cd co bd bo
    (ld ++ filter isDefault l) (lo ++ filter (fun y => negb (isDefault y)) l) /\
  maps (forEach l (Staged.stageOne d o) s).2 = maps s.
Proof.
  induction l as [|x l IH]; intros s d o cd co bd bo ld lo Hdo Hb Hs.
  - cbn [forEach]. rewrite !filter_nil, !app_nil_r. done.
  - cbn [forEach]. rewrite bind_run.
    destruct (staged_stageOne s d o cd co bd bo ld lo x Hdo Hb Hs) as [H1 M1].
    destruct (IH _ d o cd co bd bo _ _ Hdo Hb H1) as [H2 M2].
    rewrite M2, M1. split; [|done].
    replace (ld ++ filter isDefault (x :: l))
      with ((ld ++ filter isDefault [x]) ++ filter isDefault l)
      by (by rewrite <- app_assoc, <- filter_app).
    replace (lo ++ filter (fun y => negb (isDefault y)) (x :: l))
      with ((lo ++ filter (fun y => negb (isDefault y)) [x])
              ++ filter (fun y => negb (isDefault y)) l)
      by (by rewrite <- app_assoc, <- filter_app).
    done.
Qed.

Lemma newExecuteSet_run cmd (s : State W) :
  Staged.newExecuteSet cmd s =
    (length (sets s),
     {| world := world s; maps := maps s; bufs := bufs s ++ [""];
        sets := sets s ++ [ {| es_cmd := cmd; es_rw := length (bufs s); es_objs := [] |} ];
        calls := calls s; logs := logs s |}).
Proof. reflexivity. Qed.

Lemma lookup_snoc2_fst {A} (l : list A) a b : ((l ++ [a]) ++ [b]) !! length l = Some a.
Proof. rewrite <- app_assoc. by apply list_lookup_middle. Qed.

Lemma lookup_snoc2_snd {A} (l : list A) a b : ((l ++ [a]) ++ [b]) !! S (length l) = Some b.
Proof. apply list_lookup_middle. rewrite length_app. simpl. lia. Qed.

(** One command of the second version is one command of the
    specification. *)
Lemma staged_executeCmd_spec c errs c0 s t :
  sim s t ->
  (Staged.executeCmd run TrimSpace c errs c0 s).1 =
    (specCmd run TrimSpace c (bucket s (kChangeSet c)) errs c0 t).1 /\
  sim (Staged.executeCmd run TrimSpace c errs c0 s).2
      (specCmd run TrimSpace c (bucket s (kChangeSet c)) errs c0 t).2 /\
  maps (Staged.executeCmd run TrimSpace c errs c0 s).2 = maps s.
Proof.
  intros Hs. unfold Staged.executeCmd, specCmd.
  rewrite bind_run, newExecuteSet_run. cbn [fst snd].
  rewrite bind_run, newExecuteSet_run. cbn [fst snd sets bufs world maps calls logs].
  rewrite !length_app. cbn [length]. rewrite !Nat.add_1_r.
  rewrite !bind_run.
  change (mapIndex (kChangeSet c) c0 _).1 with (bucket s (kChangeSet c) c0).
  set (l := bucket s (kChangeSet c) c0).
  set (bd := length (bufs s)). set (d := length (sets s)).
  set (cd := [c0; "--namespace"; "default"]). set (co := [c0]).
  set (s2 := {| world := world s; maps := maps s; bufs := (bufs s ++ [""]) ++ [""];
                sets := (sets s ++ [ {| es_cmd := cd; es_rw := bd; es_objs := [] |} ])
                          ++ [ {| es_cmd := co; es_rw := S bd; es_objs := [] |} ];
                calls := calls s; logs := logs s |}).
  change (mapIndex (kChangeSet c) c0 _).2 with s2.
  assert (Hinit : staged s2 d (S d) cd co bd (S bd) [] []).
  { unfold staged, s2, d, bd. cbn [sets bufs].
    by rewrite !lookup_snoc2_fst, !lookup_snoc2_snd. }
  destruct (staged_forEach l s2 d (S d) cd co bd (S bd) [] [] ltac:(lia) ltac:(lia) Hinit)
    as [(Hd & Ho & Hbd & Hbo) Hm].
  cbn [app] in Hd, Ho, Hbd, Hbo.
  set (s3 := (forEach l (Staged.stageOne d (S d)) s2).2) in *.
  assert (Hs3 : sim s3 t).
  { apply quiet_sim; [|done]. apply quiet_forEach. intros a. apply quiet_staged_stageOne. }
  destruct (staged_exec_subBatch c d c0 errs s3 t _ Hd Hbd Hs3) as (E1 & S1 & H1).
  cbn [es_cmd es_objs] in E1, S1.
  destruct H1 as (Hm1 & Hb1 & Hs1).
  set (s4 := (Staged.exec run TrimSpace c d c0 errs s3).2) in *.
  assert (Ho4 : sets s4 !! S d = Some {| es_cmd := co; es_rw := S bd;
                  es_objs := filter (fun y => negb (isDefault y)) l |}) by (by rewrite Hs1).
  assert (Hbo4 : bufs s4 !! S bd = Some (stream (filter (fun y => negb (isDefault y)) l)))
    by (by rewrite Hb1).
  destruct (staged_exec_subBatch c (S d) c0 (Staged.exec run TrimSpace c d c0 errs s3).1
              s4 _ _ Ho4 Hbo4 S1) as (E2 & S2 & H2).
  cbn [es_cmd es_objs] in E2, S2. rewrite E1 in E2 at 2. rewrite E1 in S2 at 2.
  split; [exact E2|]. split; [exact S2|].
  destruct H2 as (-> & _ & _). rewrite Hm1. exact Hm.
Qed.

Lemma bucket_maps (s s' : State W) c : maps s' = maps s -> bucket s' c = bucket s c.
Proof. intros H. unfold bucket. by rewrite H. Qed.

(** The second version does what the specification says: the same runs of
    the tool in the same order with the same input, the same log, and the
    same error map. *)
Theorem staged_execute_refines_spec c errs s :
  (Staged.execute run TrimSpace c errs s).1.2 =
    (specExecute run TrimSpace c (bucket s (kChangeSet c)) errs s).1 /\
  sim (Staged.execute run TrimSpace c errs s).2
      (specExecute run TrimSpace c (bucket s (kChangeSet c)) errs s).2.
Proof.
  unfold Staged.execute, specExecute, cmds. rewrite !bind_run, !foldM_cons.
  cbn [foldM].
  destruct (staged_executeCmd_spec c errs "delete" s s (sim_refl s)) as (E1 & S1 & M1).
  destruct (staged_executeCmd_spec c
              (Staged.executeCmd run TrimSpace c errs "delete" s).1 "apply"
              (Staged.executeCmd run TrimSpace c errs "delete" s).2 _ S1) as (E2 & S2 & M2).
  rewrite (bucket_maps _ _ _ M1) in E2, S2. rewrite E1 in E2 at 2. rewrite E1 in S2 at 2.
  unfold mret, M_ret. cbn [fst snd].
  split; [exact E2|].
  apply quiet_sim; [|exact S2]. apply quiet_clear.
Qed.

(** ** The fallback loop *)

(** The loop runs the tool once for each manifest, in order, with that
    manifest alone on standard input. *)
Lemma oneByOne_calls c cmd l errs s :
  calls (oneByOne run TrimSpace c cmd l errs s).2 =
    calls s ++ map (fun o => command c cmd (bytes (api o))) l.
Proof.
  revert errs s. induction l as [|o l IH]; intros errs s.
  - cbn. by rewrite app_nil_r.
  - cbn [oneByOne map]. rewrite bind_run, IH, doCommand_calls, <- app_assoc. done.
Qed.

Lemma oneByOne_errs c cmd l errs s :
  (oneByOne run TrimSpace c cmd l errs s).1 =
    foldl record errs (zip l (individual run TrimSpace c cmd l s)).
Proof.
  revert errs s. induction l as [|o l IH]; intros errs s.
  - done.
  - cbn [oneByOne individual zip zip_with foldl]. rewrite bind_run, IH. done.
Qed.

(** An identifier none of whose manifests failed keeps the entry it had. *)
Lemma record_untouched k (ps : list (obj * option error)) errs :
  (forall o e, (o, Some e) ∈ ps -> id o <> k) ->
  foldl record errs ps !! k = errs !! k.
Proof.
  revert errs. induction ps as [|[o r] ps IH]; intros errs H; [done|].
  cbn [foldl]. rewrite IH.
  - unfold record. cbn [fst snd]. destruct r as [e|]; [|done].
    apply lookup_insert_ne. apply (H o e). left.
  - intros o' e' Hin. apply (H o' e'). by right.
Qed.

(** A manifest whose own run failed has an entry under its identifier. *)
Lemma record_failed (ps : list (obj * option error)) errs o e :
  (o, Some e) ∈ ps -> is_Some (foldl record errs ps !! id o).
Proof.
  revert errs. induction ps as [|[o' r] ps IH] using rev_ind; intros errs Hin.
  - by apply elem_of_nil in Hin.
  - rewrite foldl_app. cbn [foldl]. apply elem_of_app in Hin as [Hin|Hin].
    + unfold record at 1. cbn [fst snd]. destruct r as [e'|]; [|by apply IH].
      destruct (decide (id o' = id o)) as [->|Hne].
      * rewrite lookup_insert_eq. by eexists.
      * rewrite lookup_insert_ne by done. by apply IH.
    + apply list_elem_of_singleton in Hin. simplify_eq.
      unfold record. cbn [fst snd]. rewrite lookup_insert_eq. by eexists.
Qed.
End Facts.

(** ** The two versions on concrete change sets *)

Import Sync.Example.

(** C4. One [apply] manifest is staged and the cluster cannot be reached,
    so the bulk run fails.  The first version runs the tool four times, never
    with the manifest alone on standard input, and leaves the error map
    empty: its fallback loop ranges over the map of [defaultSet], which
    stays nil because [stage] filled a copy.  The second version runs the
    bulk attempt, then the manifest alone, and records its error. *)
Theorem inline_fallback_never_runs :
  let bulk := "---" +:+ LF +:+ bytes good1 +:+ LF in
  let first := (k ← stageOne; Inline.execute downRun toyTrim k ∅) s0 in
  let second := (k ← stageOne; Staged.execute downRun toyTrim k ∅) s0 in
  map_to_list first.1.2 = [] /\
  map inv_stdin (calls first.2) = [""; ""; bulk; ""] /\
  map_to_list second.1.2 =
    [("default:deployment/one", "running kubectl: connection refused")] /\
  map inv_stdin (calls second.2) = [bulk; bytes good1].
Proof. vm_compute. repeat split. Qed.

(** C6. Nothing is staged.  The first version still runs the tool for each
    of the four empty sub-batches, with nothing on standard input; the
    second version runs nothing. *)
Theorem inline_runs_tool_on_empty_batches :
  map (fun i => (inv_args i, inv_stdin i))
      (calls (Inline.execute toyRun toyTrim kubectl0 ∅ s0).2) =
    [ (["delete"; "--namespace"; "default"; "-f"; "-"], "");
      (["delete"; "-f"; "-"], "");
      (["apply"; "--namespace"; "default"; "-f"; "-"], "");
      (["apply"; "-f"; "-"], "") ] /\
  calls (Staged.execute toyRun toyTrim kubectl0 ∅ s0).2 = [].
Proof. vm_compute. repeat split. Qed.

(** C7. Three [apply] manifests are staged, the middle one malformed.  The
    two versions stage the same stream, but they do not run the tool the
    same way and do not fill the error map the same way: the first makes
    its four bulk runs and reports nothing, the second makes one bulk run
    and three single runs and reports the malformed manifest. *)
Theorem versions_differ_on_malformed_manifest :
  let bulk := stream [ {| id := "default:deployment/one"; api := good1 |};
                       {| id := "default:deployment/two"; api := bad2 |};
                       {| id := "default:deployment/three"; api := good3 |} ] in
  let first := (k ← stageThree; Inline.execute toyRun toyTrim k ∅) s0 in
  let second := (k ← stageThree; Staged.execute toyRun toyTrim k ∅) s0 in
  map (fun i => (inv_args i, inv_stdin i)) (calls first.2) =
    [ (["delete"; "--namespace"; "default"; "-f"; "-"], "");
      (["delete"; "-f"; "-"], "");
      (["apply"; "--namespace"; "default"; "-f"; "-"], bulk);
      (["apply"; "-f"; "-"], "") ] /\
  map (fun i => (inv_args i, inv_stdin i)) (calls second.2) =
    [ (["apply"; "--namespace"; "default"; "-f"; "-"], bulk);
      (["apply"; "--namespace"; "default"; "-f"; "-"], bytes good1);
      (["apply"; "--namespace"; "default"; "-f"; "-"], bytes bad2);
      (["apply"; "--namespace"; "default"; "-f"; "-"], bytes good3) ] /\
  map_to_list first.1.2 = [] /\
  map_to_list second.1.2 =
    [("default:deployment/two", "running kubectl: error: unable to decode")].
Proof. vm_compute. repeat split. Qed.

End SyncFacts.

(* ===================================================================== *)
(** * Properties of the release planner and executor                      *)
(* ===================================================================== *)

Module ReleaserFacts.

Import Releaser.

Section Facts.

Context {W : Type}.
Variable handle : forall X, Call X -> W -> X * W.
Variable ParseImageID : string -> string.
Variable Repository_ : string -> string.
Variable Components : string -> string * string.
Variable ParseServiceID : string -> result string.
Variable filepathJoin : string -> string -> string.
Variable repoPath : string.
Variable Sprintf : string -> list string -> string.
Variable ServiceSpecAll : string.
Variable ImageSpecLatest : string.
Variable ImageSpecNone : string.

Lemma bind_normal {A B} (m : M W A) (f : A -> M W B) s a s' :
  m s = (Normal a, s') -> (m ≫= f) s = f a s'.
Proof. intros H. unfold mbind, M_bind. by rewrite H. Qed.

Lemma bind_panic {A B} (m : M W A) (f : A -> M W B) s v s' :
  m s = (Panic v, s') -> (m ≫= f) s = (Panic v, s').
Proof. intros H. unfold mbind, M_bind. by rewrite H. Qed.

(** ** A plan under [PLAN] *)

(** The loop of [execute] under [PLAN]: it reports every description and
    calls nobody. *)
Lemma executeActions_plan (actions : list (ReleaseAction W)) : forall s,
  exists j t,
    executeActions Sprintf ReleaseKindPlan actions s =
      (Normal (actions, None),
       {| world := world s; job := j; rc := rc s; trace := trace s ++ t |}) /\
    Forall (fun e => isCall e = false) t /\
    reported t = map (describe Sprintf) actions /\
    Log j = Log (job s) ++ map (describe Sprintf) actions.
Proof.
  induction actions as [|a rest IH]; intros s.
  - exists (job s), []. cbn. rewrite !app_nil_r. by destruct s.
  - cbn [executeActions].
    set (j1 := {| Instance := Instance (job s); Spec := Spec (job s);
                  Status := describe Sprintf a;
                  Log := Log (job s) ++ [describe Sprintf a] |}).
    set (s1 := {| world := world s; job := j1; rc := rc s;
                  trace := (trace s ++ [UpdateJob j1])
                             ++ [HelperLog ["description"; Description a]] |}).
    destruct (IH s1) as (j & t & E & Hc & Hr & Hl).
    exists j, (UpdateJob j1 :: HelperLog ["description"; Description a] :: t).
    split; [|split; [|split]].
    + assert (Hrest : (executeActions Sprintf ReleaseKindPlan rest
                  ≫= λ '(rest', err), mret (a :: rest', err)) s1
               = (Normal (a :: rest, None),
                  {| world := world s; job := j; rc := rc s;
                     trace := trace s ++ UpdateJob j1
                                :: HelperLog ["description"; Description a] :: t |})).
      { erewrite bind_normal by exact E. cbn. by rewrite <- !app_assoc. }
      rewrite (bind_normal _ _ s tt
                 {| world := world s; job := j1; rc := rc s;
                    trace := trace s ++ [UpdateJob j1] |})
        by reflexivity.
      rewrite (bind_normal _ _ _ tt s1) by reflexivity.
      destruct (Do a) as [do|]; [|exact Hrest].
      destruct (decide (ReleaseKindPlan = ReleaseKindExecute)) as [Hk|_]; [discriminate Hk|].
      exact Hrest.
    + repeat constructor. exact Hc.
    + change (reported (UpdateJob j1 :: HelperLog ["description"; Description a] :: t))
        with (describe Sprintf a :: reported t). by rewrite Hr.
    + rewrite Hl. cbn. by rewrite <- app_assoc.
Qed.

(** C3. Under release-kind [PLAN], [execute] ends without error whatever the
    plan is, and has no side effect: the world of the collaborators is the
    one it started in, no collaborator is called at all (no clone, no
    write, no commit, no regrade; the releaser has no cache operation),
    the release context stays the fresh one, and no action's result is
    assigned.  The result sink still receives the description of every
    action, in order, formatted by [updateJob]. *)
Theorem plan_has_no_side_effect (actions : list (ReleaseAction W)) (s : State W) :
  exists j t,
    execute handle Sprintf actions ReleaseKindPlan s =
      (Normal (actions, None),
       {| world := world s; job := j; rc := NewReleaseContext;
          trace := trace s ++ t |}) /\
    Forall (fun e => isCall e = false) t /\
    reported t = map (describe Sprintf) actions /\
    Log j = Log (job s) ++ map (describe Sprintf) actions.
Proof.
  destruct (executeActions_plan actions
              {| world := world s; job := job s; rc := NewReleaseContext;
                 trace := trace s |}) as (j & t & E & H).
  exists j, t. split; [|exact H].
  unfold execute. erewrite bind_normal by reflexivity.
  unfold defer. cbn [world job rc trace] in E. unfold setRC. cbn [world job trace].
  rewrite E. reflexivity.
Qed.

(** ** The gate *)

Abbreviation Release := (Release handle ParseImageID Repository_ Components ParseServiceID
  filepathJoin repoPath Sprintf ServiceSpecAll ImageSpecLatest ImageSpecNone).

Lemma lift_semaphore {A} (m : M W A) (p : Process W) :
  semaphore (lift m p).2 = semaphore p.
Proof. unfold lift. by destruct (m (state p)). Qed.

Lemma inFlight_cons ph l (sh : Process W) :
  inFlight {| shared := sh; goroutines := ph :: l |} =
    weight ph + inFlight {| shared := sh; goroutines := l |}.
Proof.
  unfold inFlight, weight. cbn [goroutines]. rewrite filter_cons.
  destruct (decide (ph = InFlight)); done.
Qed.

Lemma inFlight_insert (sh sh' : Process W) l i x y :
  l !! i = Some x ->
  inFlight {| shared := sh'; goroutines := <[i := y]> l |} + weight x =
    inFlight {| shared := sh; goroutines := l |} + weight y.
Proof.
  revert i. induction l as [|a l IH]; intros i Hi; [done|].
  destruct i as [|i]; cbn in Hi.
  - simplify_eq. change (<[0:=y]> (x :: l)) with (y :: l). rewrite !inFlight_cons.
    unfold inFlight. cbn [goroutines]. lia.
  - change (<[S i:=y]> (a :: l)) with (a :: <[i:=y]> l). rewrite !inFlight_cons.
    specialize (IH i Hi). lia.
Qed.

(** The channel holds one value for each release in flight. *)
Lemma gate_invariant (init sys : System W) :
  idle init -> reachable init sys ->
  inFlight sys = semaphore (shared sys) /\ semaphore (shared sys) <= maxSimultaneousReleases.
Proof.
  intros [H0 H1] Hr. induction Hr as [|sys sys' Hr IH Hstep].
  - rewrite H0, H1. unfold maxSimultaneousReleases. lia.
  - destruct IH as [IH1 IH2].
    destruct Hstep as [sys i s' Hi Hs|sys i s' Hi Hs|sys i A m Hi|sys i s' Hi Hs|sys i Hi];
      destruct sys as [sh l]; cbn [shared goroutines] in *.
    + unfold trySend in Hs. destruct (decide _) as [Hlt|]; [|discriminate]. injection Hs as <-.
      pose proof (inFlight_insert sh
        {| semaphore := S (semaphore sh); state := state sh |} l i Waiting InFlight Hi) as Hc.
      change (weight Waiting) with 0 in Hc. change (weight InFlight) with 1 in Hc.
      cbn [semaphore]. unfold maxSimultaneousReleases in *. lia.
    + unfold trySend in Hs. destruct (decide _) as [|Hge]; [discriminate|]. injection Hs as <-.
      pose proof (inFlight_insert sh sh l i Waiting Finished Hi) as Hc.
      change (weight Waiting) with 0 in Hc. change (weight Finished) with 0 in Hc. lia.
    + rewrite lift_semaphore.
      change (inFlight {| shared := (lift m sh).2; goroutines := l |})
        with (inFlight {| shared := sh; goroutines := l |}). lia.
    + subst s'. unfold receive. cbn [semaphore].
      pose proof (inFlight_insert sh
        {| semaphore := pred (semaphore sh); state := state sh |} l i InFlight Finished Hi) as Hc.
      change (weight InFlight) with 1 in Hc. change (weight Finished) with 0 in Hc. lia.
    + pose proof (inFlight_insert sh sh l i Finished Waiting Hi) as Hc.
      change (weight Waiting) with 0 in Hc. change (weight Finished) with 0 in Hc. lia.
Qed.

(** C1. [Release] and the semaphore of capacity 1.  When the channel is
    full, that is when another release holds the slot, the call returns the
    error "a release is already in progress; please try again later" at
    once: nothing is planned, no action runs, nobody is called, the job is
    not touched, and the one event it leaves is the observation of its own
    duration.  Otherwise it takes the slot, and however the call ends (it
    returns nil, it returns an error, or an action body panics) the channel
    holds afterwards what it held before.  So among goroutines calling
    [Release] at most one is ever in flight. *)
Theorem Release_gate :
  (forall p : Process W,
     maxSimultaneousReleases <= semaphore p ->
     Release p =
       (Normal (Some alreadyInProgress),
        {| semaphore := semaphore p;
           state := {| world := world (state p); job := job (state p);
                       rc := rc (state p);
                       trace := trace (state p) ++
                         [Observe "ReleaseDuration"
                            ["release_type"; "unknown"; "release_kind";
                             SprintKind (Kind (Spec (job (state p))));
                             "success"; "false"]] |} |})) /\
  (forall (p : Process W) o p',
     semaphore p < maxSimultaneousReleases ->
     Release p = (o, p') -> semaphore p' = semaphore p) /\
  (forall init sys : System W,
     idle init -> reachable init sys -> inFlight sys <= 1).
Proof.
  split; [|split].
  - intros p Hfull. unfold Releaser.Release, trySend.
    destruct (decide (semaphore p < maxSimultaneousReleases)) as [Hlt|_]; [lia|].
    reflexivity.
  - intros p o p' Hfree. unfold Releaser.Release, trySend.
    destruct (decide (semaphore p < maxSimultaneousReleases)) as [_|Hge]; [|lia].
    destruct (lift _ _) as [o2 p2] eqn:E. intros H.
    assert (Hs : semaphore p2 = S (semaphore p)).
    { change p2 with (o2, p2).2. rewrite <- E. by rewrite lift_semaphore. }
    apply (f_equal snd) in H. cbn [snd] in H. subst p'.
    rewrite lift_semaphore. unfold receive. cbn [semaphore]. rewrite Hs. done.
  - intros init sys Hi Hr. destruct (gate_invariant init sys Hi Hr) as [-> H]. exact H.
Qed.

Lemma call_run {X} (c : Call X) (s : State W) x w :
  handle X c (world s) = (x, w) ->
  call handle c s =
    (Normal x, {| world := w; job := job s; rc := rc s; trace := trace s ++ [Called c] |}).
Proof. intros H. unfold call. by rewrite H. Qed.

(** ** The update action *)

Abbreviation update := (releaseActionUpdatePodController handle Components filepathJoin repoPath).

(** C2, as amended.  When the resource path is a directory and
    [kubernetes.FilesFor] answers with the matching files: with no file the
    action returns no error, but the result "no resource definition file
    found for <service>; skipping"; with more than one file it returns the
    error "multiple resource definition files found for <service>: ...";
    and unless there is exactly one file it writes no file and leaves the
    release context as it was. *)
Theorem update_manifest_by_file_count (service : string)
    (regrades : list containerRegrade) (s : State W) fi w1 files w2 :
  let resourcePath := filepathJoin (RepoPath (rc s)) repoPath in
  let r := runAction (update service regrades) s in
  handle _ (Stat resourcePath) (world s) = (Ok fi, w1) ->
  IsDir fi = true ->
  handle _ (FilesFor resourcePath (Components service).1 (Components service).2) w1
    = (Ok files, w2) ->
  (files = [] ->
     r.1 = Normal ("no resource definition file found for " +:+ service +:+ "; skipping",
                   None)) /\
  (1 < length files ->
     r.1 = Normal ("", Some ("multiple resource definition files found for "
                               +:+ service +:+ ": " +:+ Join files ", "))) /\
  (length files <> 1 ->
     rc r.2 = rc s /\ world r.2 = w2 /\
     exists t, trace r.2 = trace s ++ t /\ Forall (fun e => isWrite e = false) t).
Proof.
  intros resourcePath r Hstat Hdir Hfiles. subst r.
  unfold runAction, releaseActionUpdatePodController, action. cbn [Do].
  unfold observed.
  erewrite bind_normal by reflexivity.
  fold resourcePath.
  erewrite bind_normal by (apply call_run; exact Hstat).
  unfold notADirectory. rewrite Hdir. cbn [negb].
  destruct (Components service) as [namespace serviceName] eqn:EC. cbn [fst snd] in Hfiles.
  erewrite bind_normal by (apply call_run; exact Hfiles).
  cbv beta iota.
  destruct (decide (length files <= 0)) as [H0|H0].
  - cbn. split; [done|]. split; [intros; lia|]. intros _.
    split; [done|]. split; [done|]. eexists. split.
    + rewrite <- !app_assoc. reflexivity.
    + repeat constructor.
  - destruct (decide (1 < length files)) as [H1|H1].
    + cbn. split; [intros ->; cbn in H0; lia|]. split; [done|]. intros _.
      split; [done|]. split; [done|]. eexists. split.
      * rewrite <- !app_assoc. reflexivity.
      * repeat constructor.
    + split; [intros ->; cbn in H0; lia|]. split; [intros; lia|]. intros; lia.
Qed.
(** ** Container regrades *)

Abbreviation valid := (validRegrade Repository_).
Abbreviation validMap := (map_Forall (fun (_ : string) l => Forall valid l)).

Lemma newer_either a b : newer a b = a \/ newer a b = b.
Proof. unfold newer. destruct (_ <? _)%Z; auto. Qed.

Lemma foldl_newer_elem l : forall i, foldl newer i l ∈ i :: l.
Proof.
  induction l as [|x l IH]; intros i; cbn [foldl].
  - left.
  - destruct (newer_either i x) as [-> | ->].
    + specialize (IH i). apply elem_of_cons in IH as [-> | IH]; [left|right; by right].
    + right. apply IH.
Qed.

(** The latest image of a repository is one of its images. *)
Lemma LatestImage_elem r img : LatestImage r = Ok img -> img ∈ Images r.
Proof.
  unfold LatestImage. destruct (Images r) as [|i l]; [discriminate|].
  intros [= <-]. apply foldl_newer_elem.
Qed.

Lemma appendRegrade_valid m serviceID r :
  validMap m -> valid r -> validMap (appendRegrade m serviceID r).
Proof.
  intros Hm Hr. unfold appendRegrade. apply map_Forall_insert_2; [|done].
  apply Forall_app. split; [|by constructor].
  destruct (m !! serviceID) as [l|] eqn:E; cbn; [|constructor].
  by apply (Hm serviceID l).
Qed.

Lemma loopM_invariant {A B} (P : B -> Prop) (body : B -> A -> M W (Step B)) l :
  (forall acc x s acc' s', P acc -> body acc x s = (Normal (Next acc'), s') -> P acc') ->
  forall acc s acc' s',
    P acc -> loopM body acc l s = (Normal (Next acc'), s') -> P acc'.
Proof.
  intros Hbody. induction l as [|x l IH]; intros acc s acc' s' Hacc Hrun.
  - injection Hrun as <- _. exact Hacc.
  - cbn [loopM] in Hrun. unfold mbind, M_bind in Hrun.
    destruct (body acc x s) as [[[acc1|e]|v] s1] eqn:E; try discriminate.
    apply (IH acc1 s1 acc' s'); [|exact Hrun]. by apply (Hbody acc x s acc1 s1).
Qed.

Lemma oneContainer_valid target (acc : list (ReleaseAction W) * list containerRegrade) c :
  Forall valid acc.2 -> Forall valid (oneContainer ParseImageID Repository_ target acc c).2.
Proof.
  destruct acc as [res regrades]. unfold oneContainer. intros H.
  destruct (bool_decide (Repository_ _ = Repository_ target)) eqn:E1; cbn [negb]; [|done].
  destruct (bool_decide (ParseImageID (Image c) = target)) eqn:E2; [done|].
  cbn [snd]. apply Forall_app. split; [done|]. constructor; [|constructor].
  split; cbn [current Releaser.target].
  - by apply bool_decide_eq_true in E1.
  - by apply bool_decide_eq_false in E2.
Qed.

Lemma allForImageContainer_valid target serviceID
    (acc : list (ReleaseAction W) * gmap string (list containerRegrade)) c :
  validMap acc.2 ->
  validMap (allForImageContainer ParseImageID Repository_ target serviceID acc c).2.
Proof.
  destruct acc as [res m]. unfold allForImageContainer. intros H.
  destruct (bool_decide (Repository_ _ = Repository_ target)) eqn:E1; cbn [negb]; [|done].
  destruct (bool_decide (ParseImageID (Image c) = target)) eqn:E2; [done|].
  cbn [snd]. apply appendRegrade_valid; [done|].
  split; cbn [current Releaser.target].
  - by apply bool_decide_eq_true in E1.
  - by apply bool_decide_eq_false in E2.
Qed.

Lemma foldl_invariant {A B} (P : B -> Prop) (f : B -> A -> B) l :
  (forall acc x, P acc -> P (f acc x)) -> forall acc, P acc -> P (foldl f acc l).
Proof. intros Hf. induction l as [|x l IH]; intros acc H; cbn; auto. Qed.

Lemma oneToLatestContainer_differs acc c s acc' s' :
  Forall differs acc.2 ->
  oneToLatestContainer handle ParseImageID Repository_ acc c s = (Normal (Next acc'), s') ->
  Forall differs acc'.2.
Proof.
  destruct acc as [res regrades]. unfold oneToLatestContainer. intros H.
  unfold mbind, M_bind.
  destruct (call handle _ s) as [[[imageRepo|e]|v] s1] eqn:E; try discriminate.
  destruct (decide (length (Images imageRepo) <= 0)); [by intros [= <- _]|].
  destruct (LatestImage imageRepo) as [latestImage|e] eqn:EL; [|discriminate].
  destruct (bool_decide (_ = _)) eqn:E2; intros [= <- _]; [done|].
  cbn [snd]. apply Forall_app. split; [done|]. constructor; [|constructor].
  unfold differs. cbn [current Releaser.target]. by apply bool_decide_eq_false in E2.
Qed.

Lemma appendRegrade_differs m serviceID r :
  map_Forall (fun (_ : string) l => Forall differs l) m -> differs r ->
  map_Forall (fun (_ : string) l => Forall differs l) (appendRegrade m serviceID r).
Proof.
  intros Hm Hr. unfold appendRegrade. apply map_Forall_insert_2; [|done].
  apply Forall_app. split; [|by constructor].
  destruct (m !! serviceID) as [l|] eqn:E; cbn; [|constructor].
  by apply (Hm serviceID l).
Qed.

Lemma allToLatestContainer_differs serviceID acc c s acc' s' :
  map_Forall (fun (_ : string) l => Forall differs l) acc.2 ->
  allToLatestContainer handle ParseImageID Repository_ serviceID acc c s
    = (Normal (Next acc'), s') ->
  map_Forall (fun (_ : string) l => Forall differs l) acc'.2.
Proof.
  destruct acc as [res m]. unfold allToLatestContainer. intros H.
  unfold mbind, M_bind.
  destruct (call handle _ s) as [[[imageRepo|e]|v] s1] eqn:E; try discriminate.
  destruct (LatestImage imageRepo) as [latestImage|e] eqn:EL; [|discriminate].
  destruct (bool_decide (_ = _)) eqn:E2; intros [= <- _]; [done|].
  cbn [snd]. apply appendRegrade_differs; [done|].
  unfold differs. cbn [current Releaser.target]. by apply bool_decide_eq_false in E2.
Qed.

Section Latest.

Hypothesis honest : honestRegistry handle ParseImageID Repository_.

(** A request that was answered with a repository and a latest image gives
    a target in the repository of the current image. *)
Lemma latest_same_repository imageID (s s' : State W) imageRepo latestImage :
  call handle (RegistryGetRepository (Repository_ imageID)) s = (Normal (Ok imageRepo), s') ->
  LatestImage imageRepo = Ok latestImage ->
  Repository_ imageID = Repository_ (ParseImageID (ImageString latestImage)).
Proof.
  unfold call. destruct (handle _ _ (world s)) as [x w] eqn:E. intros [= -> _] HL.
  symmetry. eapply honest; [exact E|]. by apply LatestImage_elem.
Qed.

Lemma oneToLatestContainer_valid acc c s acc' s' :
  Forall valid acc.2 ->
  oneToLatestContainer handle ParseImageID Repository_ acc c s = (Normal (Next acc'), s') ->
  Forall valid acc'.2.
Proof.
  destruct acc as [res regrades]. unfold oneToLatestContainer. intros H.
  unfold mbind, M_bind.
  destruct (call handle _ s) as [[[imageRepo|e]|v] s1] eqn:E; try discriminate.
  destruct (decide (length (Images imageRepo) <= 0)); [by intros [= <- _]|].
  destruct (LatestImage imageRepo) as [latestImage|e] eqn:EL; [|discriminate].
  destruct (bool_decide (_ = _)) eqn:E2; intros [= <- _]; [done|].
  cbn [snd]. apply Forall_app. split; [done|]. constructor; [|constructor].
  split; cbn [current Releaser.target].
  - by eapply latest_same_repository.
  - by apply bool_decide_eq_false in E2.
Qed.

Lemma allToLatestContainer_valid serviceID acc c s acc' s' :
  validMap acc.2 ->
  allToLatestContainer handle ParseImageID Repository_ serviceID acc c s
    = (Normal (Next acc'), s') ->
  validMap acc'.2.
Proof.
  destruct acc as [res m]. unfold allToLatestContainer. intros H.
  unfold mbind, M_bind.
  destruct (call handle _ s) as [[[imageRepo|e]|v] s1] eqn:E; try discriminate.
  destruct (LatestImage imageRepo) as [latestImage|e] eqn:EL; [|discriminate].
  destruct (bool_decide (_ = _)) eqn:E2; intros [= <- _]; [done|].
  cbn [snd]. apply appendRegrade_valid; [done|].
  split; cbn [current Releaser.target].
  - by eapply latest_same_repository.
  - by apply bool_decide_eq_false in E2.
Qed.

End Latest.

(** C9, as amended.  Every container regrade that release-one and
    release-all-for-image construct has a current and a target image of the
    same repository, and the two differ: the loop tests both.  Every
    regrade the two to-latest modes construct has a target that differs
    from the current image; the target is the latest image the registry
    gave for the repository of the current image, so the two are of the
    same repository whenever the registry answers a request for a
    repository with images of that repository. *)
Theorem regrades_by_mode :
  (forall target containers (res : list (ReleaseAction W)),
     Forall valid (oneRegrades ParseImageID Repository_ target containers res).2) /\
  (forall target containerMap (res : list (ReleaseAction W)),
     validMap (allForImageRegrades ParseImageID Repository_ target containerMap res).2) /\
  (forall containers res s acc s',
     oneToLatestRegrades handle ParseImageID Repository_ containers res s
       = (Normal (Next acc), s') ->
     Forall differs acc.2 /\
     (honestRegistry handle ParseImageID Repository_ -> Forall valid acc.2)) /\
  (forall containerMap res s acc s',
     allToLatestRegrades handle ParseImageID Repository_ containerMap res s
       = (Normal (Next acc), s') ->
     map_Forall (fun (_ : string) l => Forall differs l) acc.2 /\
     (honestRegistry handle ParseImageID Repository_ -> validMap acc.2)).
Proof.
  split; [|split; [|split]].
  - intros target containers res. unfold oneRegrades.
    apply (foldl_invariant (fun acc => Forall valid acc.2)); [|constructor].
    intros acc c. apply oneContainer_valid.
  - intros target containerMap res. unfold allForImageRegrades.
    apply (foldl_invariant (fun acc => validMap acc.2)); [|apply map_Forall_empty].
    intros acc [serviceID containers] Hacc.
    apply (foldl_invariant (fun acc => validMap acc.2)); [|done].
    intros acc' c. apply allForImageContainer_valid.
  - intros containers res s acc s' Hrun. unfold oneToLatestRegrades in Hrun. split.
    + revert Hrun. apply (loopM_invariant (fun acc => Forall differs acc.2)); [|constructor].
      intros a c s1 a' s1'. by apply oneToLatestContainer_differs.
    + intros honest. revert Hrun.
      apply (loopM_invariant (fun acc => Forall valid acc.2)); [|constructor].
      intros a c s1 a' s1'. by apply oneToLatestContainer_valid.
  - intros containerMap res s acc s' Hrun. unfold allToLatestRegrades in Hrun. split.
    + revert Hrun.
      apply (loopM_invariant
               (fun acc => map_Forall (fun (_ : string) l => Forall differs l) acc.2));
        [|apply map_Forall_empty].
      intros a [serviceID containers] s1 a' s1' Ha.
      apply (loopM_invariant
               (fun acc => map_Forall (fun (_ : string) l => Forall differs l) acc.2));
        [|done].
      intros b c s2 b' s2'. by apply allToLatestContainer_differs.
    + intros honest. revert Hrun.
      apply (loopM_invariant (fun acc => validMap acc.2)); [|apply map_Forall_empty].
      intros a [serviceID containers] s1 a' s1' Ha.
      apply (loopM_invariant (fun acc => validMap acc.2)); [|done].
      intros b c s2 b' s2'. by apply allToLatestContainer_valid.
Qed.

End Facts.

(** ** The example deployment *)

Import Releaser.Example.

Lemma toy_registry_honest files regrade :
  honestRegistry (toyHandle files toyRegistry regrade) (fun s => s) beforeColon.
Proof.
  intros repository w r w' img H Hin. cbn in H. injection H as H _.
  unfold toyRegistry in H.
  destruct (bool_decide (repository = "quay.io/weaveworks/helloworld")) eqn:E1.
  - apply bool_decide_eq_true in E1. subst repository. cbn in H. injection H as <-.
    cbn in Hin. repeat (apply elem_of_cons in Hin as [-> | Hin]; [reflexivity|]).
    by apply elem_of_nil in Hin.
  - destruct (bool_decide (repository = "quay.io/weaveworks/sidecar")) eqn:E2;
      [|discriminate H].
    apply bool_decide_eq_true in E2. subst repository. cbn in H. injection H as <-.
    cbn in Hin. repeat (apply elem_of_cons in Hin as [-> | Hin]; [reflexivity|]).
    by apply elem_of_nil in Hin.
Qed.

(** The three ways a call that took the slot ends: it returns nil, it
    returns an error (here two files match the service), an action body
    panics (here the platform returns an error that is no
    [platform.RegradeError]).  The channel is empty again each time. *)
Example Release_returns_nil :
  let r := toyRelease ["helloworld.yaml"] toyRegistry None (p0 executeJob 0) in
  r.1 = Normal None /\ semaphore r.2 = 0.
Proof. vm_compute. repeat split. Qed.

Example Release_returns_error :
  let r := toyRelease ["a.yaml"; "b.yaml"] toyRegistry None (p0 executeJob 0) in
  r.1 = Normal (Some "multiple resource definition files found for default/helloworld: a.yaml, b.yaml")
  /\ semaphore r.2 = 0.
Proof. vm_compute. repeat split. Qed.

Example Release_panics :
  let r := toyRelease ["helloworld.yaml"] toyRegistry (Some (OtherError "timeout"))
             (p0 executeJob 0) in
  r.1 = Panic "interface conversion: error is not platform.RegradeError"
  /\ semaphore r.2 = 0.
Proof. vm_compute. repeat split. Qed.

Lemma Release_gate_witness :
  (toyRelease ["helloworld.yaml"] toyRegistry None (p0 executeJob 1)).1
    = Normal (Some alreadyInProgress) /\
  semaphore (toyRelease ["helloworld.yaml"] toyRegistry None (p0 executeJob 0)).2 = 0.
Proof.
  destruct (Release_gate (toyHandle ["helloworld.yaml"] toyRegistry None) (fun s => s)
              beforeColon toyComponents toyParseServiceID toyJoin "resources" toySprintf
              "<all>" "<all latest>" "<no updates>") as (Hfull & Hfree & _).
  split.
  - unfold toyRelease. rewrite (Hfull (p0 executeJob 1)); [reflexivity|].
    unfold maxSimultaneousReleases. simpl. lia.
  - eapply (Hfree (p0 executeJob 0)).
    + unfold maxSimultaneousReleases. simpl. lia.
    + apply surjective_pairing.
Defined.

(** C2 as the specification states it fails: with no matching file the
    update action returns a result and no error. *)
Lemma update_without_file_is_no_error :
  (runAction (toyUpdate []) (s0 executeJob)).1 =
    Normal ("no resource definition file found for default/helloworld; skipping", None) /\
  ~ returnsError (runAction (toyUpdate []) (s0 executeJob)).1.
Proof.
  assert (H : (runAction (toyUpdate []) (s0 executeJob)).1 =
    Normal ("no resource definition file found for default/helloworld; skipping", None))
    by (vm_compute; reflexivity).
  split; [exact H|]. rewrite H. intros (res & e & Heq). discriminate Heq.
Qed.

Lemma update_manifest_by_file_count_witness :
  (runAction (toyUpdate ["a.yaml"; "b.yaml"]) (s0 executeJob)).1 =
    Normal ("", Some "multiple resource definition files found for default/helloworld: a.yaml, b.yaml").
Proof.
  destruct (update_manifest_by_file_count
              (toyHandle ["a.yaml"; "b.yaml"] toyRegistry None) toyComponents toyJoin
              "resources" "default/helloworld"
              [ {| container := "goodbyeworld";
                   current := "quay.io/weaveworks/helloworld:master-a000001";
                   target := newImage |} ]
              (s0 executeJob) {| IsDir := true; Mode := 420 |} 0 ["a.yaml"; "b.yaml"] 0
              eq_refl eq_refl eq_refl) as (_ & Hmany & _).
  apply Hmany. simpl. lia.
Defined.

(** The regrades release-one-to-latest computes for [default/helloworld]
    with the registry [registry]. *)
Abbreviation toyLatest registry :=
  (oneToLatestRegrades (toyHandle [] registry None) (fun s => s) beforeColon
     [helloworld; sidecar] [] (s0 executeJob)).

Lemma regrades_by_mode_witness :
  match (toyLatest toyRegistry).1 with
  | Normal (Next acc) => acc.2 <> [] /\ Forall (validRegrade beforeColon) acc.2
  | _ => False
  end.
Proof.
  destruct (regrades_by_mode (toyHandle [] toyRegistry None) (fun s => s) beforeColon)
    as (_ & _ & Hlatest & _).
  specialize (Hlatest [helloworld; sidecar] [] (s0 executeJob)).
  destruct (toyLatest toyRegistry) as [[[acc|e]|v] s'] eqn:E.
  - cbn [fst]. split.
    + vm_compute in E. injection E as <- _. discriminate.
    + apply (Hlatest acc s' eq_refl). apply toy_registry_honest.
  - vm_compute in E. discriminate E.
  - vm_compute in E. discriminate E.
Defined.

(** C9 as the specification states it fails: when the registry answers the
    request for [quay.io/weaveworks/helloworld] with the image
    [docker.io/library/other:1], release-one-to-latest constructs a regrade
    from the one to the other, of two repositories. *)
Lemma stray_registry_gives_other_repository :
  exists res s',
    toyLatest strayRegistry =
      (Normal (Next (res,
         [ {| container := "goodbyeworld";
              current := "quay.io/weaveworks/helloworld:master-a000001";
              target := "docker.io/library/other:1" |};
           {| container := "sidecar";
              current := "quay.io/weaveworks/sidecar:master-a000002";
              target := "docker.io/library/other:1" |} ])), s') /\
  ~ validRegrade beforeColon
      {| container := "goodbyeworld";
         current := "quay.io/weaveworks/helloworld:master-a000001";
         target := "docker.io/library/other:1" |}.
Proof.
  eexists _, _. split.
  - vm_compute. reflexivity.
  - intros [Hrepo _]. vm_compute in Hrepo. discriminate Hrepo.
Qed.

End ReleaserFacts.

(* ===================================================================== *)
(** * Properties of the registry cache warmer                             *)
(* ===================================================================== *)

Module WarmerFacts.

Import Releaser (result, Ok, Err, Wrap).
Import Warmer.

(** [time.Until(expiry) > refreshWhenExpiryWithin] says that the entry
    expires more than five minutes from now; the saturation of [Sub] does
    not show. *)
Lemma Sub_gt_refresh (expiry now : Z) :
  (refreshWhenExpiryWithin <? Sub expiry now)%Z = true <->
  (now + refreshWhenExpiryWithin < expiry)%Z.
Proof.
  unfold Sub, refreshWhenExpiryWithin, Minute, maxDuration, minDuration.
  rewrite Z.ltb_lt.
  destruct (2 ^ 63 - 1 <? expiry - now)%Z eqn:E1.
  - apply Z.ltb_lt in E1. lia.
  - apply Z.ltb_ge in E1. destruct (expiry - now <? - 2 ^ 63)%Z eqn:E2.
    + apply Z.ltb_lt in E2. lia.
    + lia.
Qed.

Section Facts.

Context {W : Type}.
Variable handle : forall X, Call X -> W -> X * W.
Variable NewTagKey : string -> ImageID -> result string.
Variable NewManifestKey : string -> ImageID -> result string.
Variable MarshalTags : list string -> result string.
Variable MarshalImage : ImageInfo -> result string.

Abbreviation warm := (warm handle NewTagKey NewManifestKey MarshalTags MarshalImage).
Abbreviation warmWith := (warmWith handle NewTagKey NewManifestKey MarshalTags MarshalImage).
Abbreviation fanOut := (fanOut handle NewManifestKey MarshalImage).
Abbreviation fetchEach := (fetchEach handle NewManifestKey MarshalImage).
Abbreviation fetch := (fetch handle NewManifestKey MarshalImage).
Abbreviation examineAll := (examineAll handle NewManifestKey).
Abbreviation examine := (examine handle NewManifestKey).

Lemma warm_bind {A B} (m : M W A) (f : A -> M W B) s :
  (m ≫= f) s = f (m s).1 (m s).2.
Proof. unfold mbind, M_bind. by destruct (m s). Qed.

Lemma warm_call {X} (c : Call X) (s : State W) :
  call handle c s =
    ((handle X c (world s)).1,
     {| world := (handle X c (world s)).2; trace := trace s ++ [Called c] |}).
Proof. unfold call. by destruct (handle X c (world s)). Qed.

Lemma fetched_app (t u : list Event) : fetched (t ++ u) = fetched t ++ fetched u.
Proof. unfold fetched. apply omap_app. Qed.

Lemma examined_app (t u : list Event) : examined (t ++ u) = examined t ++ examined u.
Proof. unfold examined. apply omap_app. Qed.

Ltac run :=
  repeat (rewrite ?warm_bind, ?warm_call; unfold Log, mret, M_ret;
          cbn [fst snd world trace]).

(** ** When the tag list does not reach the cache *)

(** C10. The registry returned the tags, but the tag list could not be
    serialised, or its cache key could not be made, or writing it to the
    cache failed.  Then [warm] returns for that image: no expiration of a
    manifest entry is looked up and no manifest is fetched, whatever the
    tags are. *)
Theorem warm_stops_when_tag_list_not_stored (w : Warmer) (id : ImageID)
    (creds : string) (s : State W) client w1 tags w2 :
  handle _ (ClientFor (Host id) creds) (world s) = (Ok client, w1) ->
  handle _ (Tags client id) w1 = (Ok tags, w2) ->
  tagListNotStored handle NewTagKey MarshalTags (credsFor w (Host id)) id tags w2 ->
  (warm w id creds s).1 = Returned /\
  exists t, trace (warm w id creds s).2 = trace s ++ t /\
            examined t = [] /\ fetched t = [].
Proof.
  intros Hclient Htags Hfail.
  unfold Warmer.warm. rewrite warm_bind, warm_call, Hclient. cbn [fst snd].
  rewrite warm_bind. unfold Warmer.warmWith. rewrite warm_bind, warm_call.
  cbn [world trace]. rewrite Htags. cbn [fst snd].
  unfold tagListNotStored in Hfail.
  destruct (MarshalTags tags) as [val|e].
  - destruct (NewTagKey (credsFor w (Host id)) id) as [key|e].
    + destruct Hfail as [e He]. rewrite warm_bind, warm_call. cbn [world trace fst snd].
      rewrite He. run. split; [done|]. eexists. split.
      * rewrite <- !app_assoc. reflexivity.
      * done.
    + run. split; [done|]. eexists. split.
      * rewrite <- !app_assoc. reflexivity.
      * done.
  - run. split; [done|]. eexists. split.
    + rewrite <- !app_assoc. reflexivity.
    + done.
Qed.

(** ** The loop over the tags *)

Lemma examineAll_app username id acc l1 l2 (s : State W) :
  examineAll username id acc (l1 ++ l2) s =
    examineAll username id (examineAll username id acc l1 s).1 l2
      (examineAll username id acc l1 s).2.
Proof.
  revert acc s. induction l1 as [|x l1 IH]; intros acc s; [done|].
  cbn [app Warmer.examineAll]. rewrite !warm_bind. apply IH.
Qed.

(** What one tag does to the two lists: nothing, or the image of the tag is
    added to one of them. *)
Lemma examine_cases username id acc tag (s : State W) :
  let r := (examine username id acc tag s).1 in
  let i := WithNewTag id tag in
  r = acc \/ r = (acc.1 ++ [i], acc.2) \/ r = (acc.1, acc.2 ++ [i]).
Proof.
  destruct acc as [expiring missing]. unfold Warmer.examine. cbn zeta.
  destruct (NewManifestKey username (WithNewTag id tag)) as [key|e].
  - rewrite warm_bind, warm_call. cbn [fst snd].
    destruct (handle Expiration (GetExpiration key) (world s)).1 as [expiry| |e].
    + unfold Until. run. destruct (_ <? _)%Z; auto.
    + auto.
    + run. auto.
  - run. auto.
Qed.

Lemma examine_fetched username id acc tag (s : State W) :
  fetched (trace (examine username id acc tag s).2) = fetched (trace s).
Proof.
  destruct acc as [expiring missing]. unfold Warmer.examine. cbn zeta.
  destruct (NewManifestKey username (WithNewTag id tag)) as [key|e].
  - rewrite warm_bind, warm_call. cbn [fst snd].
    destruct (handle Expiration (GetExpiration key) (world s)).1 as [expiry| |e].
    + unfold Until. run. destruct (_ <? _)%Z; run;
        rewrite !fetched_app; cbn; by rewrite !app_nil_r.
    + run. rewrite !fetched_app. cbn. by rewrite !app_nil_r.
    + run. rewrite !fetched_app. cbn. by rewrite !app_nil_r.
  - run. rewrite !fetched_app. cbn. by rewrite !app_nil_r.
Qed.

Lemma examineAll_fetched username id acc tags (s : State W) :
  fetched (trace (examineAll username id acc tags s).2) = fetched (trace s).
Proof.
  revert acc s. induction tags as [|tag tags IH]; intros acc s; [done|].
  cbn [Warmer.examineAll]. rewrite warm_bind, IH. apply examine_fetched.
Qed.

(** The lists only grow. *)
Lemma examineAll_mono username id acc tags (s : State W) i :
  (i ∈ acc.1 -> i ∈ (examineAll username id acc tags s).1.1) /\
  (i ∈ acc.2 -> i ∈ (examineAll username id acc tags s).1.2).
Proof.
  revert acc s. induction tags as [|tag tags IH]; intros acc s; [done|].
  cbn [Warmer.examineAll]. rewrite warm_bind.
  destruct (IH (examine username id acc tag s).1 (examine username id acc tag s).2)
    as [IH1 IH2].
  cbv zeta in IH1, IH2.
  destruct (examine_cases username id acc tag s) as [E | [E | E]];
    cbv zeta in E; rewrite E in IH1, IH2 |- *; cbn [fst snd] in IH1, IH2; split; intros H;
    first [ by apply IH1 | by apply IH2
          | apply IH1; apply elem_of_app; by left
          | apply IH2; apply elem_of_app; by left ].
Qed.

(** What the lists hold beyond what they held comes from the tags. *)
Lemma examineAll_origin username id acc tags (s : State W) i :
  i ∈ (examineAll username id acc tags s).1.1 ++ (examineAll username id acc tags s).1.2 ->
  i ∈ acc.1 ++ acc.2 \/ exists tag, tag ∈ tags /\ i = WithNewTag id tag.
Proof.
  revert acc s. induction tags as [|tag tags IH]; intros acc s; [by left|].
  cbn [Warmer.examineAll]. rewrite warm_bind. intros H.
  apply IH in H as [H | (t & Ht & ->)].
  - destruct (examine_cases username id acc tag s) as [E | [E | E]];
      cbv zeta in E; rewrite E in H; cbn [fst snd] in H.
    + by left.
    + rewrite elem_of_app in H. destruct H as [H | H].
      * apply elem_of_app in H as [H | H].
        -- left. apply elem_of_app. by left.
        -- apply list_elem_of_singleton in H. right. exists tag. split; [left|done].
      * left. apply elem_of_app. by right.
    + rewrite elem_of_app in H. destruct H as [H | H].
      * left. apply elem_of_app. by left.
      * apply elem_of_app in H as [H | H].
        -- left. apply elem_of_app. by right.
        -- apply list_elem_of_singleton in H. right. exists tag. split; [left|done].
  - right. exists t. split; [by right|done].
Qed.

Lemma WithNewTag_inj id t1 t2 : WithNewTag id t1 = WithNewTag id t2 -> t1 = t2.
Proof. unfold WithNewTag. by intros [= ->]. Qed.

(** ** The fetches *)

Lemma fetch_fetched client username imageID (s : State W) :
  fetched (trace (fetch client username imageID s).2) = fetched (trace s) ++ [imageID].
Proof.
  unfold Warmer.fetch. rewrite warm_bind, warm_call. cbn [fst snd].
  destruct (handle (result ImageInfo) (Manifest client imageID) (world s)).1 as [img|e].
  - destruct (NewManifestKey username (ID img)) as [key|e].
    + destruct (MarshalImage img) as [val|e].
      * rewrite warm_bind, warm_call. cbn [fst snd world trace].
        destruct (handle (option error) (SetKey key val) _).1 as [e|]; run;
          rewrite !fetched_app; cbn; by rewrite ?app_nil_r.
      * run. rewrite !fetched_app. cbn. by rewrite ?app_nil_r.
    + run. rewrite !fetched_app. cbn. by rewrite ?app_nil_r.
  - destruct (worthLogging e); run; rewrite !fetched_app; cbn; by rewrite ?app_nil_r.
Qed.

(** A fetch is attempted for every image to update, once, in order. *)
Lemma fetchEach_fetched client username toUpdate n (s : State W) :
  fetched (trace (fetchEach client username toUpdate n s).2) =
    fetched (trace s) ++ toUpdate.
Proof.
  revert n s. induction toUpdate as [|i l IH]; intros n s.
  - cbn. by rewrite app_nil_r.
  - cbn [Warmer.fetchEach]. rewrite warm_bind, IH, fetch_fetched, <- app_assoc. done.
Qed.

(** ** One warm pass *)

(** With room for at least one token, the pass fetches what the loop put on
    the two lists, the missing images first. *)
Lemma warm_fetches_the_lists (w : Warmer) (id : ImageID) (creds : string)
    (s : State W) client w1 tags w2 val key w3 :
  handle _ (ClientFor (Host id) creds) (world s) = (Ok client, w1) ->
  handle _ (Tags client id) w1 = (Ok tags, w2) ->
  MarshalTags tags = Ok val ->
  NewTagKey (credsFor w (Host id)) id = Ok key ->
  handle _ (SetKey key val) w2 = (None, w3) ->
  (0 < Burst w)%Z ->
  let lists := (examineAll (credsFor w (Host id)) id ([], []) tags
                  (loopStart s w3 client creds id key val)).1 in
  (warm w id creds s).1 = Returned /\
  fetched (trace (warm w id creds s).2) = fetched (trace s) ++ lists.2 ++ lists.1.
Proof.
  intros Hclient Htags Hval Hkey Hset Hburst lists.
  unfold Warmer.warm. rewrite warm_bind, warm_call, Hclient. cbn [fst snd].
  rewrite warm_bind. unfold Warmer.warmWith. rewrite warm_bind, warm_call.
  cbn [world trace]. rewrite Htags. cbn [fst snd]. rewrite Hval, Hkey.
  rewrite warm_bind, warm_call. cbn [world trace]. rewrite Hset. cbn [fst snd].
  rewrite warm_bind.
  change {| world := w3; trace := _ |} with (loopStart s w3 client creds id key val).
  set (start := loopStart s w3 client creds id key val) in *.
  pose proof (examineAll_fetched (credsFor w (Host id)) id ([], []) tags start) as Hf.
  fold lists. destruct (examineAll _ _ _ _ start) as [[expiring missing] s4] eqn:E.
  subst lists. cbn [fst snd] in *.
  assert (Hstart : fetched (trace start) = fetched (trace s)).
  { unfold start, loopStart. cbn [trace]. rewrite !fetched_app. cbn. by rewrite !app_nil_r. }
  rewrite Hstart in Hf.
  destruct (decide (0 < length expiring + length missing)) as [Hsome|Hnone].
  - unfold Warmer.fanOut.
    assert (Hneg : (Burst w <? 0)%Z = false) by (apply Z.ltb_ge; lia).
    assert (Hzero : (Burst w =? 0)%Z = false) by (apply Z.eqb_neq; lia).
    run. rewrite Hneg, Hzero. cbn [andb]. run.
    split; [done|].
    rewrite !fetched_app, fetchEach_fetched. cbn [trace]. rewrite fetched_app, Hf.
    cbn. by rewrite !app_nil_r.
  - run. split; [done|]. rewrite fetched_app, Hf.
    destruct expiring; [|cbn in Hnone; lia]. destruct missing; [|cbn in Hnone; lia].
    cbn. by rewrite !app_nil_r.
Qed.

(** C8. One warm pass for an image, in which the client was made, the
    registry returned [tags], the tag list was written to the cache, and
    [Burst] leaves room for a fetch.  The pass attempts a fetch for exactly
    the images on its two lists, the missing ones first.  For every tag the
    registry returned, with [mkey] the cache key of its manifest, [answer]
    what the cache says about the key when the tag's turn comes, and [now]
    the clock at that moment: if the entry reads as not cached, the image is
    on the missing list, so a fetch is attempted for it; if it is cached
    and expires more than five minutes after now, the tag adds nothing to
    either list, and when the registry returned the tag once no fetch is
    attempted for it; if it is cached and expires at most five minutes after
    now, the image is on the expiring list, so a fetch is attempted for
    it. *)
Theorem warm_classifies_every_tag (w : Warmer) (id : ImageID) (creds : string)
    (s : State W) client w1 tags w2 val key w3 :
  handle _ (ClientFor (Host id) creds) (world s) = (Ok client, w1) ->
  handle _ (Tags client id) w1 = (Ok tags, w2) ->
  MarshalTags tags = Ok val ->
  NewTagKey (credsFor w (Host id)) id = Ok key ->
  handle _ (SetKey key val) w2 = (None, w3) ->
  (0 < Burst w)%Z ->
  let username := credsFor w (Host id) in
  let start := loopStart s w3 client creds id key val in
  exists expiring missing,
    (examineAll username id ([], []) tags start).1 = (expiring, missing) /\
    fetched (trace (warm w id creds s).2) = fetched (trace s) ++ missing ++ expiring /\
    forall pre tag post mkey,
      tags = pre ++ tag :: post ->
      NewManifestKey username (WithNewTag id tag) = Ok mkey ->
      let i := WithNewTag id tag in
      let before := examineAll username id ([], []) pre start in
      let answer := handle _ (GetExpiration mkey) (world before.2) in
      match answer.1 with
      | ErrNotCached => i ∈ missing
      | Expires expiry =>
          let now := (handle _ Now answer.2).1 in
          if decide (now + refreshWhenExpiryWithin < expiry)%Z
          then (examineAll username id ([], []) (pre ++ [tag]) start).1 = before.1 /\
               (tag ∉ pre -> tag ∉ post -> i ∉ missing ++ expiring)
          else i ∈ expiring
      | ErrOther _ => True
      end.
Proof.
  intros Hclient Htags Hval Hkey Hset Hburst username start.
  destruct (warm_fetches_the_lists w id creds s client w1 tags w2 val key w3
              Hclient Htags Hval Hkey Hset Hburst) as [_ Hfetched].
  fold username start in Hfetched.
  destruct (examineAll username id ([], []) tags start).1 as [expiring missing] eqn:Elists.
  exists expiring, missing. split; [done|]. split; [exact Hfetched|].
  intros pre tag post mkey -> Hmkey i before answer. subst before answer. cbn zeta.
  rewrite examineAll_app in Elists.
  assert (Hone : (examineAll username id ([], []) (pre ++ [tag]) start).1 =
            (examine username id (examineAll username id ([], []) pre start).1 tag
               (examineAll username id ([], []) pre start).2).1).
  { rewrite examineAll_app. cbn [Warmer.examineAll]. by rewrite warm_bind. }
  assert (Hpre : forall j, j ∈ (examineAll username id ([], []) pre start).1.1
                         ++ (examineAll username id ([], []) pre start).1.2 ->
                 exists t, t ∈ pre /\ j = WithNewTag id t).
  { intros j Hj. apply examineAll_origin in Hj as [Hnil | Hj]; [|done].
    cbn in Hnil. by apply elem_of_nil in Hnil. }
  destruct (examineAll username id ([], []) pre start) as [[exp0 mis0] sk].
  cbn [fst snd] in *.
  cbn [Warmer.examineAll] in Elists. rewrite warm_bind in Elists.
  remember (Warmer.examine handle NewManifestKey username id (exp0, mis0) tag sk)
    as r eqn:Hstep.
  pose proof (examineAll_mono username id r.1 post r.2 i) as [Mono1 Mono2].
  pose proof (examineAll_origin username id r.1 post r.2 i) as Horigin.
  rewrite Elists in Mono1, Mono2, Horigin. cbn [fst snd] in Mono1, Mono2, Horigin.
  unfold Warmer.examine in Hstep. cbn zeta in Hstep.
  rewrite Hmkey, warm_bind, warm_call in Hstep. cbn [fst snd] in Hstep.
  destruct (handle Expiration (GetExpiration mkey) (world sk)) as [ans wk].
  cbn [fst snd] in *.
  destruct ans as [expiry| |e]; [| |done].
  - unfold Until in Hstep. rewrite !warm_bind, warm_call in Hstep.
    cbn [fst snd world trace] in Hstep. unfold mret, M_ret in Hstep.
    cbn [fst snd] in Hstep.
    destruct (decide ((handle Z Now wk).1 + refreshWhenExpiryWithin < expiry)%Z)
      as [Hlate|Hsoon].
    + apply Sub_gt_refresh in Hlate. rewrite Hlate in Hstep. subst r.
      cbn [fst snd] in *. split; [exact Hone|].
      intros Hnotpre Hnotpost Hin.
      destruct Horigin as [Hold | (t & Ht & Heq)].
      * apply elem_of_app in Hin as [Hin|Hin]; apply elem_of_app; auto.
      * destruct (Hpre i Hold) as (t & Ht & Heq).
        apply WithNewTag_inj in Heq. by subst t.
      * apply WithNewTag_inj in Heq. by subst t.
    + assert (Hfalse : (refreshWhenExpiryWithin <? Sub expiry (handle Z Now wk).1)%Z
                = false).
      { destruct (_ <? _)%Z eqn:E; [|done]. apply Sub_gt_refresh in E. lia. }
      rewrite Hfalse in Hstep. subst r. cbn [fst snd] in *.
      apply Mono1. apply elem_of_app. right. left.
  - unfold mret, M_ret in Hstep. subst r. cbn [fst snd] in *.
    apply Mono2. apply elem_of_app. right. left.
Qed.

End Facts.

(** ** The example registry and cache *)

Import Warmer.Example.

(** The pass of the example: [v1] is missing and [v3] is expiring, and both
    are fetched; [v2] is fresh and is not. *)
Example toy_pass :
  let r := toyWarm None 10 s0 in
  r.1 = Returned /\
  fetched (trace r.2) = [WithNewTag image "v1"; WithNewTag image "v3"] /\
  examined (trace r.2) = [keyOf "user" (WithNewTag image "v1");
                          keyOf "user" (WithNewTag image "v2");
                          keyOf "user" (WithNewTag image "v3")].
Proof. vm_compute. repeat split. Qed.

(** With [Burst] zero the channel has no buffer: the first send blocks, and
    nothing is fetched. *)
Example toy_pass_without_burst :
  let r := toyWarm None 0 s0 in
  r.1 = Blocked /\ fetched (trace r.2) = [].
Proof. vm_compute. repeat split. Qed.

Lemma warm_classifies_every_tag_witness :
  WithNewTag image "v1" ∈ fetched (trace (toyWarm None 10 s0).2) /\
  WithNewTag image "v3" ∈ fetched (trace (toyWarm None 10 s0).2).
Proof.
  destruct (warm_classifies_every_tag (toyHandle None) toyTagKey toyManifestKey
              toyMarshalTags toyMarshalImage (warmer 10) image "secret" s0
              7 [] ["v1"; "v2"; "v3"] [] "v1,v2,v3" "user|quay.io/weaveworks/helloworld"
              ["user|quay.io/weaveworks/helloworld"]
              eq_refl eq_refl eq_refl eq_refl eq_refl eq_refl)
    as (expiring & missing & _ & Hfetched & Htag).
  unfold toyWarm. rewrite Hfetched. split; apply elem_of_app; right; apply elem_of_app.
  - left.
    exact (Htag [] "v1" ["v2"; "v3"] (keyOf "user" (WithNewTag image "v1")) eq_refl eq_refl).
  - right.
    exact (Htag ["v1"; "v2"] "v3" [] (keyOf "user" (WithNewTag image "v3")) eq_refl eq_refl).
Defined.

Lemma warm_stops_when_tag_list_not_stored_witness :
  (toyWarm (Some "cache down") 10 s0).1 = Returned /\
  exists t, trace (toyWarm (Some "cache down") 10 s0).2 = trace s0 ++ t /\
            examined t = [] /\ fetched t = [].
Proof.
  apply (warm_stops_when_tag_list_not_stored (toyHandle (Some "cache down")) toyTagKey
           toyManifestKey toyMarshalTags toyMarshalImage (warmer 10) image "secret" s0
           7 [] ["v1"; "v2"; "v3"] []); [reflexivity | reflexivity |].
  exists "cache down". reflexivity.
Defined.

End WarmerFacts.

(* ===================================================================== *)
(** * Whole runs of the sync engine                                       *)
(* ===================================================================== *)

Module SyncMore.

Import Sync SyncRuns.

Section Runs.

Context {W : Type}.
Variable run : Invocation -> W -> RunResult * W.
Variable TrimSpace : string -> string.

(** ** One run of the tool *)

Lemma doCommand_run c r args s :
  let res := run (command c args r) (world s) in
  let err := if failed res.1
             then Some ("running kubectl: " +:+ TrimSpace (stderr res.1))
             else None in
  doCommand run TrimSpace c r args s =
    (err,
     {| world := res.2; maps := maps s; bufs := bufs s; sets := sets s;
        calls := calls s ++ [command c args r];
        logs := logs s ++ [ {| log_cmd := logLine args; log_err := err;
                               log_output := TrimSpace (stdout res.1) |} ] |}).
Proof.
  unfold doCommand, Run, Log, command, logLine. rewrite !SyncFacts.bind_run. cbn.
  by destruct (run _ _).
Qed.

Lemma ran_refl P Q (s : State W) : ran P Q s s.
Proof. exists [], []. by rewrite !app_nil_r. Qed.

Lemma ran_trans P Q (s t u : State W) : ran P Q s t -> ran P Q t u -> ran P Q s u.
Proof.
  intros (c1 & l1 & C1 & L1 & P1 & Q1 & N1) (c2 & l2 & C2 & L2 & P2 & Q2 & N2).
  exists (c1 ++ c2), (l1 ++ l2). rewrite C2, C1, L2, L1, <- !app_assoc.
  repeat split; try done.
  - by apply Forall_app.
  - by apply Forall_app.
  - rewrite !length_app. lia.
Qed.

Lemma ran_mono (P P' : Invocation -> Prop) (Q Q' : LogEntry -> Prop) (s t : State W) :
  (forall i, P i -> P' i) -> (forall e, Q e -> Q' e) -> ran P Q s t -> ran P' Q' s t.
Proof.
  intros HP HQ (c1 & l1 & C1 & L1 & P1 & Q1 & N1). exists c1, l1.
  repeat split; try done.
  - eapply Forall_impl; [exact P1 | exact HP].
  - eapply Forall_impl; [exact Q1 | exact HQ].
Qed.

Lemma ran_sim P Q (s s' t t' : State W) :
  sim s s' -> sim t t' -> ran P Q s' t' -> ran P Q s t.
Proof.
  intros (_ & C1 & L1) (_ & C2 & L2) (c & l & C & L & H). exists c, l.
  rewrite C1, C2, L1, L2. done.
Qed.

Lemma doCommand_ran c r cmd s :
  ran (runOf c cmd) (fun e => log_cmd e = logLine cmd) s
      (doCommand run TrimSpace c r cmd s).2.
Proof.
  rewrite doCommand_run. cbn [snd]. eexists [_], [_]. cbn [calls logs].
  repeat split; try done.
  - repeat constructor.
  - repeat constructor.
Qed.

Lemma oneByOne_ran c cmd l errs s :
  ran (runOf c cmd) (fun e => log_cmd e = logLine cmd) s
      (oneByOne run TrimSpace c cmd l errs s).2.
Proof.
  revert errs s. induction l as [|o l IH]; intros errs s.
  - apply ran_refl.
  - cbn [oneByOne]. rewrite SyncFacts.bind_run.
    eapply ran_trans; [apply doCommand_ran | apply IH].
Qed.

Lemma subBatch_ran c cmd l errs s :
  ran (runOf c cmd) (fun e => log_cmd e = logLine cmd) s
      (subBatch run TrimSpace c cmd l errs s).2.
Proof.
  unfold subBatch. destruct l as [|o l]; [apply ran_refl|].
  rewrite SyncFacts.bind_run.
  pose proof (doCommand_ran c (stream (o :: l)) cmd s) as H.
  destruct (doCommand _ _ _ _ _ s) as [[e|] s1]; cbn [fst snd] in *; [|done].
  eapply ran_trans; [exact H | apply oneByOne_ran].
Qed.

Lemma specCmd_ran c st errs c0 s :
  ran (runFor c c0) (logFor c0) s (specCmd run TrimSpace c st errs c0 s).2.
Proof.
  unfold specCmd. rewrite SyncFacts.bind_run.
  eapply ran_trans.
  - eapply ran_mono; [| |apply subBatch_ran].
    + intros i H. by left.
    + intros e H. by left.
  - eapply ran_mono; [| |apply subBatch_ran].
    + intros i H. by right.
    + intros e H. by right.
Qed.


Lemma specExecute_ran c st errs s :
  let s1 := (specCmd run TrimSpace c st errs "delete" s).2 in
  ran (runFor c "delete") (logFor "delete") s s1 /\
  ran (runFor c "apply") (logFor "apply") s1 (specExecute run TrimSpace c st errs s).2.
Proof.
  intros s1. split; [apply specCmd_ran|].
  unfold specExecute. rewrite SyncFacts.bind_run. apply specCmd_ran.
Qed.

Lemma staged_execute_ran c errs s :
  exists s1 : State W,
    ran (runFor c "delete") (logFor "delete") s s1 /\
    ran (runFor c "apply") (logFor "apply") s1 (Staged.execute run TrimSpace c errs s).2.
Proof.
  destruct (SyncFacts.staged_execute_refines_spec run TrimSpace c errs s) as [_ Hsim].
  destruct (specExecute_ran c (bucket s (kChangeSet c)) errs s) as [H1 H2].
  eexists. split; [exact H1|].
  eapply ran_sim; [apply SyncFacts.sim_refl | exact Hsim | exact H2].
Qed.

(** X1. The runs of [execute] (second version): every run of the tool is a
    run of the configured executable with the connection flags, then
    [delete] or [apply], with or without [--namespace default], then
    [-f -]; and every [delete] run comes before every [apply] run. *)
Theorem staged_execute_deletes_before_it_applies (c : Kubectl) (errs : SyncError)
    (s : State W) :
  exists dels apps,
    calls (Staged.execute run TrimSpace c errs s).2 = calls s ++ dels ++ apps /\
    Forall (runFor c "delete") dels /\ Forall (runFor c "apply") apps.
Proof.
  destruct (staged_execute_ran c errs s)
    as (s1 & (c1 & l1 & C1 & _ & P1 & _) & (c2 & l2 & C2 & _ & P2 & _)).
  exists c1, c2. rewrite C2, C1, <- app_assoc. done.
Qed.

(** X2. The log of [execute] (second version): one record for each run of
    the tool, and the command line of a record is one of four fixed texts.
    [doCommand] joins the arguments before [kubectlCommand] adds the
    connection flags, so the logged command line never shows the server,
    user name, password, certificate or token. *)
Theorem staged_execute_logs_no_connection_flag (c : Kubectl) (errs : SyncError)
    (s : State W) :
  exists newcalls newlogs,
    calls (Staged.execute run TrimSpace c errs s).2 = calls s ++ newcalls /\
    logs (Staged.execute run TrimSpace c errs s).2 = logs s ++ newlogs /\
    length newlogs = length newcalls /\
    Forall (fun e => log_cmd e ∈ [ "kubectl delete --namespace default -f -";
                                   "kubectl delete -f -";
                                   "kubectl apply --namespace default -f -";
                                   "kubectl apply -f -" ]) newlogs.
Proof.
  destruct (staged_execute_ran c errs s)
    as (s1 & (c1 & l1 & C1 & L1 & _ & Q1 & N1) & (c2 & l2 & C2 & L2 & _ & Q2 & N2)).
  exists (c1 ++ c2), (l1 ++ l2). rewrite C2, C1, L2, L1, <- !app_assoc.
  split; [done|]. split; [done|]. split; [rewrite !length_app; lia|].
  apply Forall_app. split.
  - eapply Forall_impl; [exact Q1|]. intros e [-> | ->]; set_solver.
  - eapply Forall_impl; [exact Q2|]. intros e [-> | ->]; set_solver.
Qed.


(** ** When the tool succeeds *)

Lemma subBatch_succeeds c cmd l errs s :
  (forall i w, failed (run i w).1 = false) ->
  (subBatch run TrimSpace c cmd l errs s).1 = errs /\
  calls (subBatch run TrimSpace c cmd l errs s).2 = calls s ++ bulk c cmd l.
Proof.
  intros Hok. unfold subBatch, bulk. destruct l as [|o l].
  - cbn. by rewrite app_nil_r.
  - rewrite SyncFacts.bind_run, doCommand_run. cbn [fst snd]. rewrite Hok. done.
Qed.

Lemma specCmd_succeeds c st errs c0 s :
  (forall i w, failed (run i w).1 = false) ->
  (specCmd run TrimSpace c st errs c0 s).1 = errs /\
  calls (specCmd run TrimSpace c st errs c0 s).2 =
    calls s ++ bulk c [c0; "--namespace"; "default"] (defaults (st c0))
            ++ bulk c [c0] (others (st c0)).
Proof.
  intros Hok. unfold specCmd. rewrite SyncFacts.bind_run.
  destruct (subBatch_succeeds c [c0; "--namespace"; "default"] (defaults (st c0)) errs s Hok)
    as [E1 C1].
  unfold defaults in E1, C1. rewrite E1.
  destruct (subBatch_succeeds c [c0] (others (st c0)) errs
              (subBatch run TrimSpace c [c0; "--namespace"; "default"]
                 (filter isDefault (st c0)) errs s).2 Hok) as [E2 C2].
  unfold others in E2, C2. rewrite E2, C2, C1, <- app_assoc. done.
Qed.

(** X3. When no run of the tool fails, [execute] (second version) makes one
    run for each sub-batch that is not empty and no other: [delete] in the
    default namespace, [delete] elsewhere, [apply] in the default
    namespace, [apply] elsewhere, each with the stream of its manifests on
    standard input.  No manifest is run alone, and the error map comes back
    as it was. *)
Theorem staged_execute_when_the_tool_succeeds (c : Kubectl) (errs : SyncError)
    (s : State W) :
  (forall i w, failed (run i w).1 = false) ->
  let staged := bucket s (kChangeSet c) in
  (Staged.execute run TrimSpace c errs s).1.2 = errs /\
  calls (Staged.execute run TrimSpace c errs s).2 =
    calls s ++ bulk c ["delete"; "--namespace"; "default"] (defaults (staged "delete"))
            ++ bulk c ["delete"] (others (staged "delete"))
            ++ bulk c ["apply"; "--namespace"; "default"] (defaults (staged "apply"))
            ++ bulk c ["apply"] (others (staged "apply")).
Proof.
  intros Hok staged.
  destruct (SyncFacts.staged_execute_refines_spec run TrimSpace c errs s)
    as [-> (_ & -> & _)].
  unfold specExecute. rewrite SyncFacts.bind_run.
  destruct (specCmd_succeeds c staged errs "delete" s Hok) as [E1 C1].
  fold staged. rewrite E1.
  destruct (specCmd_succeeds c staged errs "apply"
              (specCmd run TrimSpace c staged errs "delete" s).2 Hok) as [E2 C2].
  rewrite E2, C2, C1, <- !app_assoc. done.
Qed.

(** ** The error map *)

Lemma oneByOne_lookup_other c cmd l errs s k :
  (forall o, o ∈ l -> id o <> k) ->
  (oneByOne run TrimSpace c cmd l errs s).1 !! k = errs !! k.
Proof.
  revert errs s. induction l as [|o l IH]; intros errs s H; [done|].
  cbn [oneByOne]. rewrite SyncFacts.bind_run, IH.
  - destruct (doCommand _ _ _ _ _ s).1 as [e|]; [|done].
    apply lookup_insert_ne. apply H. left.
  - intros o' Ho'. apply H. by right.
Qed.

Lemma subBatch_lookup_other c cmd l errs s k :
  (forall o, o ∈ l -> id o <> k) ->
  (subBatch run TrimSpace c cmd l errs s).1 !! k = errs !! k.
Proof.
  intros H. unfold subBatch. destruct l as [|o l]; [done|].
  rewrite SyncFacts.bind_run.
  destruct (doCommand _ _ _ _ _ s) as [[e|] s1]; cbn [fst snd]; [|done].
  by apply oneByOne_lookup_other.
Qed.

Lemma specCmd_lookup_other c st errs c0 s k :
  (forall o, o ∈ st c0 -> id o <> k) ->
  (specCmd run TrimSpace c st errs c0 s).1 !! k = errs !! k.
Proof.
  intros H. unfold specCmd. rewrite SyncFacts.bind_run.
  rewrite subBatch_lookup_other.
  - apply subBatch_lookup_other. intros o Ho. apply H.
    by apply list_elem_of_filter in Ho as [_ Ho].
  - intros o Ho. apply H. by apply list_elem_of_filter in Ho as [_ Ho].
Qed.

(** X4. [execute] (second version) writes into the error map under the
    identifiers of staged manifests only: under any other key the map
    holds afterwards what it held before, an entry or none. *)
Theorem staged_execute_keeps_other_entries (c : Kubectl) (errs : SyncError)
    (s : State W) (k : string) :
  (forall o, o ∈ stagedFor s c -> id o <> k) ->
  (Staged.execute run TrimSpace c errs s).1.2 !! k = errs !! k.
Proof.
  intros H.
  destruct (SyncFacts.staged_execute_refines_spec run TrimSpace c errs s) as [-> _].
  unfold specExecute. rewrite SyncFacts.bind_run.
  rewrite specCmd_lookup_other.
  - apply specCmd_lookup_other. intros o Ho. apply H. apply elem_of_app. by left.
  - intros o Ho. apply H. apply elem_of_app. by right.
Qed.


(** ** When the cluster cannot be reached *)

Lemma doCommand_error c r cmd s e :
  (doCommand run TrimSpace c r cmd s).1 = Some e ->
  exists x, e = "running kubectl: " +:+ x.
Proof.
  rewrite doCommand_run. cbn [fst]. destruct (failed _); [|done].
  intros [= <-]. by eexists.
Qed.

Lemma oneByOne_keeps c cmd l errs s k :
  kubectlError errs k -> kubectlError (oneByOne run TrimSpace c cmd l errs s).1 k.
Proof.
  revert errs s. induction l as [|o l IH]; intros errs s H; [done|].
  cbn [oneByOne]. rewrite SyncFacts.bind_run. apply IH.
  destruct (doCommand _ _ _ _ _ s).1 as [e|] eqn:E; [|done].
  destruct (decide (id o = k)) as [<-|Hne].
  - destruct (doCommand_error _ _ _ _ _ E) as [x ->].
    exists x. apply lookup_insert_eq.
  - destruct H as [x Hx]. exists x. by rewrite lookup_insert_ne.
Qed.

Lemma oneByOne_down c cmd l errs s o :
  (forall i w, failed (run i w).1 = true) ->
  o ∈ l -> kubectlError (oneByOne run TrimSpace c cmd l errs s).1 (id o).
Proof.
  intros Hdown. revert errs s. induction l as [|o' l IH]; intros errs s Hin.
  - by apply elem_of_nil in Hin.
  - cbn [oneByOne]. rewrite SyncFacts.bind_run.
    apply elem_of_cons in Hin as [->|Hin]; [|by apply IH].
    apply oneByOne_keeps. rewrite doCommand_run. cbn [fst]. rewrite Hdown.
    eexists. apply lookup_insert_eq.
Qed.

Lemma subBatch_keeps c cmd l errs s k :
  kubectlError errs k -> kubectlError (subBatch run TrimSpace c cmd l errs s).1 k.
Proof.
  intros H. unfold subBatch. destruct l as [|o l]; [done|].
  rewrite SyncFacts.bind_run.
  destruct (doCommand _ _ _ _ _ s) as [[e|] s1]; cbn [fst snd]; [|done].
  by apply oneByOne_keeps.
Qed.

Lemma subBatch_down c cmd l errs s o :
  (forall i w, failed (run i w).1 = true) ->
  o ∈ l -> kubectlError (subBatch run TrimSpace c cmd l errs s).1 (id o).
Proof.
  intros Hdown Hin. unfold subBatch. destruct l as [|o' l]; [by apply elem_of_nil in Hin|].
  rewrite SyncFacts.bind_run, doCommand_run. cbn [fst snd]. rewrite Hdown.
  by apply oneByOne_down.
Qed.

Lemma specCmd_keeps c st errs c0 s k :
  kubectlError errs k -> kubectlError (specCmd run TrimSpace c st errs c0 s).1 k.
Proof.
  intros H. unfold specCmd. rewrite SyncFacts.bind_run.
  by apply subBatch_keeps, subBatch_keeps.
Qed.

Lemma specCmd_down c st errs c0 s o :
  (forall i w, failed (run i w).1 = true) ->
  o ∈ st c0 -> kubectlError (specCmd run TrimSpace c st errs c0 s).1 (id o).
Proof.
  intros Hdown Hin. unfold specCmd. rewrite SyncFacts.bind_run.
  destruct (isDefault o) eqn:E.
  - apply subBatch_keeps, subBatch_down; [done|].
    apply list_elem_of_filter. split; [by rewrite E | done].
  - apply subBatch_down; [done|].
    apply list_elem_of_filter. split; [by rewrite E | done].
Qed.

(** X5. When every run of the tool fails, as when the cluster cannot be
    reached, [execute] (second version) leaves an entry in the error map
    for every staged manifest, under its identifier, and the entry is an
    error of the tool: "running kubectl: ..." *)
Theorem staged_execute_reports_every_manifest (c : Kubectl) (errs : SyncError)
    (s : State W) (o : obj) :
  (forall i w, failed (run i w).1 = true) ->
  o ∈ stagedFor s c ->
  kubectlError (Staged.execute run TrimSpace c errs s).1.2 (id o).
Proof.
  intros Hdown Hin.
  destruct (SyncFacts.staged_execute_refines_spec run TrimSpace c errs s) as [-> _].
  unfold specExecute. rewrite SyncFacts.bind_run.
  apply elem_of_app in Hin as [Hin|Hin].
  - by apply specCmd_keeps, specCmd_down.
  - by apply specCmd_down.
Qed.

(** ** Staging *)

(** X6. [changeSet.stage] appends: the staged manifest is the last of the
    bucket of its command, behind those staged before, and the buckets of
    the other commands stay as they are.  This holds on a change set that
    was never staged into (its map is nil and [stage] makes one) and on one
    that was. *)
Theorem stage_appends_to_its_bucket (cs : changeSet) (c0 i : string) (o : apiObject)
    (s : State W) :
  allocated s cs ->
  let r := stage cs c0 i o s in
  bucket r.2 r.1 c0 = bucket s cs c0 ++ [ {| id := i; api := o |} ] /\
  forall c1, c1 <> c0 -> bucket r.2 r.1 c1 = bucket s cs c1.
Proof.
  intros Halloc. unfold stage, bucket. destruct (objs cs) as [r|] eqn:E.
  - destruct (lookup_lt_is_Some_2 (maps s) r (Halloc r E)) as [m Hm].
    rewrite !SyncFacts.bind_run. cbn. rewrite E. cbn.
    rewrite list_lookup_alter_eq, Hm. cbn. split.
    + rewrite lookup_insert_eq. cbn. unfold bucket. by rewrite E, Hm.
    + intros c1 Hne. by rewrite lookup_insert_ne.
  - rewrite !SyncFacts.bind_run. cbn.
    rewrite list_lookup_alter_eq, lookup_app_r, Nat.sub_diag by lia. cbn. split.
    + rewrite lookup_insert_eq. cbn. unfold bucket. cbn. by rewrite lookup_empty.
    + intros c1 Hne. by rewrite lookup_insert_ne.
Qed.


(** ** The first version *)

Lemma inline_stageOne_run c0 (d o : Inline.executeSet) x (s : State W) :
  objs (Inline.cs d) = None -> objs (Inline.cs o) = None ->
  let rw := Inline.rw (if negb (hasDefaultNamespace (api x)) then o else d) in
  bufs (Inline.stageOne c0 d o x s).2 =
    alter (fun b => b +:+ (("---" +:+ LF +:+ bytes (api x)) +:+ LF)) rw (bufs s) /\
  exists extra, maps (Inline.stageOne c0 d o x s).2 = maps s ++ extra.
Proof.
  intros Hd Ho. unfold Inline.stageOne, stage.
  destruct (negb (hasDefaultNamespace (api x))); cbn zeta;
    [rewrite Ho | rewrite Hd]; rewrite !SyncFacts.bind_run; cbn.
  - split.
    + rewrite list_alter_alter_eq. apply list_alter_ext; [|done]. intros b _.
      unfold compose. by rewrite !SyncFacts.append_assoc.
    + rewrite alter_app_r_alt by lia. by eexists.
  - split.
    + rewrite list_alter_alter_eq. apply list_alter_ext; [|done]. intros b _.
      unfold compose. by rewrite !SyncFacts.append_assoc.
    + rewrite alter_app_r_alt by lia. by eexists.
Qed.


Lemma inline_forEach c0 (d o : Inline.executeSet) l : forall (s : State W) ld lo,
  objs (Inline.cs d) = None -> objs (Inline.cs o) = None ->
  Inline.rw d <> Inline.rw o ->
  bufs s !! Inline.rw d = Some (stream ld) ->
  bufs s !! Inline.rw o = Some (stream lo) ->
  let s' := (forEach l (Inline.stageOne c0 d o) s).2 in
  bufs s' !! Inline.rw d = Some (stream (ld ++ defaults l)) /\
  bufs s' !! Inline.rw o = Some (stream (lo ++ others l)) /\
  exists extra, maps s' = maps s ++ extra.
Proof.
  induction l as [|x l IH]; intros s ld lo Hd Ho Hne Bd Bo.
  - cbn. rewrite !app_nil_r.
    split; [done|]. split; [done|]. exists []. by rewrite app_nil_r.
  - cbn [forEach]. rewrite SyncFacts.bind_run. cbn zeta.
    destruct (inline_stageOne_run c0 d o x s Hd Ho) as [Hb [extra Hm]].
    cbn zeta in Hb.
    set (s1 := (Inline.stageOne c0 d o x s).2) in *.
    unfold defaults, others, isDefault in *. rewrite !filter_cons.
    destruct (hasDefaultNamespace (api x)) eqn:E; cbn [negb] in Hb.
    + rewrite decide_True by done. rewrite decide_False by (by intros []).
      destruct (IH s1 (ld ++ [x]) lo Hd Ho Hne) as (H1 & H2 & extra' & H3).
      * rewrite Hb, list_lookup_alter_eq, Bd. cbn. by rewrite SyncFacts.stream_snoc.
      * rewrite Hb, list_lookup_alter_ne, Bo by done. done.
      * rewrite <- app_assoc in H1. split; [exact H1|]. split; [exact H2|].
        exists (extra ++ extra'). by rewrite H3, Hm, app_assoc.
    + rewrite decide_False by (by intros []). rewrite decide_True by done.
      destruct (IH s1 ld (lo ++ [x]) Hd Ho Hne) as (H1 & H2 & extra' & H3).
      * rewrite Hb, list_lookup_alter_ne, Bd by done. done.
      * rewrite Hb, list_lookup_alter_eq, Bo. cbn. by rewrite SyncFacts.stream_snoc.
      * rewrite <- app_assoc in H2. split; [exact H1|]. split; [exact H2|].
        exists (extra ++ extra'). by rewrite H3, Hm, app_assoc.
Qed.

Lemma inline_attempt_run c set c0 errs (s : State W) x :
  objs (Inline.cs set) = None ->
  bufs s !! Inline.rw set = Some x ->
  (Inline.attempt run TrimSpace c set c0 errs s).1 = errs /\
  calls (Inline.attempt run TrimSpace c set c0 errs s).2 =
    calls s ++ [command c (Inline.cmd set) x] /\
  sameHeap (Inline.attempt run TrimSpace c set c0 errs s).2 s.
Proof.
  intros Hnil Hb.
  destruct (SyncFacts.inline_attempt_nil run TrimSpace c set c0 errs s Hnil) as [E C].
  rewrite Hb in C. split; [exact E|]. split; [exact C|].
  unfold Inline.attempt. rewrite !SyncFacts.bind_run. cbn [readBuffer fst snd].
  pose proof (SyncFacts.doCommand_heap run TrimSpace c (default "" (bufs s !! Inline.rw set))
                (Inline.cmd set) s) as Hh.
  destruct (doCommand _ _ _ _ _ s) as [[e|] s1]; cbn [fst snd] in *; [|done].
  rewrite SyncFacts.bind_run. cbn [mapIndex fst snd].
  eapply SyncFacts.sameHeap_trans; [apply SyncFacts.oneByOne_heap | done].
Qed.

Lemma inline_executeCmd_run c errs c0 (s : State W) :
  let l := bucket s (kChangeSet c) c0 in
  let s' := (Inline.executeCmd run TrimSpace c errs c0 s).2 in
  (Inline.executeCmd run TrimSpace c errs c0 s).1 = errs /\
  calls s' = calls s ++ [ command c [c0; "--namespace"; "default"] (stream (defaults l));
                          command c [c0] (stream (others l)) ] /\
  exists extra, maps s' = maps s ++ extra.
Proof.
  intros l. unfold Inline.executeCmd. rewrite !SyncFacts.bind_run.
  cbn [newBuffer fst snd bufs]. rewrite !length_app. cbn [length]. rewrite Nat.add_1_r.
  set (bd := length (bufs s)).
  set (d := Inline.Build_executeSet bd _ _). set (o := Inline.Build_executeSet (S bd) _ _).
  change (mapIndex (kChangeSet c) c0 _).1 with l.
  set (s2 := (mapIndex (kChangeSet c) c0 _).2).
  destruct (inline_forEach c0 d o l s2 [] [] eq_refl eq_refl) as (Bd & Bo & extra & Hm).
  { cbn. lia. }
  { subst s2 bd. cbn. apply SyncFacts.lookup_snoc2_fst. }
  { subst s2 bd. cbn. apply SyncFacts.lookup_snoc2_snd. }
  cbn [app] in Bd, Bo.
  set (s3 := (forEach l (Inline.stageOne c0 d o) s2).2) in *.
  assert (Hq : calls s3 = calls s).
  { subst s3. destruct (SyncFacts.quiet_forEach l _ (SyncFacts.quiet_inline_stageOne c0 d o) s2)
      as (_ & -> & _). done. }
  destruct (inline_attempt_run c d c0 errs s3 _ eq_refl Bd) as (E1 & C1 & H1).
  rewrite E1.
  set (s4 := (Inline.attempt run TrimSpace c d c0 errs s3).2) in *.
  destruct H1 as (Hm4 & Hb4 & _).
  destruct (inline_attempt_run c o c0 errs s4 (stream (others l)) eq_refl) as (E2 & C2 & H2).
  { by rewrite Hb4. }
  split; [exact E2|]. split.
  - rewrite C2, C1, Hq, <- app_assoc. done.
  - exists extra. destruct H2 as (-> & _). by rewrite Hm4, Hm.
Qed.

Lemma bucket_extended (s s' : State W) cs c0 extra :
  allocated s cs -> maps s' = maps s ++ extra -> bucket s' cs c0 = bucket s cs c0.
Proof.
  intros Ha Hm. unfold bucket. destruct (objs cs) as [r|] eqn:E; [|done].
  by rewrite Hm, lookup_app_l by (by apply Ha).
Qed.

(** X7. [execute] of the first version ([cluster/kubernetes/release.go]),
    whatever is staged and whatever the tool answers: it runs the tool
    exactly four times, for the four sub-batches in the order [delete] in
    the default namespace, [delete] elsewhere, [apply] in the default
    namespace, [apply] elsewhere, each time with the stream of the
    sub-batch on standard input, which is empty for an empty sub-batch;
    it runs no manifest alone; and it hands the error map back as it got
    it. *)
Theorem inline_execute_makes_four_bulk_runs (c : Kubectl) (errs : SyncError)
    (s : State W) :
  allocated s (kChangeSet c) ->
  let staged := bucket s (kChangeSet c) in
  (Inline.execute run TrimSpace c errs s).1.2 = errs /\
  calls (Inline.execute run TrimSpace c errs s).2 =
    calls s ++
      [ command c ["delete"; "--namespace"; "default"] (stream (defaults (staged "delete")));
        command c ["delete"] (stream (others (staged "delete")));
        command c ["apply"; "--namespace"; "default"] (stream (defaults (staged "apply")));
        command c ["apply"] (stream (others (staged "apply"))) ].
Proof.
  intros Ha staged. unfold Inline.execute, cmds.
  rewrite SyncFacts.bind_run, !SyncFacts.foldM_cons. cbn [foldM].
  destruct (inline_executeCmd_run c errs "delete" s) as (E1 & C1 & extra & M1).
  rewrite E1.
  set (s1 := (Inline.executeCmd run TrimSpace c errs "delete" s).2) in *.
  destruct (inline_executeCmd_run c errs "apply" s1) as (E2 & C2 & _).
  rewrite (bucket_extended s s1 _ "apply" extra Ha M1) in C2.
  unfold mret at 1, M_ret at 1. cbn [fst snd]. rewrite E2.
  rewrite !SyncFacts.bind_run. cbn [fst snd].
  split; [done|].
  unfold mret, M_ret. cbn [fst snd].
  destruct (SyncFacts.quiet_clear (kChangeSet c)
              (Inline.executeCmd run TrimSpace c errs "apply" s1).2) as (_ & -> & _).
  rewrite C2, C1, <- app_assoc. done.
Qed.

End Runs.

(** ** The properties on the change set of the examples *)

Import Sync.Example SyncRuns.Example.

Lemma staged_execute_when_the_tool_succeeds_witness :
  (Staged.execute calmRun toyTrim threeStaged ∅ threeState).1.2 = ∅ /\
  length (calls (Staged.execute calmRun toyTrim threeStaged ∅ threeState).2) = 1.
Proof.
  destruct (staged_execute_when_the_tool_succeeds calmRun toyTrim threeStaged ∅ threeState)
    as [E C].
  - intros i w. reflexivity.
  - split; [exact E|]. rewrite C. reflexivity.
Defined.

Lemma staged_execute_keeps_other_entries_witness :
  (Staged.execute toyRun toyTrim threeStaged {[ "kube-system:daemonset/old" := "stale" ]}
     threeState).1.2 !! "kube-system:daemonset/old" = Some "stale".
Proof.
  rewrite (staged_execute_keeps_other_entries toyRun toyTrim threeStaged _ threeState
             "kube-system:daemonset/old").
  - reflexivity.
  - intros o Ho. apply list_elem_of_In in Ho. vm_compute in Ho.
    destruct Ho as [<-|[<-|[<-|[]]]]; discriminate.
Defined.

Lemma staged_execute_reports_every_manifest_witness :
  kubectlError (Staged.execute downRun toyTrim threeStaged ∅ threeState).1.2
    "default:deployment/three".
Proof.
  apply (staged_execute_reports_every_manifest downRun toyTrim threeStaged ∅ threeState
           {| id := "default:deployment/three"; api := good3 |}).
  - intros i w. reflexivity.
  - apply list_elem_of_In. vm_compute. right. right. left. reflexivity.
Defined.

Lemma stage_appends_to_its_bucket_witness :
  bucket (stage (kChangeSet threeStaged) "delete" "default:service/gone" good1 threeState).2
         (stage (kChangeSet threeStaged) "delete" "default:service/gone" good1 threeState).1
         "delete" = [ {| id := "default:service/gone"; api := good1 |} ] /\
  length (bucket
            (stage (kChangeSet threeStaged) "delete" "default:service/gone" good1 threeState).2
            (stage (kChangeSet threeStaged) "delete" "default:service/gone" good1 threeState).1
            "apply") = 3.
Proof.
  destruct (stage_appends_to_its_bucket (kChangeSet threeStaged) "delete"
              "default:service/gone" good1 threeState) as [H1 H2].
  - intros r [= <-]. vm_compute. lia.
  - cbv zeta in H1, H2. rewrite H1, (H2 "apply") by discriminate. split; reflexivity.
Defined.

Lemma inline_execute_makes_four_bulk_runs_witness :
  (Inline.execute downRun toyTrim threeStaged ∅ threeState).1.2 = ∅ /\
  length (calls (Inline.execute downRun toyTrim threeStaged ∅ threeState).2) = 4.
Proof.
  destruct (inline_execute_makes_four_bulk_runs downRun toyTrim threeStaged ∅ threeState)
    as [E C].
  - intros r [= <-]. vm_compute. lia.
  - split; [exact E|]. rewrite C. reflexivity.
Defined.

End SyncMore.

(* ===================================================================== *)
(** * Whole runs of the releaser                                          *)
(* ===================================================================== *)

Module ReleaserMore.

Import Releaser ReleaserRuns.

(** ** Excluded services *)

Lemma Add_elem (s : gset string) (ids : list string) (id : string) :
  id ∈ Add s ids <-> id ∈ s \/ id ∈ ids.
Proof.
  unfold Add. revert s. induction ids as [|x ids IH]; intros s; cbn [foldl].
  - rewrite elem_of_nil. tauto.
  - rewrite IH, elem_of_union, elem_of_singleton, elem_of_cons. tauto.
Qed.

(** X8. The set of excluded services and the list it filters.  After
    [Add], [Contains] answers true for exactly the identifiers that were in
    the set or are in the list added; and [Without] keeps, in their order
    and as often as they occur, exactly the identifiers the set does not
    contain. *)
Theorem Without_drops_exactly_the_excluded (s : gset string) (excl ids : list string) :
  (forall id, SetContains (Add s excl) id = true <-> id ∈ s \/ id ∈ excl) /\
  Without ids (Add s excl) = filter (fun id => (id ∉ s) /\ (id ∉ excl)) ids.
Proof.
  split.
  - intros id. unfold SetContains. rewrite bool_decide_eq_true. apply Add_elem.
  - induction ids as [|id ids IH]; [done|].
    cbn [Without]. rewrite filter_cons, IH. unfold SetContains.
    destruct (decide (id ∈ Add s excl)) as [Hin|Hout].
    + rewrite bool_decide_eq_true_2 by done. cbn [negb].
      rewrite decide_False; [done|]. apply Add_elem in Hin. tauto.
    + rewrite bool_decide_eq_false_2 by done. cbn [negb].
      rewrite decide_True; [done|]. rewrite Add_elem in Hout. tauto.
Qed.

Section Runs.

Context {W : Type}.
Variable handle : forall X, Call X -> W -> X * W.
Variable ParseImageID : string -> string.
Variable Repository_ : string -> string.
Variable Components : string -> string * string.
Variable ParseServiceID : string -> result string.
Variable filepathJoin : string -> string -> string.
Variable repoPath : string.
Variable Sprintf : string -> list string -> string.
Variable ServiceSpecAll : string.
Variable ImageSpecLatest : string.
Variable ImageSpecNone : string.

Abbreviation execute := (execute handle Sprintf).
Abbreviation executeActions := (executeActions Sprintf).
Abbreviation updateJob := (updateJob Sprintf).
Abbreviation call := (call handle).
Abbreviation Clean := (Clean handle).
Abbreviation finish := (finish handle Sprintf).
Abbreviation releaseOne :=
  (releaseOne handle ParseImageID Repository_ Components ParseServiceID filepathJoin
     repoPath Sprintf).
Abbreviation releaseOneToLatest :=
  (releaseOneToLatest handle ParseImageID Repository_ Components ParseServiceID
     filepathJoin repoPath Sprintf).
Abbreviation releaseAllToLatest :=
  (releaseAllToLatest handle ParseImageID Repository_ Components ParseServiceID
     filepathJoin repoPath Sprintf).
Abbreviation releaseAllForImage :=
  (releaseAllForImage handle ParseImageID Repository_ Components ParseServiceID
     filepathJoin repoPath Sprintf).
Abbreviation releaseOneWithoutUpdate :=
  (releaseOneWithoutUpdate handle Components ParseServiceID filepathJoin repoPath Sprintf).
Abbreviation releaseAllWithoutUpdate :=
  (releaseAllWithoutUpdate handle Components ParseServiceID filepathJoin repoPath Sprintf).

(** ** The first failing action ends the plan *)

Ltac norm H E :=
  rewrite (ReleaserFacts.bind_normal _ _ _ _ _ E) in H;
  rewrite (ReleaserFacts.bind_normal _ _ _ _ _ E).

Lemma executeActions_fails kind (actions rest : list (ReleaseAction W)) :
  forall s res e s',
    executeActions kind actions s = (Normal (res, Some e), s') ->
    executeActions kind (actions ++ rest) s = (Normal (res ++ rest, Some e), s').
Proof.
  induction actions as [|a actions IH]; intros s res e s' H; [discriminate H|].
  assert (Hrest : forall (f : ReleaseAction W) s3,
    (executeActions kind actions ≫= (fun '(rest', err) => mret (f :: rest', err))) s3
      = (Normal (res, Some e), s') ->
    (executeActions kind (actions ++ rest) ≫= (fun '(rest', err) => mret (f :: rest', err))) s3
      = (Normal (res ++ rest, Some e), s')).
  { intros f s3 H3.
    destruct (executeActions kind actions s3) as [[[rest' err]|v] s4] eqn:E.
    - rewrite (ReleaserFacts.bind_normal _ _ _ _ _ E) in H3. injection H3 as <- -> <-.
      by rewrite (ReleaserFacts.bind_normal _ _ _ _ _ (IH _ _ _ _ E)).
    - rewrite (ReleaserFacts.bind_panic _ _ _ _ _ E) in H3. discriminate H3. }
  cbn [app Releaser.executeActions] in H |- *.
  destruct (updateJob (Description a) [] s) as [[[]|v] s1] eqn:E1;
    [|rewrite (ReleaserFacts.bind_panic _ _ _ _ _ E1) in H; discriminate H].
  norm H E1.
  destruct (helperLog ["description"; Description a] s1) as [[[]|v] s2] eqn:E2;
    [|rewrite (ReleaserFacts.bind_panic _ _ _ _ _ E2) in H; discriminate H].
  norm H E2.
  destruct (Do a) as [do|]; [|by apply Hrest].
  destruct (decide (kind = ReleaseKindExecute)); [|by apply Hrest].
  destruct (do s2) as [[[result [e'|]]|v] s3] eqn:E3;
    [| |rewrite (ReleaserFacts.bind_panic _ _ _ _ _ E3) in H; discriminate H];
    norm H E3.
  - destruct (updateJob e' [] s3) as [[[]|v] s4] eqn:E4;
      [|rewrite (ReleaserFacts.bind_panic _ _ _ _ _ E4) in H; discriminate H].
    norm H E4.
    destruct (helperLog ["err"; e'] s4) as [[[]|v] s5] eqn:E5;
      [|rewrite (ReleaserFacts.bind_panic _ _ _ _ _ E5) in H; discriminate H].
    norm H E5.
    injection H as <- <- <-. done.
  - destruct ((if bool_decide (result = "") then mret () else updateJob result []) s3)
      as [[[]|v] s4] eqn:E4;
      [|rewrite (ReleaserFacts.bind_panic _ _ _ _ _ E4) in H; discriminate H].
    norm H E4.
    by apply Hrest.
Qed.

Lemma executeActions_panics kind (actions rest : list (ReleaseAction W)) :
  forall s v s',
    executeActions kind actions s = (Panic v, s') ->
    executeActions kind (actions ++ rest) s = (Panic v, s').
Proof.
  induction actions as [|a actions IH]; intros s v0 s' H; [discriminate H|].
  assert (Hrest : forall (f : ReleaseAction W) s3,
    (executeActions kind actions ≫= (fun '(rest', err) => mret (f :: rest', err))) s3
      = (Panic v0, s') ->
    (executeActions kind (actions ++ rest) ≫= (fun '(rest', err) => mret (f :: rest', err))) s3
      = (Panic v0, s')).
  { intros f s3 H3.
    destruct (executeActions kind actions s3) as [[[rest' err]|v] s4] eqn:E.
    - rewrite (ReleaserFacts.bind_normal _ _ _ _ _ E) in H3. discriminate H3.
    - rewrite (ReleaserFacts.bind_panic _ _ _ _ _ E) in H3. injection H3 as <- <-.
      by rewrite (ReleaserFacts.bind_panic _ _ _ _ _ (IH _ _ _ E)). }
  cbn [app Releaser.executeActions] in H |- *.
  destruct (updateJob (Description a) [] s) as [[[]|v] s1] eqn:E1; [|discriminate E1].
  norm H E1.
  destruct (helperLog ["description"; Description a] s1) as [[[]|v] s2] eqn:E2;
    [|discriminate E2].
  norm H E2.
  destruct (Do a) as [do|]; [|by apply Hrest].
  destruct (decide (kind = ReleaseKindExecute)); [|by apply Hrest].
  destruct (do s2) as [[[result [e'|]]|v] s3] eqn:E3.
  - norm H E3.
    destruct (updateJob e' [] s3) as [[[]|v] s4] eqn:E4; [|discriminate E4].
    norm H E4.
    destruct (helperLog ["err"; e'] s4) as [[[]|v] s5] eqn:E5; [|discriminate E5].
    norm H E5.
    discriminate H.
  - norm H E3.
    destruct ((if bool_decide (result = "") then mret () else updateJob result []) s3)
      as [[[]|v] s4] eqn:E4.
    + norm H E4. by apply Hrest.
    + destruct (bool_decide (result = "")); discriminate E4.
  - rewrite (ReleaserFacts.bind_panic _ _ _ _ _ E3) in H.
    rewrite (ReleaserFacts.bind_panic _ _ _ _ _ E3). exact H.
Qed.

Lemma Clean_returns (s : State W) : exists s', Clean s = (Normal tt, s').
Proof.
  unfold Releaser.Clean. erewrite ReleaserFacts.bind_normal by reflexivity.
  destruct (bool_decide (RepoPath (rc s) = "")); [by eexists|].
  unfold Releaser.call. destruct (handle _ _ _) as [[] w]. eexists. reflexivity.
Qed.

(** X9. The first action that fails ends the plan.  If [execute] on a plan
    returns an error, or an action of the plan panics, then on the same
    plan followed by any further actions [execute] does exactly the same:
    it ends in the same state with the same error or panic, none of the
    further actions was run or reported, and their results are as they
    were. *)
Theorem execute_stops_at_the_first_failure (actions rest : list (ReleaseAction W))
    (kind : ReleaseKind) (s s' : State W) :
  (forall res e,
     execute actions kind s = (Normal (res, Some e), s') ->
     execute (actions ++ rest) kind s = (Normal (res ++ rest, Some e), s')) /\
  (forall v,
     execute actions kind s = (Panic v, s') ->
     execute (actions ++ rest) kind s = (Panic v, s')).
Proof.
  unfold Releaser.execute. split.
  - intros res e H.
    erewrite ReleaserFacts.bind_normal in H by reflexivity.
    erewrite ReleaserFacts.bind_normal by reflexivity.
    unfold defer in H |- *.
    destruct (executeActions kind actions _) as [[[res' [e'|]]|v] s1] eqn:E.
    + rewrite (executeActions_fails _ _ _ _ _ _ _ E).
      destruct (Clean s1) as [[[]|v] s2]; [|discriminate H].
      by injection H as <- <- <-.
    + destruct (Clean s1) as [[[]|v] s2]; discriminate H.
    + destruct (Clean s1) as [[[]|v'] s2]; discriminate H.
  - intros v H.
    erewrite ReleaserFacts.bind_normal in H by reflexivity.
    erewrite ReleaserFacts.bind_normal by reflexivity.
    unfold defer in H |- *.
    destruct (executeActions kind actions _) as [[[res' err]|v'] s1] eqn:E.
    + destruct (Clean_returns s1) as [s2 Hc]. rewrite Hc in H. discriminate H.
    + by rewrite (executeActions_panics _ _ _ _ _ _ E).
Qed.

(** ** [Release] on a service specification that does not parse *)

Abbreviation Release := (Release handle ParseImageID Repository_ Components ParseServiceID
  filepathJoin repoPath Sprintf ServiceSpecAll ImageSpecLatest ImageSpecNone).
Abbreviation releaseTypeOf := (releaseTypeOf ServiceSpecAll ImageSpecLatest ImageSpecNone).

Lemma updateJob_run format args (s : State W) :
  let j' := {| Instance := Instance (job s); Spec := Spec (job s);
               Status := Sprintf format args;
               Log := Log (job s) ++ [Sprintf format args] |} in
  updateJob format args s =
    (Normal tt, {| world := world s; job := j'; rc := rc s;
                   trace := trace s ++ [UpdateJob j'] |}).
Proof. reflexivity. Qed.

(** X10. The job names one service, and [flux.ParseServiceID] rejects the
    name.  Then [Release], which found the semaphore free, returns the
    error of the parser wrapped in "parsing service ID from spec <spec>";
    it calls no collaborator, plans nothing and leaves the release context
    alone; the job got the one status "Calculating release actions."; the
    slot is given back, and the release is observed as failed under the
    release type chosen from the image specification. *)
Theorem Release_rejects_a_service_that_does_not_parse (p : Process W) (e : error) :
  semaphore p < maxSimultaneousReleases ->
  ServiceSpec (Spec (job (state p))) <> ServiceSpecAll ->
  ParseServiceID (ServiceSpec (Spec (job (state p)))) = Err e ->
  let j := job (state p) in
  let status := Sprintf "Calculating release actions." [] in
  let j' := {| Instance := Instance j; Spec := Spec j; Status := status;
               Log := Log j ++ [status] |} in
  Release p =
    (Normal (Some (Wrap e ("parsing service ID from spec " +:+ ServiceSpec (Spec j)))),
     {| semaphore := semaphore p;
        state := {| world := world (state p); job := j'; rc := rc (state p);
                    trace := trace (state p) ++
                      [ UpdateJob j';
                        Observe "ReleaseDuration"
                          ["release_type"; releaseTypeOf (Spec j);
                           "release_kind"; SprintKind (Kind (Spec j));
                           "success"; "false"] ] |} |}).
Proof.
  intros Hfree Hone Hparse j status j'.
  unfold Releaser.Release, trySend.
  destruct (decide (semaphore p < maxSimultaneousReleases)) as [_|]; [|done].
  unfold lift. cbn [state semaphore].
  erewrite ReleaserFacts.bind_normal by apply updateJob_run.
  unfold dispatch, Releaser.releaseTypeOf, parsingError. fold j.
  rewrite (bool_decide_eq_false_2 _ Hone). cbn [andb].
  unfold j in Hparse |- *. rewrite Hparse.
  destruct (bool_decide (ImageSpec (Spec (job (state p))) = ImageSpecLatest));
    [|destruct (bool_decide (ImageSpec (Spec (job (state p))) = ImageSpecNone))];
    cbn; unfold receive; cbn; rewrite <- !app_assoc; reflexivity.
Qed.

(** ** A plan of messages *)

Lemma default_last {A} (a b x : A) (l : list A) :
  default a (last (x :: l)) = default b (last (x :: l)).
Proof. destruct (last (x :: l)) eqn:E; [done|]. by apply last_None in E. Qed.

Lemma executeActions_printf kind (ds : list string) : forall s : State W,
  exists res s',
    executeActions kind (map releaseActionPrintf ds) s = (Normal (res, None), s') /\
    world s' = world s /\ rc s' = rc s /\
    (exists t, trace s' = trace s ++ t /\ Forall (fun e => isCall e = false) t) /\
    Status (job s') = default (Status (job s)) (last (map (fun d => Sprintf d []) ds)).
Proof.
  induction ds as [|d ds IH]; intros s.
  - exists [], s. cbn. repeat split; try done. exists []. by rewrite app_nil_r.
  - cbn [map Releaser.executeActions].
    erewrite ReleaserFacts.bind_normal by apply updateJob_run.
    erewrite ReleaserFacts.bind_normal by reflexivity.
    cbn [Do releaseActionPrintf action].
    set (j1 := {| Instance := _; Spec := _; Status := _; Log := _ |}).
    assert (Hlast : forall s1 : State W,
              Status (job s1) = Sprintf d [] ->
              default (Status (job s1)) (last (map (fun d => Sprintf d []) ds)) =
              default (Status (job s)) (last (map (fun d => Sprintf d []) (d :: ds)))).
    { intros s1 H1. destruct ds as [|d' ds]; [exact H1|].
      cbn [map]. rewrite last_cons_cons. apply default_last. }
    destruct (decide (kind = ReleaseKindExecute)) as [->|Hk].
    + erewrite ReleaserFacts.bind_normal by reflexivity.
      cbv beta iota. rewrite bool_decide_eq_true_2 by done.
      erewrite ReleaserFacts.bind_normal by reflexivity.
      cbn [world job rc trace].
      match goal with |- context [(_ ≫= _) ?s1] => destruct (IH s1)
        as (res & s' & E & Hw & Hrc & (t & Ht & Hcalls) & Hst) end.
      erewrite ReleaserFacts.bind_normal by exact E.
      eexists _, s'. split; [reflexivity|]. split; [exact Hw|]. split; [exact Hrc|]. split.
      * eexists. split; [rewrite Ht; cbn [trace]; rewrite <- !app_assoc; reflexivity|].
        repeat constructor. exact Hcalls.
      * rewrite Hst. by apply Hlast.
    + cbn [world job rc trace].
      match goal with |- context [(_ ≫= _) ?s1] => destruct (IH s1)
        as (res & s' & E & Hw & Hrc & (t & Ht & Hcalls) & Hst) end.
      erewrite ReleaserFacts.bind_normal by exact E.
      eexists _, s'. split; [reflexivity|]. split; [exact Hw|]. split; [exact Hrc|]. split.
      * eexists. split; [rewrite Ht; cbn [trace]; rewrite <- !app_assoc; reflexivity|].
        repeat constructor. exact Hcalls.
      * rewrite Hst. by apply Hlast.
Qed.

Lemma execute_printf kind (ds : list string) (s : State W) :
  exists res s',
    execute (map releaseActionPrintf ds) kind s = (Normal (res, None), s') /\
    world s' = world s /\
    (exists t, trace s' = trace s ++ t /\ Forall (fun e => isCall e = false) t) /\
    Status (job s') = default (Status (job s)) (last (map (fun d => Sprintf d []) ds)).
Proof.
  unfold Releaser.execute. erewrite ReleaserFacts.bind_normal by reflexivity.
  unfold defer.
  match goal with |- context [executeActions _ _ ?s1] =>
    destruct (executeActions_printf kind ds s1)
      as (res & s' & E & Hw & Hrc & Ht & Hst) end.
  rewrite E. cbn [world rc job trace] in Hw, Hrc, Ht, Hst.
  unfold Releaser.Clean. erewrite ReleaserFacts.bind_normal by reflexivity.
  rewrite Hrc. cbn. by eexists _, _.
Qed.

Lemma finish_printf method kind (ds : list string) d stage (s : State W) :
  let r := finish method kind
             {| res := map releaseActionPrintf (ds ++ [d]); stage := stage; err := None |} s in
  r.1 = Normal None /\ world r.2 = world s /\
  (exists t, trace r.2 = trace s ++ t /\ Forall (fun e => isCall e = false) t) /\
  Status (job r.2) = Sprintf d [].
Proof.
  cbn zeta. unfold Releaser.finish. cbn [err res].
  erewrite ReleaserFacts.bind_normal by reflexivity.
  match goal with |- context [(_ ≫= _) ?s1] =>
    destruct (execute_printf kind (ds ++ [d]) s1)
      as (res & s' & E & Hw & (t & Ht & Hcalls) & Hst) end.
  erewrite ReleaserFacts.bind_normal by exact E.
  cbn [world rc job trace] in Hw, Ht, Hst. cbn.
  split; [done|]. split; [done|]. split.
  - eexists. split; [rewrite Ht, <- !app_assoc; reflexivity|].
    repeat constructor. exact Hcalls.
  - rewrite Hst, map_app. cbn [map]. by rewrite last_snoc.
Qed.

(** X11. The one service a release is asked for is excluded.  Then each of
    release-one, release-one-to-latest and release-one-without-update,
    under [PLAN] and under [EXECUTE], returns nil without calling any
    collaborator: the platform is not asked for the containers of the
    service, nothing is cloned and nothing is regraded.  The last status
    the job gets is "Specified service <id> is excluded; ignoring." *)
Theorem excluded_service_is_ignored (inst id target : string) (kind : ReleaseKind)
    (exclude : gset string) (s : State W) :
  id ∈ exclude ->
  ignores Sprintf id s (releaseOne inst id target kind exclude s) /\
  ignores Sprintf id s (releaseOneToLatest inst id kind exclude s) /\
  ignores Sprintf id s (releaseOneWithoutUpdate inst id kind exclude s).
Proof.
  intros Hin.
  assert (Hc : SetContains exclude id = true) by (by apply bool_decide_eq_true).
  unfold ignores. split; [|split].
  - unfold Releaser.releaseOne, releaseOneBody. rewrite Hc.
    erewrite ReleaserFacts.bind_normal by reflexivity.
    apply (finish_printf "release_one" kind [_] _ _ s).
  - unfold Releaser.releaseOneToLatest, releaseOneToLatestBody. rewrite Hc.
    erewrite ReleaserFacts.bind_normal by reflexivity.
    apply (finish_printf "release_one_to_latest" kind [_] _ _ s).
  - unfold Releaser.releaseOneWithoutUpdate, releaseOneWithoutUpdateBody. rewrite Hc.
    erewrite ReleaserFacts.bind_normal by reflexivity.
    apply (finish_printf "release_one_without_update" kind [] _ _ s).
Qed.

(** ** The platform cannot list its services *)

(** X12. The platform fails to list the services of the instance.  Then
    each of release-all-to-latest, release-all-for-image and
    release-all-without-update returns that error wrapped in "fetching all
    platform services".  The listing is the only call it made; nothing was
    reported to the job, no action was run, and the stage observed is
    [fetch_all_platform_services]. *)
Theorem a_release_of_all_needs_the_services (inst target : string) (kind : ReleaseKind)
    (exclude : gset string) (s : State W) (e : error) (w1 : W) :
  handle _ (AllServices inst) (world s) = (Err e, w1) ->
  let failure method :=
    (Normal (Some (Wrap e "fetching all platform services")),
     {| world := w1; job := job s; rc := rc s;
        trace := trace s ++
          [ Called (AllServices inst);
            Observe "StageDuration"
              ["method"; method; "stage"; "fetch_all_platform_services"] ] |}) in
  releaseAllToLatest inst kind exclude s = failure "release_all_to_latest" /\
  releaseAllForImage inst target kind exclude s = failure "release_all_for_image" /\
  releaseAllWithoutUpdate inst kind exclude s = failure "release_all_without_update".
Proof.
  intros H failure. subst failure. cbv beta.
  split; [|split].
  - unfold Releaser.releaseAllToLatest, releaseAllToLatestBody.
    erewrite ReleaserFacts.bind_normal;
      [|erewrite ReleaserFacts.bind_normal by (apply ReleaserFacts.call_run; exact H);
        reflexivity].
    unfold Releaser.finish. cbn [err Releaser.stage].
    erewrite ReleaserFacts.bind_normal by reflexivity.
    cbn. by rewrite <- !app_assoc.
  - unfold Releaser.releaseAllForImage, releaseAllForImageBody.
    erewrite ReleaserFacts.bind_normal;
      [|erewrite ReleaserFacts.bind_normal by (apply ReleaserFacts.call_run; exact H);
        reflexivity].
    unfold Releaser.finish. cbn [err Releaser.stage].
    erewrite ReleaserFacts.bind_normal by reflexivity.
    cbn. by rewrite <- !app_assoc.
  - unfold Releaser.releaseAllWithoutUpdate, releaseAllWithoutUpdateBody.
    erewrite ReleaserFacts.bind_normal;
      [|erewrite ReleaserFacts.bind_normal by (apply ReleaserFacts.call_run; exact H);
        reflexivity].
    unfold Releaser.finish. cbn [err Releaser.stage].
    erewrite ReleaserFacts.bind_normal by reflexivity.
    cbn. by rewrite <- !app_assoc.
Qed.

(** ** What a run keeps

    A relation between the state a computation starts in and the state it
    ends in, that every step of the releaser keeps: it is reflexive and
    transitive, and holds across the events the releaser leaves, across its
    writes to the release context, across [updateJob], and across the
    collaborator calls that are [allowed]. *)
Section Keeping.

Variable R : State W -> State W -> Prop.
Variable allowed : forall X, Call X -> bool.

Hypothesis R_refl : forall s, R s s.
Hypothesis R_trans : forall s t u, R s t -> R t u -> R s u.
Hypothesis R_emit : forall e s, isCall e = false -> R s (emit e s).2.
Hypothesis R_call : forall X (c : Call X) s, allowed X c = true -> R s (call c s).2.
Hypothesis R_setRC : forall c s, R s (setRC c s).2.
Hypothesis R_updateJob : forall format args s, R s (updateJob format args s).2.
Hypothesis allowed_read : forall X (c : Call X), mutating c = false -> allowed X c = true.

Lemma keeps_ret {A} (a : A) : keeps R (mret a).
Proof. intros s. apply R_refl. Qed.

Lemma keeps_bind {A B} (m : M W A) (f : A -> M W B) :
  keeps R m -> (forall a, keeps R (f a)) -> keeps R (m ≫= f).
Proof.
  intros Hm Hf s. unfold mbind, M_bind. specialize (Hm s).
  destruct (m s) as [[a|v] s1]; cbn [snd] in *; [|done].
  eapply R_trans; [exact Hm | apply Hf].
Qed.

Lemma keeps_panic {A} v : keeps R (panic (A:=A) v).
Proof. intros s. apply R_refl. Qed.

Lemma keeps_getRC : keeps R getRC.
Proof. intros s. apply R_refl. Qed.

Lemma keeps_setRC c : keeps R (setRC c).
Proof. intros s. apply R_setRC. Qed.

Lemma keeps_emit e : isCall e = false -> keeps R (emit e).
Proof. intros H s. by apply R_emit. Qed.

Lemma keeps_call {X} (c : Call X) : allowed X c = true -> keeps R (call c).
Proof. intros H s. by apply R_call. Qed.

Lemma keeps_read {X} (c : Call X) : mutating c = false -> keeps R (call c).
Proof. intros H. by apply keeps_call, allowed_read. Qed.

Lemma keeps_updateJob format args : keeps R (updateJob format args).
Proof. intros s. apply R_updateJob. Qed.

Lemma keeps_defer {A} (cleanup : M W unit) (body : M W A) :
  keeps R cleanup -> keeps R body -> keeps R (defer cleanup body).
Proof.
  intros Hc Hb s. unfold defer. specialize (Hb s).
  destruct (body s) as [o s1]. specialize (Hc s1). cbn [snd] in *.
  destruct (cleanup s1) as [[[]|v] s2]; cbn [snd] in *; by eapply R_trans.
Qed.

Lemma keeps_observed name body : keeps R body -> keeps R (observed name body).
Proof.
  intros Hb s. unfold observed. specialize (Hb s).
  destruct (body s) as [o s1]. cbn [snd] in *.
  match goal with |- context [emit ?e s1] =>
    pose proof (R_emit e s1 eq_refl) as He; destruct (emit e s1) as [o2 s2] end.
  cbn [snd] in *. by eapply R_trans.
Qed.

Lemma keeps_loopM {A B} (body : B -> A -> M W (Step B)) l :
  (forall acc x, keeps R (body acc x)) -> forall acc, keeps R (loopM body acc l).
Proof.
  intros Hb. induction l as [|x l IH]; intros acc; cbn [loopM].
  - apply keeps_ret.
  - apply keeps_bind; [apply Hb|]. intros [acc'|e]; [apply IH | apply keeps_ret].
Qed.

Ltac keeps_step :=
  match goal with
  | |- keeps _ (mret _) => apply keeps_ret
  | |- keeps _ (ret _ _) => apply keeps_ret
  | |- keeps _ (panic _) => apply keeps_panic
  | |- keeps _ getRC => apply keeps_getRC
  | |- keeps _ (setRC _) => apply keeps_setRC
  | |- keeps _ (storePodController _ _) => unfold storePodController
  | |- keeps _ (Releaser.updateJob _ _ _) => apply keeps_updateJob
  | |- keeps _ (helperLog _) => apply keeps_emit; reflexivity
  | |- keeps _ (observeStage _ _) => apply keeps_emit; reflexivity
  | |- keeps _ (emit _) => apply keeps_emit; reflexivity
  | |- keeps _ (observed _ _) => apply keeps_observed
  | |- keeps _ (Releaser.call _ _) =>
      first [apply keeps_read; reflexivity | apply keeps_call; solve [auto]]
  | |- keeps _ (_ ≫= _) => apply keeps_bind; [|intros ?]
  | |- keeps _ (match ?x with _ => _ end) => destruct x
  end.

Ltac keeps_tac := repeat keeps_step.

(** *** The actions *)

Lemma printf_keeps description : actionKeeps R (releaseActionPrintf description).
Proof. intros do [= <-]. keeps_tac. Qed.

Lemma clone_keeps :
  allowed _ Clone = true -> actionKeeps R (releaseActionClone handle).
Proof. intros H do [= <-]. keeps_tac. Qed.

Lemma find_keeps service :
  actionKeeps R (releaseActionFindPodController handle Components filepathJoin repoPath service).
Proof. intros do [= <-]. keeps_tac. Qed.

Lemma updateAll_keeps regrades : forall def, keeps R (updateAll handle def regrades).
Proof.
  induction regrades as [|regrade rest IH]; intros def; cbn [updateAll]; keeps_tac.
  apply IH.
Qed.

Lemma update_keeps service regrades :
  (forall path data mode, allowed _ (WriteFile path data mode) = true) ->
  actionKeeps R
    (releaseActionUpdatePodController handle Components filepathJoin repoPath service regrades).
Proof.
  intros H do [= <-]. keeps_tac; try apply updateAll_keeps; keeps_tac.
Qed.

Lemma commit_keeps msg :
  (forall path key m, allowed _ (CommitAndPush path key m) = true) ->
  actionKeeps R (releaseActionCommitAndPush handle msg).
Proof. intros H do [= <-]. keeps_tac. Qed.

Lemma collectSpecs_keeps cause services : forall results specs,
  keeps R (collectSpecs Components cause services results specs).
Proof.
  induction services as [|service rest IH]; intros results specs; cbn [collectSpecs];
    keeps_tac; apply IH.
Qed.

Lemma report_keeps cause services results :
  keeps R (report Components cause services results).
Proof.
  induction services as [|service rest IH]; cbn [report]; keeps_tac. apply IH.
Qed.

Lemma regrade_keeps inst services cause :
  (forall i specs, allowed _ (PlatformRegrade i specs) = true) ->
  actionKeeps R (releaseActionRegradeServices handle Components ParseServiceID
                   inst services cause).
Proof.
  intros H do [= <-]. keeps_tac;
    first [apply collectSpecs_keeps | apply report_keeps | idtac]; keeps_tac.
Qed.

(** *** Executing a plan *)

Lemma Clean_keeps :
  (forall path, allowed _ (RemoveAll path) = true) -> keeps R Clean.
Proof. intros H. unfold Releaser.Clean. keeps_tac. Qed.

Lemma executeActions_keeps kind (actions : list (ReleaseAction W)) :
  Forall (actionKeeps R) actions -> keeps R (executeActions kind actions).
Proof.
  induction 1 as [|a actions Ha Hrest IH]; cbn [Releaser.executeActions].
  - apply keeps_ret.
  - apply keeps_bind; [apply keeps_updateJob|intros _].
    apply keeps_bind; [apply keeps_emit; reflexivity|intros _].
    destruct (Do a) as [do|] eqn:E; keeps_tac; first [exact IH | by apply Ha].
Qed.

Lemma execute_keeps kind (actions : list (ReleaseAction W)) :
  (forall path, allowed _ (RemoveAll path) = true) ->
  Forall (actionKeeps R) actions -> keeps R (execute actions kind).
Proof.
  intros H Ha. unfold Releaser.execute. keeps_tac.
  apply keeps_defer; [by apply Clean_keeps | by apply executeActions_keeps].
Qed.

Lemma finish_keeps method kind (p : Planned W) :
  (forall path, allowed _ (RemoveAll path) = true) ->
  Forall (actionKeeps R) (res p) -> keeps R (finish method kind p).
Proof.
  intros H Ha. unfold Releaser.finish. keeps_tac. by apply execute_keeps.
Qed.

(** *** Planning: the bodies of the release modes only read *)

Lemma allToLatestContainer_keeps serviceID acc c :
  keeps R (allToLatestContainer handle ParseImageID Repository_ serviceID acc c).
Proof. unfold allToLatestContainer. keeps_tac. Qed.

Lemma oneToLatestContainer_keeps acc c :
  keeps R (oneToLatestContainer handle ParseImageID Repository_ acc c).
Proof. unfold oneToLatestContainer. keeps_tac. Qed.

Lemma allToLatestRegrades_keeps containerMap res :
  keeps R (allToLatestRegrades handle ParseImageID Repository_ containerMap res).
Proof.
  unfold allToLatestRegrades. apply keeps_loopM. intros acc [serviceID containers].
  apply keeps_loopM. intros acc' c. apply allToLatestContainer_keeps.
Qed.

Lemma oneToLatestRegrades_keeps containers res :
  keeps R (oneToLatestRegrades handle ParseImageID Repository_ containers res).
Proof.
  unfold oneToLatestRegrades. apply keeps_loopM. intros acc c.
  apply oneToLatestContainer_keeps.
Qed.

Lemma releaseAllToLatestBody_keeps inst exclude :
  keeps R (releaseAllToLatestBody handle ParseImageID Repository_ Components
             ParseServiceID filepathJoin repoPath inst exclude).
Proof.
  unfold releaseAllToLatestBody. keeps_tac; try apply allToLatestRegrades_keeps; keeps_tac.
Qed.

Lemma releaseAllForImageBody_keeps inst target exclude :
  keeps R (releaseAllForImageBody handle ParseImageID Repository_ Components
             ParseServiceID filepathJoin repoPath inst target exclude).
Proof. unfold releaseAllForImageBody. keeps_tac. Qed.

Lemma releaseOneToLatestBody_keeps inst id exclude :
  keeps R (releaseOneToLatestBody handle ParseImageID Repository_ Components
             ParseServiceID filepathJoin repoPath inst id exclude).
Proof.
  unfold releaseOneToLatestBody. keeps_tac; try apply oneToLatestRegrades_keeps; keeps_tac.
Qed.

Lemma releaseOneBody_keeps inst serviceID target exclude :
  keeps R (releaseOneBody handle ParseImageID Repository_ Components
             ParseServiceID filepathJoin repoPath inst serviceID target exclude).
Proof. unfold releaseOneBody. keeps_tac. Qed.

Lemma releaseOneWithoutUpdateBody_keeps inst serviceID exclude :
  keeps R (releaseOneWithoutUpdateBody handle Components ParseServiceID filepathJoin
             repoPath inst serviceID exclude).
Proof. unfold releaseOneWithoutUpdateBody. keeps_tac. Qed.

Lemma releaseAllWithoutUpdateBody_keeps inst exclude :
  keeps R (releaseAllWithoutUpdateBody handle Components ParseServiceID filepathJoin
             repoPath inst exclude).
Proof. unfold releaseAllWithoutUpdateBody. keeps_tac. Qed.

(** *** Planning: the plans are made of the actions above *)

Lemma yields_ret {A} (Q : A -> Prop) (a : A) : Q a -> yields (W:=W) Q (mret a).
Proof. intros H s a' s' [= <- _]. exact H. Qed.

Lemma yields_bind {A B} (Q' : A -> Prop) (Q : B -> Prop) (m : M W A) (f : A -> M W B) :
  yields Q' m -> (forall a, Q' a -> yields Q (f a)) -> yields Q (m ≫= f).
Proof.
  intros Hm Hf s b s' H. unfold mbind, M_bind in H.
  destruct (m s) as [[a|v] s1] eqn:E; [|discriminate H].
  eapply Hf; [|exact H]. eapply Hm. exact E.
Qed.

Lemma yields_any {A} (m : M W A) : yields (fun _ => True) m.
Proof. by intros s a s' _. Qed.

Lemma yields_next {A B} (P : B -> Prop) (body : B -> A -> M W (Step B)) l :
  (forall acc x, P acc ->
     yields (fun r => match r with Next acc' => P acc' | Return _ => True end) (body acc x)) ->
  forall acc, P acc ->
    yields (fun r => match r with Next acc' => P acc' | Return _ => True end)
           (loopM body acc l).
Proof.
  intros Hb. induction l as [|x l IH]; intros acc Hacc; cbn [loopM].
  - by apply yields_ret.
  - eapply yields_bind; [by apply Hb|]. intros [acc'|e] H; [by apply IH | by apply yields_ret].
Qed.

Ltac yields_step :=
  match goal with
  | |- yields _ (mret _) => apply yields_ret
  | |- yields _ (_ ≫= _) => eapply yields_bind; [apply yields_any | intros ? _]
  | |- yields _ (match ?x with _ => _ end) => destruct x eqn:?
  end.

Ltac plan_step :=
  match goal with
  | |- Forall _ (_ ++ _) => apply Forall_app; split
  | |- Forall _ (_ :: _) => apply Forall_cons; split
  | |- Forall _ [] => apply Forall_nil
  | |- Forall _ (map _ _) => apply Forall_map, Forall_true; intros ?; cbn beta
  | |- Forall _ (updateActions _ _ _ _ _) =>
      unfold updateActions; apply Forall_map, Forall_true; intros [? ?]; cbn beta
  | |- actionKeeps _ (releaseActionPrintf _) => apply printf_keeps
  | |- actionKeeps _ (releaseActionClone _) => apply clone_keeps; solve [auto]
  | |- actionKeeps _ (releaseActionFindPodController _ _ _ _ _) => apply find_keeps
  | |- actionKeeps _ (releaseActionUpdatePodController _ _ _ _ _ _) =>
      apply update_keeps; solve [auto]
  | |- actionKeeps _ (releaseActionCommitAndPush _ _) => apply commit_keeps; solve [auto]
  | |- actionKeeps _ (releaseActionRegradeServices _ _ _ _ _ _) =>
      apply regrade_keeps; solve [auto]
  end.

Ltac plan_tac := cbn [res]; repeat plan_step; try done.

Abbreviation good := (fun p : Planned W => Forall (actionKeeps R) (res p)).

Lemma releaseOneWithoutUpdateBody_plan inst serviceID exclude :
  allowed _ Clone = true ->
  (forall i specs, allowed _ (PlatformRegrade i specs) = true) ->
  yields good (releaseOneWithoutUpdateBody handle Components ParseServiceID filepathJoin
                 repoPath inst serviceID exclude).
Proof.
  intros Hc Hr. unfold releaseOneWithoutUpdateBody. repeat yields_step; plan_tac.
Qed.

Lemma releaseAllWithoutUpdateBody_plan inst exclude :
  allowed _ Clone = true ->
  (forall i specs, allowed _ (PlatformRegrade i specs) = true) ->
  yields good (releaseAllWithoutUpdateBody handle Components ParseServiceID filepathJoin
                 repoPath inst exclude).
Proof.
  intros Hc Hr. unfold releaseAllWithoutUpdateBody. repeat yields_step; plan_tac.
Qed.

Section AllAllowed.

Hypothesis allowed_all : forall X (c : Call X), allowed X c = true.

Abbreviation goodAcc :=
  (fun A (r : Step (list (ReleaseAction W) * A)) =>
     match r with
     | Next acc => Forall (actionKeeps R) acc.1
     | Return _ => True
     end).

Lemma allToLatestContainer_plan serviceID acc c :
  Forall (actionKeeps R) acc.1 ->
  yields (goodAcc _) (allToLatestContainer handle ParseImageID Repository_ serviceID acc c).
Proof.
  destruct acc as [res0 m]. intros H. unfold allToLatestContainer.
  repeat yields_step; cbn [fst]; plan_tac.
Qed.

Lemma oneToLatestContainer_plan acc c :
  Forall (actionKeeps R) acc.1 ->
  yields (goodAcc _) (oneToLatestContainer handle ParseImageID Repository_ acc c).
Proof.
  destruct acc as [res0 m]. intros H. unfold oneToLatestContainer.
  repeat yields_step; cbn [fst]; plan_tac.
Qed.

Lemma allToLatestRegrades_plan containerMap res0 :
  Forall (actionKeeps R) res0 ->
  yields (goodAcc _)
    (allToLatestRegrades handle ParseImageID Repository_ containerMap res0).
Proof.
  intros H. unfold allToLatestRegrades.
  apply (yields_next (fun acc => Forall (actionKeeps R) acc.1)); [|done].
  intros acc [serviceID containers] Hacc.
  apply (yields_next (fun acc => Forall (actionKeeps R) acc.1)); [|done].
  intros acc' c. apply allToLatestContainer_plan.
Qed.

Lemma oneToLatestRegrades_plan containers res0 :
  Forall (actionKeeps R) res0 ->
  yields (goodAcc _) (oneToLatestRegrades handle ParseImageID Repository_ containers res0).
Proof.
  intros H. unfold oneToLatestRegrades.
  apply (yields_next (fun acc => Forall (actionKeeps R) acc.1)); [|done].
  intros acc c. apply oneToLatestContainer_plan.
Qed.

Lemma oneRegrades_plan target containers (res0 : list (ReleaseAction W)) :
  Forall (actionKeeps R) res0 ->
  Forall (actionKeeps R) (oneRegrades ParseImageID Repository_ target containers res0).1.
Proof.
  intros H. unfold oneRegrades.
  apply (ReleaserFacts.foldl_invariant (fun acc => Forall (actionKeeps R) acc.1)); [|done].
  intros [res1 regrades] c Hacc. unfold oneContainer.
  repeat match goal with |- context [if ?b then _ else _] => destruct b end;
    cbn [fst] in *; plan_tac.
Qed.

Lemma allForImageRegrades_plan target containerMap (res0 : list (ReleaseAction W)) :
  Forall (actionKeeps R) res0 ->
  Forall (actionKeeps R)
    (allForImageRegrades ParseImageID Repository_ target containerMap res0).1.
Proof.
  intros H. unfold allForImageRegrades.
  apply (ReleaserFacts.foldl_invariant (fun acc => Forall (actionKeeps R) acc.1)); [|done].
  intros acc [serviceID containers] Hacc.
  apply (ReleaserFacts.foldl_invariant (fun acc => Forall (actionKeeps R) acc.1)); [|done].
  intros [res1 m] c Hacc'. unfold allForImageContainer.
  repeat match goal with |- context [if ?b then _ else _] => destruct b end;
    cbn [fst] in *; plan_tac.
Qed.

Lemma releaseAllToLatestBody_plan inst exclude :
  yields good (releaseAllToLatestBody handle ParseImageID Repository_ Components
                 ParseServiceID filepathJoin repoPath inst exclude).
Proof.
  unfold releaseAllToLatestBody.
  eapply yields_bind; [apply yields_any | intros [serviceIDs|e] _]; [|yields_step; plan_tac].
  eapply yields_bind; [apply yields_any | intros _ _].
  eapply yields_bind; [apply yields_any | intros [containerMap|e] _]; [|yields_step; plan_tac].
  eapply yields_bind; [apply yields_any | intros _ _].
  eapply yields_bind; [apply allToLatestRegrades_plan; plan_tac|].
  intros [[res1 regradeMap]|e] H; cbn [fst] in H; repeat yields_step; plan_tac.
Qed.

Lemma releaseAllForImageBody_plan inst target exclude :
  yields good (releaseAllForImageBody handle ParseImageID Repository_ Components
                 ParseServiceID filepathJoin repoPath inst target exclude).
Proof.
  unfold releaseAllForImageBody.
  eapply yields_bind; [apply yields_any | intros [serviceIDs|e] _]; [|yields_step; plan_tac].
  eapply yields_bind; [apply yields_any | intros _ _].
  eapply yields_bind; [apply yields_any | intros [containerMap|e] _]; [|yields_step; plan_tac].
  eapply yields_bind; [apply yields_any | intros _ _].
  match goal with |- context [allForImageRegrades _ _ _ _ ?r] =>
    pose proof (allForImageRegrades_plan target containerMap r) as H end.
  destruct (allForImageRegrades _ _ _ _ _) as [res1 regradeMap]. cbn [fst] in H.
  assert (H1 : Forall (actionKeeps R) res1) by (apply H; plan_tac).
  repeat yields_step; plan_tac.
Qed.

Lemma releaseOneToLatestBody_plan inst id exclude :
  yields good (releaseOneToLatestBody handle ParseImageID Repository_ Components
                 ParseServiceID filepathJoin repoPath inst id exclude).
Proof.
  unfold releaseOneToLatestBody.
  destruct (SetContains exclude id); [yields_step; plan_tac|].
  destruct (Components id) as [namespace service].
  eapply yields_bind; [apply yields_any | intros [containers|e] _]; [|yields_step; plan_tac].
  eapply yields_bind; [apply yields_any | intros _ _].
  eapply yields_bind; [apply oneToLatestRegrades_plan; plan_tac|].
  intros [[res1 regrades]|e] H; cbn [fst] in H; repeat yields_step; plan_tac.
Qed.

Lemma releaseOneBody_plan inst serviceID target exclude :
  yields good (releaseOneBody handle ParseImageID Repository_ Components
                 ParseServiceID filepathJoin repoPath inst serviceID target exclude).
Proof.
  unfold releaseOneBody.
  destruct (SetContains exclude serviceID); [yields_step; plan_tac|].
  destruct (Components serviceID) as [namespace service].
  eapply yields_bind; [apply yields_any | intros [containers|e] _]; [|yields_step; plan_tac].
  eapply yields_bind; [apply yields_any | intros _ _].
  match goal with |- context [oneRegrades _ _ _ _ ?r] =>
    pose proof (oneRegrades_plan target containers r) as H end.
  destruct (oneRegrades _ _ _ _ _) as [res1 regrades]. cbn [fst] in H.
  assert (H1 : Forall (actionKeeps R) res1) by (apply H; plan_tac).
  repeat yields_step; plan_tac.
Qed.

End AllAllowed.

(** *** The release modes, and [Release] *)

Lemma mode_keeps (body : M W (Planned W)) method kind :
  (forall path, allowed _ (RemoveAll path) = true) ->
  keeps R body -> yields good body -> keeps R (body ≫= finish method kind).
Proof.
  intros Hrm Hk Hy s. unfold mbind, M_bind. specialize (Hk s).
  destruct (body s) as [[p|v] s1] eqn:E; cbn [snd] in *; [|done].
  eapply R_trans; [exact Hk|]. apply finish_keeps; [done|]. eapply Hy. exact E.
Qed.

Abbreviation dispatch := (dispatch handle ParseImageID Repository_ Components ParseServiceID
  filepathJoin repoPath Sprintf ServiceSpecAll ImageSpecLatest ImageSpecNone).

Lemma dispatch_keeps (j : ReleaseJob) (exclude : gset string) :
  (forall inst, keeps R (releaseAllToLatest inst (Kind (Spec j)) exclude)) ->
  (forall inst, keeps R (releaseAllWithoutUpdate inst (Kind (Spec j)) exclude)) ->
  (forall inst target, keeps R (releaseAllForImage inst target (Kind (Spec j)) exclude)) ->
  (forall inst id, keeps R (releaseOneToLatest inst id (Kind (Spec j)) exclude)) ->
  (forall inst id, keeps R (releaseOneWithoutUpdate inst id (Kind (Spec j)) exclude)) ->
  (forall inst id target, keeps R (releaseOne inst id target (Kind (Spec j)) exclude)) ->
  keeps R (dispatch j exclude).
Proof.
  intros H1 H2 H3 H4 H5 H6. unfold Releaser.dispatch.
  repeat match goal with
         | |- keeps _ (if ?b then _ else _) => destruct b
         | |- keeps _ (match ?x with _ => _ end) => destruct x
         end; first [apply keeps_ret | apply H1 | apply H2 | apply H3 | apply H4
                    | apply H5 | apply H6].
Qed.

Lemma Release_keeps (p : Process W) :
  keeps R (dispatch (job (state p)) (Add ∅ (Excludes (Spec (job (state p)))))) ->
  R (state p) (state (Release p).2).
Proof.
  intros Hd. unfold Releaser.Release, trySend.
  destruct (decide (semaphore p < maxSimultaneousReleases)) as [Hfree|Hfull].
  - unfold lift. cbn [state semaphore].
    pose proof (keeps_bind _ _ (keeps_updateJob "Calculating release actions." []) (fun _ => Hd)
                  (state p)) as H.
    match goal with |- context [mbind ?f ?m (state p)] =>
      change (mbind f m (state p)) with ((m ≫= f) (state p));
      destruct ((m ≫= f) (state p)) as [o s1] end.
    cbn [snd state receive] in *.
    unfold observeRelease. cbn [snd state].
    eapply R_trans; [exact H|]. by apply R_emit.
  - unfold lift, observeRelease. cbn [snd state]. by apply R_emit.
Qed.

End Keeping.

(** *** Two relations every step keeps *)

Lemma added_refl ok (s : State W) : added ok s s.
Proof. exists []. by rewrite app_nil_r. Qed.

Lemma added_trans ok (s t u : State W) : added ok s t -> added ok t u -> added ok s u.
Proof.
  intros (t1 & E1 & H1) (t2 & E2 & H2). exists (t1 ++ t2).
  rewrite E2, E1, <- app_assoc. split; [done|]. by apply Forall_app.
Qed.

Lemma added_emit ok e (s : State W) : ok e = true -> added ok s (emit e s).2.
Proof. intros H. exists [e]. split; [done|]. by repeat constructor. Qed.

Lemma added_call ok {X} (c : Call X) (s : State W) :
  ok (Called c) = true -> added ok s (call c s).2.
Proof.
  intros H. exists [Called c]. unfold Releaser.call. destruct (handle X c (world s)).
  split; [done|]. by repeat constructor.
Qed.

Lemma added_setRC ok c (s : State W) : added ok s (setRC c s).2.
Proof. exists []. cbn. by rewrite app_nil_r. Qed.

Lemma added_updateJob ok format args (s : State W) :
  (forall j, ok (UpdateJob j) = true) -> added ok s (updateJob format args s).2.
Proof. intros H. eexists [_]. split; [reflexivity|]. by repeat constructor. Qed.

Lemma jobGrows_refl (s : State W) : jobGrows s s.
Proof. split; [done|]. split; [done|]. exists []. by rewrite app_nil_r. Qed.

Lemma jobGrows_trans (s t u : State W) : jobGrows s t -> jobGrows t u -> jobGrows s u.
Proof.
  intros (I1 & S1 & l1 & L1 & T1) (I2 & S2 & l2 & L2 & T2).
  split; [congruence|]. split; [congruence|]. exists (l1 ++ l2).
  rewrite L2, L1, <- app_assoc. split; [done|].
  rewrite T2, T1, last_app. by destruct (last l2).
Qed.

Lemma jobGrows_same (s t : State W) : job t = job s -> jobGrows s t.
Proof.
  intros H. unfold jobGrows. rewrite H. split; [done|]. split; [done|].
  exists []. by rewrite app_nil_r.
Qed.

Lemma jobGrows_updateJob format args (s : State W) :
  jobGrows s (updateJob format args s).2.
Proof.
  rewrite updateJob_run. cbn [snd]. split; [done|]. split; [done|].
  by exists [Sprintf format args].
Qed.

Ltac grows :=
  first [ exact jobGrows_refl | exact jobGrows_trans | exact jobGrows_updateJob
        | by intros
        | intros; apply jobGrows_same; unfold Releaser.call;
          try match goal with |- context [handle ?X ?c ?w] => destruct (handle X c w) end;
          reflexivity ].

(** X13. The job of a release.  Whatever [Release] does, in any mode, under
    [PLAN] or [EXECUTE], whether it is turned away at the semaphore,
    returns, fails or panics: the instance and the spec of the job are what
    they were, the log of the job holds what it held followed by the
    statuses reported since, and if any was reported the status of the job
    is the last line of its log. *)
Theorem Release_only_appends_to_the_job_log (p : Process W) :
  jobGrows (state p) (state (Release p).2).
Proof.
  apply (Release_keeps jobGrows); try grows.
  apply (dispatch_keeps jobGrows); try grows; intros;
    apply (mode_keeps jobGrows (fun _ _ => true)); try grows.
  - first [apply (releaseAllToLatestBody_keeps jobGrows (fun _ _ => true)) | apply (releaseAllToLatestBody_keeps jobGrows)]; grows.
  - first [apply (releaseAllToLatestBody_plan jobGrows (fun _ _ => true)) | apply (releaseAllToLatestBody_plan jobGrows)]; grows.
  - first [apply (releaseAllWithoutUpdateBody_keeps jobGrows (fun _ _ => true)) | apply (releaseAllWithoutUpdateBody_keeps jobGrows)]; grows.
  - first [apply (releaseAllWithoutUpdateBody_plan jobGrows (fun _ _ => true)) | apply (releaseAllWithoutUpdateBody_plan jobGrows)]; grows.
  - first [apply (releaseAllForImageBody_keeps jobGrows (fun _ _ => true)) | apply (releaseAllForImageBody_keeps jobGrows)]; grows.
  - first [apply (releaseAllForImageBody_plan jobGrows (fun _ _ => true)) | apply (releaseAllForImageBody_plan jobGrows)]; grows.
  - first [apply (releaseOneToLatestBody_keeps jobGrows (fun _ _ => true)) | apply (releaseOneToLatestBody_keeps jobGrows)]; grows.
  - first [apply (releaseOneToLatestBody_plan jobGrows (fun _ _ => true)) | apply (releaseOneToLatestBody_plan jobGrows)]; grows.
  - first [apply (releaseOneWithoutUpdateBody_keeps jobGrows (fun _ _ => true)) | apply (releaseOneWithoutUpdateBody_keeps jobGrows)]; grows.
  - first [apply (releaseOneWithoutUpdateBody_plan jobGrows (fun _ _ => true)) | apply (releaseOneWithoutUpdateBody_plan jobGrows)]; grows.
  - first [apply (releaseOneBody_keeps jobGrows (fun _ _ => true)) | apply (releaseOneBody_keeps jobGrows)]; grows.
  - first [apply (releaseOneBody_plan jobGrows (fun _ _ => true)) | apply (releaseOneBody_plan jobGrows)]; grows.
Qed.

Lemma keepsConfig_other e : isCall e = false -> keepsConfig e = true.
Proof. by destruct e. Qed.

Lemma dry_other e : isCall e = false -> dry e = true.
Proof. by destruct e. Qed.

Ltac adds ok other :=
  first [ exact (added_refl ok) | exact (added_trans ok)
        | intros; apply added_emit; by apply other
        | intros; by apply added_call
        | intros; apply added_setRC
        | intros; by apply added_updateJob
        | by intros ? []
        | by intros ].

(** X14. "Release whatever is in the cloned configuration, without changing
    anything": release-one-without-update and release-all-without-update,
    under [PLAN] and under [EXECUTE] and whatever the collaborators answer,
    never write a file of the checkout and never commit and push. *)
Theorem a_release_without_update_keeps_the_repository (inst serviceID : string)
    (kind : ReleaseKind) (exclude : gset string) (s : State W) :
  added keepsConfig s (releaseOneWithoutUpdate inst serviceID kind exclude s).2 /\
  added keepsConfig s (releaseAllWithoutUpdate inst kind exclude s).2.
Proof.
  split.
  - apply (mode_keeps (added keepsConfig) (fun X c => negb (changesConfig c)));
      try adds keepsConfig keepsConfig_other.
    + apply (releaseOneWithoutUpdateBody_keeps (added keepsConfig));
        adds keepsConfig keepsConfig_other.
    + apply (releaseOneWithoutUpdateBody_plan (added keepsConfig)
               (fun X c => negb (changesConfig c)));
        adds keepsConfig keepsConfig_other.
  - apply (mode_keeps (added keepsConfig) (fun X c => negb (changesConfig c)));
      try adds keepsConfig keepsConfig_other.
    + apply (releaseAllWithoutUpdateBody_keeps (added keepsConfig)
               (fun X c => negb (changesConfig c)));
        adds keepsConfig keepsConfig_other.
    + apply (releaseAllWithoutUpdateBody_plan (added keepsConfig)
               (fun X c => negb (changesConfig c)));
        adds keepsConfig keepsConfig_other.
Qed.

(** ** A dry run *)

Lemma execute_plan_run (actions : list (ReleaseAction W)) (s : State W) :
  exists j t,
    execute actions ReleaseKindPlan s =
      (Normal (actions, None),
       {| world := world s; job := j; rc := NewReleaseContext; trace := trace s ++ t |}) /\
    Forall (fun e => isCall e = false) t.
Proof.
  destruct (ReleaserFacts.executeActions_plan Sprintf actions
              {| world := world s; job := job s; rc := NewReleaseContext;
                 trace := trace s |}) as (j & t & E & H & _).
  exists j, t. split; [|exact H].
  unfold Releaser.execute. erewrite ReleaserFacts.bind_normal by reflexivity.
  unfold defer. cbn [world job rc trace] in E. unfold setRC. cbn [world job trace].
  rewrite E. reflexivity.
Qed.

Lemma finish_plan_dry method (p : Planned W) :
  keeps (added dry) (finish method ReleaseKindPlan p).
Proof.
  intros s. unfold Releaser.finish.
  erewrite ReleaserFacts.bind_normal by reflexivity.
  destruct (err p) as [e|].
  - cbn. eexists [_]. split; [reflexivity|]. by repeat constructor.
  - match goal with |- context [mbind ?f ?m ?s1] =>
      destruct (execute_plan_run (res p) s1) as (j & t & E & H) end.
    erewrite ReleaserFacts.bind_normal by exact E. cbn.
    exists (Observe "StageDuration" ["method"; method; "stage"; stage p] :: t).
    split; [by rewrite <- app_assoc|].
    constructor; [done|]. eapply Forall_impl; [exact H|]. apply dry_other.
Qed.

(** X15. A dry run.  When the kind of the job is [PLAN], [Release] makes no
    mutating call, in any of its six modes and whatever the platform and
    the registry answer: it does not clone, writes no file, does not commit
    or push, removes nothing, and regrades nothing.  What it calls are the
    platform and the registry, to read what is running and what is
    released. *)
Theorem a_planned_release_mutates_nothing (p : Process W) :
  Kind (Spec (job (state p))) = ReleaseKindPlan ->
  added dry (state p) (state (Release p).2).
Proof.
  intros Hplan.
  apply (Release_keeps (added dry)); try adds dry dry_other.
  apply (dispatch_keeps (added dry)); try adds dry dry_other; rewrite Hplan; intros;
    (apply (keeps_bind (added dry)); [adds dry dry_other | | intros; apply finish_plan_dry]).
  - apply (releaseAllToLatestBody_keeps (added dry) (fun X c => negb (mutating c)));
      adds dry dry_other.
  - apply (releaseAllWithoutUpdateBody_keeps (added dry) (fun X c => negb (mutating c)));
      adds dry dry_other.
  - apply (releaseAllForImageBody_keeps (added dry) (fun X c => negb (mutating c)));
      adds dry dry_other.
  - apply (releaseOneToLatestBody_keeps (added dry) (fun X c => negb (mutating c)));
      adds dry dry_other.
  - apply (releaseOneWithoutUpdateBody_keeps (added dry)); adds dry dry_other.
  - apply (releaseOneBody_keeps (added dry) (fun X c => negb (mutating c)));
      adds dry dry_other.
Qed.

(** ** The actions *)

Abbreviation commit := (releaseActionCommitAndPush handle).
Abbreviation find := (releaseActionFindPodController handle Components filepathJoin repoPath).
Abbreviation regrade := (releaseActionRegradeServices handle Components ParseServiceID).
Abbreviation update := (releaseActionUpdatePodController handle Components filepathJoin repoPath).

(** X16. The commit action looks before it pushes.  If the clone path of
    the release context is not a directory, it returns "the repo path
    (<path>) is not valid"; if the path is a directory but the key file
    cannot be found, "the repo key (<key>) is not valid: <error>"; in both
    cases [CommitAndPush] is not called.  Otherwise it calls
    [CommitAndPush] with the path, the key and the message, once, and
    returns what that returns, except that an empty result without error
    becomes "Pushed commit: <message>". *)
Theorem the_commit_action_checks_the_checkout (msg : string) (s : State W)
    (fi : result FileInfo) (w1 : W) :
  let path := RepoPath (rc s) in
  let key := RepoKey (rc s) in
  let r := runAction (commit msg) s in
  let observed success :=
    Observe "ActionDuration" ["action"; "commit_and_push"; "success"; SprintBool success] in
  handle _ (Stat path) (world s) = (fi, w1) ->
  (notADirectory fi = true ->
     r = (Normal ("", Some ("the repo path (" +:+ path +:+ ") is not valid")),
          {| world := w1; job := job s; rc := rc s;
             trace := trace s ++ [Called (Stat path); observed false] |})) /\
  (notADirectory fi = false ->
     forall k w2, handle _ (Stat key) w1 = (k, w2) ->
       match k with
       | Err e =>
           r = (Normal ("", Some ("the repo key (" +:+ key +:+ ") is not valid: " +:+ e)),
                {| world := w2; job := job s; rc := rc s;
                   trace := trace s ++ [Called (Stat path); Called (Stat key);
                                        observed false] |})
       | Ok _ =>
           forall result err w3,
             handle _ (CommitAndPush path key msg) w2 = ((result, err), w3) ->
             r = (Normal (if bool_decide (err = None) && bool_decide (result = "")
                          then ("Pushed commit: " +:+ msg, None)
                          else (result, err)),
                  {| world := w3; job := job s; rc := rc s;
                     trace := trace s ++ [Called (Stat path); Called (Stat key);
                                          Called (CommitAndPush path key msg);
                                          observed (bool_decide (err = None))] |})
       end).
Proof.
  intros path key r observed0 Hstat. subst r observed0.
  unfold runAction, releaseActionCommitAndPush, action. cbn [Do]. unfold Releaser.observed.
  erewrite ReleaserFacts.bind_normal by reflexivity. fold path key.
  erewrite ReleaserFacts.bind_normal by (apply ReleaserFacts.call_run; exact Hstat).
  split.
  - intros ->. cbn. by rewrite <- !app_assoc.
  - intros -> k w2 Hkey.
    erewrite ReleaserFacts.bind_normal by (apply ReleaserFacts.call_run; exact Hkey).
    destruct k as [info|e].
    + intros result err w3 Hpush.
      erewrite ReleaserFacts.bind_normal by (apply ReleaserFacts.call_run; exact Hpush).
      cbv beta iota. destruct err as [e|]; [|destruct (bool_decide (result = ""))];
        cbn; by rewrite <- !app_assoc.
    + cbn. by rewrite <- !app_assoc.
Qed.

(** X17. The action that loads the definition of a service, when the
    resource path is a directory and [kubernetes.FilesFor] answers.  With
    no matching file it skips the service: it returns no error, the result
    "no resource definition file found for <service>; skipping", and stores
    nothing.  With more than one it returns the error "multiple resource
    definition files found for <service>: ...".  With exactly one it reads
    the file and stores what it read in the release context under the
    service, or returns the error of the read.  In every case it only
    reads: it makes no mutating call. *)
Theorem the_find_action_by_file_count (service : string) (s : State W)
    (fi : FileInfo) (w1 : W) (files : list string) (w2 : W) :
  let resourcePath := filepathJoin (RepoPath (rc s)) repoPath in
  let r := runAction (find service) s in
  handle _ (Stat resourcePath) (world s) = (Ok fi, w1) ->
  IsDir fi = true ->
  handle _ (FilesFor resourcePath (Components service).1 (Components service).2) w1
    = (Ok files, w2) ->
  (files = [] ->
     r.1 = Normal ("no resource definition file found for " +:+ service +:+ "; skipping",
                   None) /\
     rc r.2 = rc s) /\
  (1 < length files ->
     r.1 = Normal ("", Some ("multiple resource definition files found for "
                               +:+ service +:+ ": " +:+ Join files ", ")) /\
     rc r.2 = rc s) /\
  (forall file answer w3,
     files = [file] ->
     handle _ (ReadFile file) w2 = (answer, w3) ->
     match answer with
     | Ok def =>
         r.1 = Normal ("Found pod controller OK.", None) /\
         rc r.2 = {| RepoPath := RepoPath (rc s); RepoKey := RepoKey (rc s);
                     PodControllers := <[service := def]> (PodControllers (rc s)) |}
     | Err e => r.1 = Normal ("", Some e) /\ rc r.2 = rc s
     end) /\
  added dry s r.2.
Proof.
  intros resourcePath r Hstat Hdir Hfiles.
  assert (Hdry : added dry s r.2).
  { assert (Hk : actionKeeps (added dry) (find service)).
    { apply (find_keeps (added dry) (fun X c => negb (mutating c))); adds dry dry_other. }
    exact (Hk _ eq_refl s). }
  split; [|split; [|split; [|exact Hdry]]]; clear Hdry; subst r;
    unfold runAction, releaseActionFindPodController, action; cbn [Do];
    unfold Releaser.observed;
    (erewrite ReleaserFacts.bind_normal by reflexivity);
    fold resourcePath;
    (erewrite ReleaserFacts.bind_normal by (apply ReleaserFacts.call_run; exact Hstat));
    unfold notADirectory; rewrite Hdir; cbn [negb];
    destruct (Components service) as [namespace serviceName] eqn:EC; cbn [fst snd] in Hfiles;
    (erewrite ReleaserFacts.bind_normal by (apply ReleaserFacts.call_run; exact Hfiles));
    cbv beta iota.
  - intros ->. destruct (decide (length (A:=string) [] <= 0)) as [_|H]; [|cbn in H; lia].
    cbn. done.
  - intros Hmany. destruct (decide (length files <= 0)) as [H|_]; [lia|].
    destruct (decide (1 < length files)) as [_|H]; [|lia]. cbn. done.
  - intros file answer w3 -> Hread.
    destruct (decide (length [file] <= 0)) as [H|_]; [cbn in H; lia|].
    destruct (decide (1 < length [file])) as [H|_]; [cbn in H; lia|].
    cbn [lookup list_lookup default]. 
    erewrite ReleaserFacts.bind_normal by (apply ReleaserFacts.call_run; exact Hread).
    destruct answer as [def|e]; cbn; done.
Qed.

(** *** The regrade action *)

Abbreviation skipped := "no pod controller in release context; skipping regrade".

Lemma regraded_app (t u : list Event) : regraded (t ++ u) = regraded t ++ regraded u.
Proof. unfold regraded. apply omap_app. Qed.

Lemma specsOf_cons c service rest :
  specsOf Components c (service :: rest) =
    match PodControllers c !! service with
    | Some def =>
        {| NamespacedService_ := {| Namespace := (Components service).1;
                                    Service := (Components service).2 |};
           NewDefinition := def |} :: specsOf Components c rest
    | None => specsOf Components c rest
    end.
Proof. unfold specsOf. cbn. by destruct (PodControllers c !! service). Qed.

Lemma collectSpecs_run cause services : forall results specs (s : State W),
  exists results' t,
    collectSpecs Components cause services results specs s =
      (Normal (results', specs ++ specsOf Components (rc s) services),
       {| world := world s; job := job s; rc := rc s; trace := trace s ++ t |}) /\
    regraded t = [] /\
    forall k,
      results' !! k = match PodControllers (rc s) !! k with
                      | None => if decide (k ∈ services) then Some skipped else results !! k
                      | Some _ => results !! k
                      end.
Proof.
  induction services as [|service rest IH]; intros results specs s.
  - exists results, []. change (specsOf Components (rc s) []) with (@nil RegradeSpec).
    cbn [collectSpecs]. rewrite !app_nil_r.
    split; [by destruct s|]. split; [done|]. intros k.
    destruct (PodControllers (rc s) !! k); [done|].
    rewrite decide_False; [done|]. apply not_elem_of_nil.
  - cbn [collectSpecs]. erewrite ReleaserFacts.bind_normal by reflexivity.
    rewrite specsOf_cons.
    destruct (PodControllers (rc s) !! service) as [def|] eqn:E.
    + destruct (Components service) as [namespace serviceName] eqn:EC. cbn [fst snd].
      erewrite ReleaserFacts.bind_normal by reflexivity.
      match goal with |- context [collectSpecs _ _ _ ?r ?sp ?s1] =>
        destruct (IH r sp s1) as (results' & t & Erun & Ht & Hres) end.
      cbn [world job rc trace fst snd] in Erun, Hres.
      exists results', (LogEvent namespace serviceName ("Starting regrade " +:+ cause) :: t).
      split; [|split].
      * rewrite Erun. by rewrite <- !app_assoc.
      * exact Ht.
      * intros k. rewrite Hres. destruct (PodControllers (rc s) !! k) eqn:Ek; [done|].
        destruct (decide (k ∈ rest)) as [Hin|Hout].
        -- rewrite decide_True; [done|]. by right.
        -- rewrite decide_False; [done|]. intros Hk.
           apply elem_of_cons in Hk as [->|Hk]; [congruence|done].
    + destruct (IH (<[service := skipped]> results) specs s)
        as (results' & t & Erun & Ht & Hres).
      exists results', t. split; [exact Erun|]. split; [exact Ht|].
      intros k. rewrite Hres. destruct (PodControllers (rc s) !! k) eqn:Ek.
      * apply lookup_insert_ne. congruence.
      * destruct (decide (k ∈ rest)) as [Hin|Hout].
        -- rewrite decide_True; [done|]. by right.
        -- destruct (decide (k = service)) as [->|Hne].
           ++ rewrite lookup_insert_eq, decide_True; [done|]. left.
           ++ rewrite lookup_insert_ne by done. rewrite decide_False; [done|].
              intros Hk. apply elem_of_cons in Hk as [->|Hk]; done.
Qed.

Lemma report_run cause services results (s : State W) :
  report Components cause services results s =
    (Normal tt,
     {| world := world s; job := job s; rc := rc s;
        trace := trace s ++
          map (fun service =>
                 LogEvent (Components service).1 (Components service).2
                   (match results !! service with
                    | None => "Regrade " +:+ cause +:+ ": done"
                    | Some e => "Regrade " +:+ cause +:+ ": failed: " +:+ e
                    end)) services |}).
Proof.
  revert s. induction services as [|service rest IH]; intros s.
  - cbn. rewrite app_nil_r. by destruct s.
  - cbn [report map]. destruct (Components service) as [namespace serviceName].
    erewrite ReleaserFacts.bind_normal by reflexivity.
    rewrite IH. cbn. by rewrite <- !app_assoc.
Qed.

Lemma regraded_logs {A} (f : A -> Event) (l : list A) :
  (forall x, isCall (f x) = false) -> regraded (map f l) = [].
Proof.
  intros Hf. induction l as [|x l IH]; [done|]. cbn.
  specialize (Hf x). destruct (f x); try done.
Qed.

(** X18. The regrade action sends the platform one transaction, and only
    one, whatever happens next.  The transaction holds a spec for each
    service that has a definition in the release context, in the order of
    the services, with that definition; a service without a definition is
    left out of it.  The action does not touch the release context. *)
Theorem the_regrade_action_sends_what_is_stored (inst : string) (services : list string)
    (cause : string) (s : State W) :
  let r := runAction (regrade inst services cause) s in
  rc r.2 = rc s /\
  exists t, trace r.2 = trace s ++ t /\
            regraded t = [specsOf Components (rc s) services].
Proof.
  cbn zeta. unfold runAction, releaseActionRegradeServices, action. cbn [Do].
  unfold Releaser.observed.
  destruct (collectSpecs_run cause services ∅ [] s) as (results & t & Erun & Ht & _).
  erewrite ReleaserFacts.bind_normal by exact Erun. cbn [app].
  destruct (handle _ (PlatformRegrade inst (specsOf Components (rc s) services)) (world s))
    as [answer w1] eqn:Ecall.
  erewrite ReleaserFacts.bind_normal by (apply ReleaserFacts.call_run; exact Ecall).
  destruct answer as [[errs|e]|].
  - erewrite ReleaserFacts.bind_normal by reflexivity.
    erewrite ReleaserFacts.bind_normal by apply report_run.
    cbn. split; [done|]. eexists. split; [rewrite <- !app_assoc; reflexivity|].
    rewrite !regraded_app, Ht. cbn. by rewrite app_nil_r, regraded_logs.
  - erewrite ReleaserFacts.bind_panic by reflexivity.
    cbn. split; [done|]. eexists. split; [rewrite <- !app_assoc; reflexivity|].
    rewrite !regraded_app, Ht. done.
  - erewrite ReleaserFacts.bind_normal by reflexivity.
    erewrite ReleaserFacts.bind_normal by apply report_run.
    cbn. split; [done|]. eexists. split; [rewrite <- !app_assoc; reflexivity|].
    rewrite !regraded_app, Ht. cbn. by rewrite app_nil_r, regraded_logs.
Qed.

(** X19. What the regrade action says afterwards.  When the platform
    accepts the transaction, the action returns no error, also when
    services were left out of the transaction; after the call the history
    gets one event for every service, in order: "Regrade <cause>: done" for
    a service that had a definition, and "Regrade <cause>: failed: no pod
    controller in release context; skipping regrade" for one that had
    none.  When the platform returns an error that is no
    [platform.RegradeError], the action panics: the transaction was sent,
    no service gets an event about how it went, and the action is observed
    as a success. *)
Theorem the_regrade_action_reports_every_service (inst : string)
    (services : list string) (cause : string) (s : State W)
    (answer : option TransactionError) (w1 : W) :
  let r := runAction (regrade inst services cause) s in
  let sent := Called (PlatformRegrade inst (specsOf Components (rc s) services)) in
  let observed := Observe "ActionDuration"
                    ["action"; "regrade_services"; "success"; "true"] in
  let outcome service :=
    LogEvent (Components service).1 (Components service).2
      (match PodControllers (rc s) !! service with
       | Some _ => "Regrade " +:+ cause +:+ ": done"
       | None => "Regrade " +:+ cause +:+ ": failed: " +:+ skipped
       end) in
  handle _ (PlatformRegrade inst (specsOf Components (rc s) services)) (world s)
    = (answer, w1) ->
  (answer = None ->
     r.1 = Normal ("", None) /\
     exists t, trace r.2 = trace s ++ t ++ [sent] ++ map outcome services ++ [observed]) /\
  (forall e, answer = Some (OtherError e) ->
     r.1 = Panic "interface conversion: error is not platform.RegradeError" /\
     world r.2 = w1 /\
     exists t, trace r.2 = trace s ++ t ++ [sent; observed]).
Proof.
  intros r sent observed0 outcome Hcall. subst r.
  unfold runAction, releaseActionRegradeServices, action. cbn [Do].
  unfold Releaser.observed.
  destruct (collectSpecs_run cause services ∅ [] s) as (results & t & Erun & Ht & Hres).
  erewrite ReleaserFacts.bind_normal by exact Erun. cbn [app].
  erewrite ReleaserFacts.bind_normal by (apply ReleaserFacts.call_run; exact Hcall).
  split.
  - intros ->.
    erewrite ReleaserFacts.bind_normal by reflexivity.
    erewrite ReleaserFacts.bind_normal by apply report_run.
    cbn. split; [done|]. exists t. rewrite <- !app_assoc.
    assert (Hmap : map (fun service =>
                LogEvent (Components service).1 (Components service).2
                  (match results !! service with
                   | None => "Regrade " +:+ cause +:+ ": done"
                   | Some e => "Regrade " +:+ cause +:+ ": failed: " +:+ e
                   end)) services = map outcome services).
    { apply map_ext_in. intros service Hin. apply list_elem_of_In in Hin.
      unfold outcome. rewrite Hres.
      destruct (PodControllers (rc s) !! service); [done|].
      by rewrite decide_True. }
    by rewrite Hmap.
  - intros e ->.
    erewrite ReleaserFacts.bind_panic by reflexivity.
    cbn. split; [done|]. split; [done|]. exists t. by rewrite <- !app_assoc.
Qed.

(** *** The update action *)

Lemma written_app (t u : list Event) : written (t ++ u) = written t ++ written u.
Proof. unfold written. apply omap_app. Qed.

Lemma updateAll_run regrades : forall def (s : State W),
  exists res s',
    updateAll handle def regrades s = (Normal res, s') /\ rc s' = rc s /\
    exists t, trace s' = trace s ++ t /\ written t = [].
Proof.
  induction regrades as [|regrade rest IH]; intros def s.
  - exists (Ok def), s. split; [done|]. split; [done|]. exists []. by rewrite app_nil_r.
  - cbn [updateAll].
    destruct (handle _ (UpdatePodController def (target regrade)) (world s))
      as [answer w1] eqn:E.
    erewrite ReleaserFacts.bind_normal by (apply ReleaserFacts.call_run; exact E).
    destruct answer as [def'|e].
    + match goal with |- context [updateAll _ _ _ ?s1] =>
        destruct (IH def' s1) as (res & s' & Erun & Hrc & t & Ht & Hw) end.
      exists res, s'. split; [exact Erun|]. split; [exact Hrc|].
      eexists. split; [rewrite Ht; cbn [trace]; rewrite <- app_assoc; reflexivity|].
      cbn. exact Hw.
    + eexists _, _. split; [reflexivity|]. split; [done|].
      eexists [_]. split; [reflexivity|]. done.
Qed.

(** X20. The update action and the release context.  If the action returns
    "Update pod controller OK.", it wrote exactly one file, once, and the
    definition it stored in the release context under the service is the
    data it wrote: what the platform is later asked to run is what was
    committed.  If the action ends in any other way, the release context
    is as it was. *)
Theorem the_update_action_stores_what_it_wrote (service : string)
    (regrades : list containerRegrade) (s : State W) :
  let r := runAction (update service regrades) s in
  (r.1 = Normal ("Update pod controller OK.", None) ->
     exists t file def,
       trace r.2 = trace s ++ t /\ written t = [(file, def)] /\
       rc r.2 = {| RepoPath := RepoPath (rc s); RepoKey := RepoKey (rc s);
                   PodControllers := <[service := def]> (PodControllers (rc s)) |}) /\
  (r.1 <> Normal ("Update pod controller OK.", None) -> rc r.2 = rc s).
Proof.
  cbn zeta. unfold runAction, releaseActionUpdatePodController, action. cbn [Do].
  unfold Releaser.observed.
  erewrite ReleaserFacts.bind_normal by reflexivity.
  set (resourcePath := filepathJoin (RepoPath (rc s)) repoPath).
  destruct (handle _ (Stat resourcePath) (world s)) as [fi w1] eqn:E1.
  erewrite ReleaserFacts.bind_normal by (apply ReleaserFacts.call_run; exact E1).
  destruct (notADirectory fi); [cbn; split; [discriminate|done]|].
  destruct (Components service) as [namespace serviceName].
  destruct (handle _ (FilesFor resourcePath namespace serviceName) w1) as [files w2] eqn:E2.
  erewrite ReleaserFacts.bind_normal by (apply ReleaserFacts.call_run; exact E2).
  destruct files as [files|e]; [|cbn; split; [discriminate|done]].
  destruct (decide (length files <= 0)); [cbn; split; [discriminate|done]|].
  destruct (decide (1 < length files)); [cbn; split; [discriminate|done]|].
  set (file := default "" (files !! 0)).
  destruct (handle _ (ReadFile file) w2) as [def w3] eqn:E3.
  erewrite ReleaserFacts.bind_normal by (apply ReleaserFacts.call_run; exact E3).
  destruct def as [def|e]; [|cbn; split; [discriminate|done]].
  destruct (handle _ (Stat file) w3) as [fi2 w4] eqn:E4.
  erewrite ReleaserFacts.bind_normal by (apply ReleaserFacts.call_run; exact E4).
  destruct fi2 as [fi2|e]; [|cbn; split; [discriminate|done]].
  cbn [world job rc trace].
  match goal with |- context [(_ ≫= _) ?s1] =>
    destruct (updateAll_run regrades def s1) as (res & s5 & E5 & Hrc & t & Ht & Hw) end.
  erewrite ReleaserFacts.bind_normal by exact E5.
  cbn [rc trace] in Hrc, Ht.
  destruct res as [def'|e]; [|cbn; split; [discriminate|intros _; exact Hrc]].
  destruct (handle _ (WriteFile file def' (Mode fi2)) (world s5)) as [answer w6] eqn:E6.
  erewrite ReleaserFacts.bind_normal by (apply ReleaserFacts.call_run; exact E6).
  destruct answer as [e|]; [cbn; split; [discriminate|intros _; exact Hrc]|].
  erewrite ReleaserFacts.bind_normal by reflexivity.
  cbn. split; [|done]. intros _.
  eexists _, file, def'. rewrite Hrc. split; [|split; [|reflexivity]].
  - rewrite Ht, <- !app_assoc. reflexivity.
  - rewrite !written_app, Hw. reflexivity.
Qed.

(** ** What [Release] observes *)

(** X21. The last thing every call of [Release] leaves is the observation
    of its own duration.  Its labels are the release type, "unknown" when
    the call was turned away at the semaphore; the kind of the job; and
    whether it succeeded.  The call counts as failed exactly when it
    returns an error: a call that panics is observed as a success, since
    the deferred closure reads the result [err], which a panic leaves
    nil. *)
Theorem Release_ends_with_its_observation (p : Process W) :
  let j := job (state p) in
  let releaseType := if decide (semaphore p < maxSimultaneousReleases)
                     then releaseTypeOf (Spec j) else "unknown" in
  let success := match (Release p).1 with Normal (Some _) => false | _ => true end in
  exists t,
    trace (state (Release p).2) =
      t ++ [Observe "ReleaseDuration"
              ["release_type"; releaseType; "release_kind"; SprintKind (Kind (Spec j));
               "success"; SprintBool success]].
Proof.
  cbn zeta. unfold Releaser.Release, trySend.
  destruct (decide (semaphore p < maxSimultaneousReleases)) as [Hfree|Hfull].
  - destruct (lift _ _) as [o p2].
    unfold lift, observeRelease, receive. cbn. by eexists.
  - unfold lift, observeRelease. cbn. by eexists.
Qed.

End Runs.

(** ** The properties in the deployment of the examples *)

Import Releaser.Example ReleaserRuns.Example.

Lemma execute_stops_at_the_first_failure_witness :
  exists res e s',
    execute calmHandle toySprintf (failingPlan ++ afterwards) ReleaseKindExecute
      (s0 executeJob) = (Normal (res ++ afterwards, Some e), s').
Proof.
  destruct (execute calmHandle toySprintf failingPlan ReleaseKindExecute (s0 executeJob))
    as [[[res [e|]]|v] s'] eqn:E.
  - exists res, e, s'.
    exact (proj1 (execute_stops_at_the_first_failure calmHandle toySprintf failingPlan
                    afterwards ReleaseKindExecute (s0 executeJob) s') res e E).
  - vm_compute in E. discriminate E.
  - vm_compute in E. discriminate E.
Defined.

Lemma Release_rejects_a_service_that_does_not_parse_witness :
  (strictRelease (p0 (toyJob "helloworld" "<all latest>" ReleaseKindExecute) 0)).1 =
    Normal (Some "parsing service ID from spec helloworld: invalid service ID").
Proof.
  unfold strictRelease.
  rewrite (Release_rejects_a_service_that_does_not_parse calmHandle (fun s => s) beforeColon
             toyComponents strictParseServiceID toyJoin "resources" toySprintf
             "<all>" "<all latest>" "<no updates>"
             (p0 (toyJob "helloworld" "<all latest>" ReleaseKindExecute) 0)
             "invalid service ID").
  - reflexivity.
  - unfold maxSimultaneousReleases. simpl. lia.
  - discriminate.
  - reflexivity.
Defined.

Lemma excluded_service_is_ignored_witness :
  (releaseOne calmHandle (fun s => s) beforeColon toyComponents toyParseServiceID toyJoin
     "resources" toySprintf "instance" "default/helloworld" newImage ReleaseKindExecute
     {[ "default/helloworld" ]} (s0 executeJob)).1 = Normal None.
Proof.
  assert (Hin : "default/helloworld" ∈ ({[ "default/helloworld" ]} : gset string))
    by (apply elem_of_singleton; reflexivity).
  destruct (excluded_service_is_ignored calmHandle (fun s => s) beforeColon toyComponents
              toyParseServiceID toyJoin "resources" toySprintf "instance"
              "default/helloworld" newImage ReleaseKindExecute {[ "default/helloworld" ]}
              (s0 executeJob) Hin) as [H _].
  exact (proj1 H).
Defined.

Lemma a_release_of_all_needs_the_services_witness :
  (releaseAllToLatest downHandle (fun s => s) beforeColon toyComponents toyParseServiceID
     toyJoin "resources" toySprintf "instance" ReleaseKindExecute ∅ (s0 executeJob)).1 =
    Normal (Some "fetching all platform services: platform unreachable").
Proof.
  rewrite (proj1 (a_release_of_all_needs_the_services downHandle (fun s => s) beforeColon
                    toyComponents toyParseServiceID toyJoin "resources" toySprintf
                    "instance" newImage ReleaseKindExecute ∅ (s0 executeJob)
                    "platform unreachable" 0 eq_refl)).
  reflexivity.
Defined.

Lemma a_planned_release_mutates_nothing_witness :
  added dry (s0 (toyJob "<all>" "<all latest>" ReleaseKindPlan))
    (state (toyRelease ["helloworld.yaml"] toyRegistry None
              (p0 (toyJob "<all>" "<all latest>" ReleaseKindPlan) 0)).2).
Proof.
  exact (a_planned_release_mutates_nothing (toyHandle ["helloworld.yaml"] toyRegistry None)
           (fun s => s) beforeColon toyComponents toyParseServiceID toyJoin "resources"
           toySprintf "<all>" "<all latest>" "<no updates>"
           (p0 (toyJob "<all>" "<all latest>" ReleaseKindPlan) 0) eq_refl).
Defined.

Lemma the_commit_action_checks_the_checkout_witness :
  (runAction (releaseActionCommitAndPush calmHandle "Release") (s0 executeJob)).1 =
    Normal ("Pushed commit: Release", None).
Proof.
  destruct (the_commit_action_checks_the_checkout calmHandle "Release" (s0 executeJob)
              (Ok {| IsDir := true; Mode := 420 |}) 0 eq_refl) as [_ H].
  specialize (H eq_refl (Ok {| IsDir := true; Mode := 420 |}) 0 eq_refl "" None 1 eq_refl).
  rewrite H. reflexivity.
Defined.

Lemma the_find_action_by_file_count_witness :
  (runAction (releaseActionFindPodController calmHandle toyComponents toyJoin "resources"
                "default/helloworld") (s0 executeJob)).1 =
    Normal ("Found pod controller OK.", None).
Proof.
  destruct (the_find_action_by_file_count calmHandle toyComponents toyJoin "resources"
              "default/helloworld" (s0 executeJob) {| IsDir := true; Mode := 420 |} 0
              ["helloworld.yaml"] 0 eq_refl eq_refl eq_refl) as (_ & _ & H & _).
  exact (proj1 (H "helloworld.yaml"
                  (Ok "image: quay.io/weaveworks/helloworld:master-a000001") 0
                  eq_refl eq_refl)).
Defined.

Lemma the_regrade_action_reports_every_service_witness :
  (runAction (releaseActionRegradeServices calmHandle toyComponents toyParseServiceID
                "instance" ["default/helloworld"] "without update") (s0 executeJob)).1 =
    Normal ("", None).
Proof.
  destruct (the_regrade_action_reports_every_service calmHandle toyComponents
              toyParseServiceID "instance" ["default/helloworld"] "without update"
              (s0 executeJob) None 1 eq_refl) as [H _].
  exact (proj1 (H eq_refl)).
Defined.

Lemma the_update_action_stores_what_it_wrote_witness :
  exists def,
    PodControllers (rc (runAction (toyUpdate ["helloworld.yaml"]) (s0 executeJob)).2)
      !! "default/helloworld" = Some def.
Proof.
  destruct (the_update_action_stores_what_it_wrote calmHandle toyComponents toyJoin
              "resources" "default/helloworld"
              [ {| container := "goodbyeworld";
                   current := "quay.io/weaveworks/helloworld:master-a000001";
                   target := newImage |} ] (s0 executeJob)) as [H _].
  destruct H as (t & file & def & _ & _ & Hrc); [vm_compute; reflexivity|].
  exists def. unfold toyUpdate. fold calmHandle. rewrite Hrc. cbn [PodControllers].
  apply lookup_insert_eq.
Defined.

End ReleaserMore.

(* ===================================================================== *)
(** * Whole passes of the warmer                                          *)
(* ===================================================================== *)

Module WarmerMore.

Import Releaser (result, Ok, Err, Wrap).
Import Warmer WarmerRuns.

Section Runs.

Context {W : Type}.
Variable handle : forall X, Call X -> W -> X * W.
Variable NewTagKey : string -> ImageID -> result string.
Variable NewManifestKey : string -> ImageID -> result string.
Variable MarshalTags : list string -> result string.
Variable MarshalImage : ImageInfo -> result string.

Abbreviation warm := (warm handle NewTagKey NewManifestKey MarshalTags MarshalImage).
Abbreviation warmWith := (warmWith handle NewTagKey NewManifestKey MarshalTags MarshalImage).
Abbreviation fanOut := (fanOut handle NewManifestKey MarshalImage).
Abbreviation fetchEach := (fetchEach handle NewManifestKey MarshalImage).
Abbreviation fetch := (fetch handle NewManifestKey MarshalImage).
Abbreviation examineAll := (examineAll handle NewManifestKey).
Abbreviation examine := (examine handle NewManifestKey).
Abbreviation call := (call handle).

(** ** What a pass adds to the events *)

Section Adding.

Variable ok : Event -> Prop.
Hypothesis ok_logged : forall keyvals, ok (Logged keyvals).

Lemma adds_ret {A} (a : A) : adds (W:=W) ok (mret a).
Proof. intros s. exists []. by rewrite app_nil_r. Qed.

Lemma adds_bind {A B} (m : M W A) (f : A -> M W B) :
  adds ok m -> (forall a, adds ok (f a)) -> adds ok (m ≫= f).
Proof.
  intros Hm Hf s. rewrite WarmerFacts.warm_bind.
  destruct (Hm s) as (t1 & E1 & H1). destruct (Hf (m s).1 (m s).2) as (t2 & E2 & H2).
  exists (t1 ++ t2). rewrite E2, E1, <- app_assoc. split; [done|]. by apply Forall_app.
Qed.

Lemma adds_call {X} (c : Call X) : ok (Called c) -> adds ok (call c).
Proof.
  intros H s. exists [Called c]. rewrite WarmerFacts.warm_call. split; [done|].
  by repeat constructor.
Qed.

Lemma adds_Log keyvals : adds (W:=W) ok (Log keyvals).
Proof. intros s. exists [Logged keyvals]. split; [done|]. by repeat constructor. Qed.

Ltac adds_step :=
  match goal with
  | |- adds _ (mret _) => apply adds_ret
  | |- adds _ (Log _) => apply adds_Log
  | |- adds _ (Until _ _) => unfold Until
  | |- adds _ (Warmer.call _ _) => apply adds_call; try solve [auto]
  | |- adds _ (_ ≫= _) => apply adds_bind; [|intros ?]
  | |- adds _ (match ?x with _ => _ end) => destruct x eqn:?
  end.

Ltac adds_tac := repeat adds_step.

Lemma examine_adds username id acc tag :
  (forall key, ok (Called (GetExpiration key))) ->
  ok (Called Now) ->
  adds ok (examine username id acc tag).
Proof. intros H1 H2. unfold Warmer.examine. adds_tac. Qed.

Lemma examineAll_adds username id tags : forall acc,
  (forall key, ok (Called (GetExpiration key))) ->
  ok (Called Now) ->
  adds ok (examineAll username id acc tags).
Proof.
  induction tags as [|tag rest IH]; intros acc H1 H2; cbn [Warmer.examineAll].
  - apply adds_ret.
  - apply adds_bind; [by apply examine_adds|]. intros acc'. by apply IH.
Qed.

Lemma fetch_adds client username imageID :
  (forall c i, ok (Called (Manifest c i))) ->
  (forall kv, manifestEntry NewManifestKey MarshalImage username kv ->
              ok (Called (SetKey kv.1 kv.2))) ->
  adds ok (fetch client username imageID).
Proof.
  intros H1 H2. unfold Warmer.fetch. adds_tac.
  match goal with |- ok (Called (SetKey ?k ?v)) => apply (H2 (k, v)) end.
  eexists. split; eassumption.
Qed.

Lemma fetchEach_adds client username toUpdate : forall n,
  (forall c i, ok (Called (Manifest c i))) ->
  (forall kv, manifestEntry NewManifestKey MarshalImage username kv ->
              ok (Called (SetKey kv.1 kv.2))) ->
  adds ok (fetchEach client username toUpdate n).
Proof.
  induction toUpdate as [|i rest IH]; intros n H1 H2; cbn [Warmer.fetchEach].
  - apply adds_ret.
  - apply adds_bind; [by apply fetch_adds|]. intros updated. by apply IH.
Qed.

Lemma fanOut_adds w client username id toUpdate :
  (forall c i, ok (Called (Manifest c i))) ->
  (forall kv, manifestEntry NewManifestKey MarshalImage username kv ->
              ok (Called (SetKey kv.1 kv.2))) ->
  adds ok (fanOut w client username id toUpdate).
Proof.
  intros H1 H2. unfold Warmer.fanOut. adds_tac. by apply fetchEach_adds.
Qed.

Lemma warmWith_adds w client id :
  ok (Called (Tags client id)) ->
  ok (Called Now) ->
  (forall key, ok (Called (GetExpiration key))) ->
  (forall c i, ok (Called (Manifest c i))) ->
  (forall kv, tagsEntry NewTagKey MarshalTags (credsFor w (Host id)) id kv \/
              manifestEntry NewManifestKey MarshalImage (credsFor w (Host id)) kv ->
              ok (Called (SetKey kv.1 kv.2))) ->
  adds ok (warmWith w client id).
Proof.
  intros Htags Hnow Hget Hman Hset. unfold Warmer.warmWith.
  adds_tac; first [by apply examineAll_adds | by apply fanOut_adds; auto | idtac].
  match goal with |- ok (Called (SetKey ?k ?v)) => apply (Hset (k, v)) end.
  left. split; [eassumption|]. eexists. eassumption.
Qed.

(** What follows the loop over the tags. *)
Lemma afterLoop_adds w client username id (total : nat)
    (lists : list ImageID * list ImageID) :
  ok (Called (Cancel client)) ->
  (forall c i, ok (Called (Manifest c i))) ->
  (forall kv, manifestEntry NewManifestKey MarshalImage username kv ->
              ok (Called (SetKey kv.1 kv.2))) ->
  adds ok
    (ending ← (if decide (0 < length lists.1 + length lists.2)
               then
                 _ ← Log ["fetching"; HostNamespaceImage id;
                          "total"; pretty total;
                          "expiring"; pretty (length lists.1);
                          "missing"; pretty (length lists.2)];
                 fanOut w client username id (lists.2 ++ lists.1)
               else mret Returned);
     match ending with
     | Blocked => mret Blocked
     | _ => _ ← call (Cancel client); mret ending
     end).
Proof. intros H1 H2 H3. adds_tac. by apply fanOut_adds. Qed.

Lemma warm_adds w id creds :
  (forall X (c : Call X),
      match c with SetKey _ _ => True | _ => ok (Called c) end) ->
  (forall kv, tagsEntry NewTagKey MarshalTags (credsFor w (Host id)) id kv \/
              manifestEntry NewManifestKey MarshalImage (credsFor w (Host id)) kv ->
              ok (Called (SetKey kv.1 kv.2))) ->
  adds ok (warm w id creds).
Proof.
  intros Hcalls Hset. unfold Warmer.warm.
  adds_tac; first [ by apply (Hcalls _ (ClientFor _ _))
                  | by apply (Hcalls _ (Cancel _))
                  | idtac ];
  (apply warmWith_adds;
    [ apply (Hcalls _ (Tags _ _)) | apply (Hcalls _ Now)
    | intros; apply (Hcalls _ (GetExpiration _))
    | intros; apply (Hcalls _ (Manifest _ _)) | exact Hset ]).
Qed.

End Adding.

Ltac run :=
  repeat (rewrite ?WarmerFacts.warm_bind, ?WarmerFacts.warm_call; unfold Log, mret, M_ret;
          cbn [fst snd world trace]).

Lemma cancelled_none (t : list Event) : Forall noCancel t -> cancelled t = [].
Proof.
  induction 1 as [|e t He _ IH]; [done|].
  destruct e as [X c|]; [destruct c|]; try (by destruct He); exact IH.
Qed.

Lemma stored_only (P : string * string -> Prop) (t : list Event) :
  Forall (writesOnly P) t -> Forall P (stored t).
Proof.
  induction 1 as [|e t He _ IH]; [constructor|].
  destruct e as [X c|]; [destruct c|]; try exact IH.
  constructor; [exact He|exact IH].
Qed.

Lemma stored_app (t u : list Event) : stored (t ++ u) = stored t ++ stored u.
Proof. unfold stored. apply omap_app. Qed.

(** ** The deferred [Cancel] *)

(** X22. The client of a pass is cancelled exactly when the pass ends.  If
    the factory gives no client, [warm] logs the error and returns, and
    cancels nothing.  If it gives one, nothing is cancelled while the pass
    runs, and when the pass returns or panics the last thing it does is to
    cancel that client; a pass that blocks never cancels it. *)
Theorem warm_cancels_the_client_it_made (w : Warmer) (id : ImageID)
    (creds : string) (s : State W) :
  let r := warm w id creds s in
  match (handle _ (ClientFor (Host id) creds) (world s)).1 with
  | Err e =>
      r.1 = Returned /\
      trace r.2 = trace s ++ [Called (ClientFor (Host id) creds); Logged ["err"; e]]
  | Ok client =>
      exists t, cancelled t = [] /\
        trace r.2 = trace s ++ Called (ClientFor (Host id) creds) :: t ++
          match r.1 with
          | Blocked => []
          | _ => [Called (Cancel client)]
          end
  end.
Proof.
  intros r. subst r. unfold Warmer.warm. rewrite WarmerFacts.warm_bind, WarmerFacts.warm_call.
  cbn [fst snd].
  destruct (handle _ (ClientFor (Host id) creds) (world s)) as [[client|e] w1]; cbn [fst snd].
  - rewrite WarmerFacts.warm_bind.
    set (s1 := {| world := w1; trace := _ |}).
    destruct (warmWith_adds noCancel (fun _ => I) w client id I I (fun _ => I)
                (fun _ _ => I) (fun _ _ => I) s1) as (t & Et & Ht).
    apply cancelled_none in Ht. exists t. split; [exact Ht|].
    destruct (warmWith w client id s1) as [ending s2]. cbn [fst snd] in *.
    destruct ending; run; rewrite Et; unfold s1; cbn [trace];
      rewrite <- ?app_assoc; cbn [app]; by rewrite ?app_nil_r.
  - run. split; [done|]. by rewrite <- app_assoc.
Qed.

(** ** When the registry does not list the tags *)

(** X23. The client was made but the registry does not list the tags of the
    image.  Then the pass ends there: it writes nothing to the cache, looks
    up no expiration and fetches no manifest, cancels the client and
    returns.  The error is logged, wrapped as [requesting tags], unless its
    text says that a deadline was exceeded or that the request was
    cancelled; then the pass says nothing. *)
Theorem warm_gives_up_without_the_tags (w : Warmer) (id : ImageID)
    (creds : string) (s : State W) client w1 e w2 :
  handle _ (ClientFor (Host id) creds) (world s) = (Ok client, w1) ->
  handle _ (Tags client id) w1 = (Err e, w2) ->
  warm w id creds s =
    (Returned,
     {| world := (handle _ (Cancel client) w2).2;
        trace := trace s ++
          [Called (ClientFor (Host id) creds); Called (Tags client id)] ++
          (if Contains e "context deadline exceeded"
              || Contains e "net/http: request canceled"
           then [] else [Logged ["err"; Wrap e "requesting tags"]]) ++
          [Called (Cancel client)] |}).
Proof.
  intros Hclient Htags.
  unfold Warmer.warm. rewrite WarmerFacts.warm_bind, WarmerFacts.warm_call, Hclient.
  cbn [fst snd]. rewrite WarmerFacts.warm_bind. unfold Warmer.warmWith.
  rewrite WarmerFacts.warm_bind, WarmerFacts.warm_call. cbn [world trace].
  rewrite Htags. cbn [fst snd]. unfold worthLogging.
  destruct (Contains e "context deadline exceeded"); cbn [negb andb orb].
  - run. by rewrite <- !app_assoc.
  - destruct (Contains e "net/http: request canceled"); cbn [negb andb orb]; run;
      by rewrite <- !app_assoc.
Qed.

(** ** The loop over the tags *)

Lemma manifestKeys_cons username id tag rest :
  manifestKeys NewManifestKey username id (tag :: rest) =
    match NewManifestKey username (WithNewTag id tag) with
    | Ok key => [key]
    | Err _ => []
    end ++ manifestKeys NewManifestKey username id rest.
Proof.
  unfold manifestKeys. cbn. by destruct (NewManifestKey username (WithNewTag id tag)).
Qed.

Lemma examine_examined username id acc tag (s : State W) :
  examined (trace (examine username id acc tag s).2) =
    examined (trace s) ++ manifestKeys NewManifestKey username id [tag].
Proof.
  rewrite manifestKeys_cons. change (manifestKeys _ _ _ []) with (@nil string).
  rewrite app_nil_r.
  unfold Warmer.examine. destruct acc as [expiring missing].
  destruct (NewManifestKey username (WithNewTag id tag)) as [key|e].
  - rewrite WarmerFacts.warm_bind, WarmerFacts.warm_call. cbn [fst snd].
    destruct (handle _ (GetExpiration key) (world s)) as [[expiry| |e] wk]; cbn [fst snd].
    + unfold Until. run. destruct (_ <? _)%Z; cbn [snd trace];
        rewrite !WarmerFacts.examined_app; cbn; by rewrite app_nil_r.
    + run. by rewrite WarmerFacts.examined_app.
    + run. rewrite !WarmerFacts.examined_app. cbn. by rewrite app_nil_r.
  - run. rewrite WarmerFacts.examined_app. done.
Qed.

Lemma examineAll_examined username id tags : forall acc (s : State W),
  examined (trace (examineAll username id acc tags s).2) =
    examined (trace s) ++ manifestKeys NewManifestKey username id tags.
Proof.
  induction tags as [|tag rest IH]; intros acc s; cbn [Warmer.examineAll].
  - cbn. by rewrite app_nil_r.
  - rewrite WarmerFacts.warm_bind, IH, examine_examined, <- app_assoc.
    f_equal. rewrite !manifestKeys_cons.
    change (manifestKeys _ _ _ []) with (@nil string). by rewrite app_nil_r.
Qed.

(** The pass up to the loop over the tags, and from there on. *)
Lemma warm_from_the_loop (w : Warmer) (id : ImageID) (creds : string)
    (s : State W) client w1 tags w2 val key w3 :
  handle _ (ClientFor (Host id) creds) (world s) = (Ok client, w1) ->
  handle _ (Tags client id) w1 = (Ok tags, w2) ->
  MarshalTags tags = Ok val ->
  NewTagKey (credsFor w (Host id)) id = Ok key ->
  handle _ (SetKey key val) w2 = (None, w3) ->
  let username := credsFor w (Host id) in
  let looped := examineAll username id ([], []) tags
                  (loopStart s w3 client creds id key val) in
  warm w id creds s =
    (ending ← (if decide (0 < length looped.1.1 + length looped.1.2)
               then
                 _ ← Log ["fetching"; HostNamespaceImage id;
                          "total"; pretty (length tags);
                          "expiring"; pretty (length looped.1.1);
                          "missing"; pretty (length looped.1.2)];
                 fanOut w client username id (looped.1.2 ++ looped.1.1)
               else mret Returned);
     match ending with
     | Blocked => mret Blocked
     | _ => _ ← call (Cancel client); mret ending
     end) looped.2.
Proof.
  intros Hclient Htags Hval Hkey Hset username looped.
  unfold Warmer.warm. rewrite WarmerFacts.warm_bind, WarmerFacts.warm_call, Hclient.
  cbn [fst snd]. rewrite !WarmerFacts.warm_bind. unfold Warmer.warmWith.
  rewrite WarmerFacts.warm_bind, WarmerFacts.warm_call.
  cbn [world trace]. rewrite Htags. cbn [fst snd]. rewrite Hval, Hkey.
  rewrite WarmerFacts.warm_bind, WarmerFacts.warm_call. cbn [world trace]. rewrite Hset.
  cbn [fst snd]. rewrite WarmerFacts.warm_bind.
  change {| world := w3; trace := _ |} with (loopStart s w3 client creds id key val).
  fold username. fold looped. by destruct looped as [[expiring missing] s4].
Qed.

Lemma loopStart_fetched (s : State W) w3 client creds id key val :
  fetched (trace (loopStart s w3 client creds id key val)) = fetched (trace s).
Proof.
  unfold loopStart. cbn [trace]. rewrite !WarmerFacts.fetched_app. cbn.
  by rewrite !app_nil_r.
Qed.

Lemma loopStart_examined (s : State W) w3 client creds id key val :
  examined (trace (loopStart s w3 client creds id key val)) = examined (trace s).
Proof.
  unfold loopStart. cbn [trace]. rewrite !WarmerFacts.examined_app. cbn.
  by rewrite !app_nil_r.
Qed.

Lemma examined_none (t : list Event) : Forall noLookup t -> examined t = [].
Proof.
  induction 1 as [|e t He _ IH]; [done|].
  destruct e as [X c|]; [destruct c|]; try (by destruct He); exact IH.
Qed.

(** X24. One warm pass in which the client was made, the registry returned
    the tags and the tag list was written to the cache, every manifest key
    can be made or not: the pass looks up the expiration of the manifest of
    every tag for which a key can be made, once and in the order of the
    tags, and looks up nothing else, whatever [Burst] is and however the
    pass ends.  A tag whose key cannot be made is passed over. *)
Theorem warm_looks_up_every_tag_once (w : Warmer) (id : ImageID) (creds : string)
    (s : State W) client w1 tags w2 val key w3 :
  handle _ (ClientFor (Host id) creds) (world s) = (Ok client, w1) ->
  handle _ (Tags client id) w1 = (Ok tags, w2) ->
  MarshalTags tags = Ok val ->
  NewTagKey (credsFor w (Host id)) id = Ok key ->
  handle _ (SetKey key val) w2 = (None, w3) ->
  examined (trace (warm w id creds s).2) =
    examined (trace s) ++ manifestKeys NewManifestKey (credsFor w (Host id)) id tags.
Proof.
  intros Hclient Htags Hval Hkey Hset.
  rewrite (warm_from_the_loop w id creds s client w1 tags w2 val key w3
             Hclient Htags Hval Hkey Hset). cbv zeta.
  pose proof (examineAll_examined (credsFor w (Host id)) id tags ([], [])
                (loopStart s w3 client creds id key val)) as He.
  rewrite loopStart_examined in He.
  destruct (examineAll _ _ _ _ (loopStart s w3 client creds id key val))
    as [lists s4]. cbn [fst snd] in *.
  destruct (afterLoop_adds noLookup (fun _ => I) w client (credsFor w (Host id)) id
              (length tags) lists I (fun _ _ => I) (fun _ _ => I) s4) as (t & Et & Ht).
  rewrite Et, WarmerFacts.examined_app, He, (examined_none t Ht). by rewrite app_nil_r.
Qed.

(** X25. The same pass when [Burst] leaves no room for a fetch, that is when
    it is zero or negative.  If the loop over the tags put nothing on its
    two lists, the pass returns as with any other [Burst].  If it put
    something there, a negative [Burst] makes the pass panic where the
    channel is made, and a [Burst] of zero makes it block for ever at the
    first send.  In none of the three cases is a manifest fetched. *)
Theorem warm_without_room_for_a_fetch (w : Warmer) (id : ImageID) (creds : string)
    (s : State W) client w1 tags w2 val key w3 :
  handle _ (ClientFor (Host id) creds) (world s) = (Ok client, w1) ->
  handle _ (Tags client id) w1 = (Ok tags, w2) ->
  MarshalTags tags = Ok val ->
  NewTagKey (credsFor w (Host id)) id = Ok key ->
  handle _ (SetKey key val) w2 = (None, w3) ->
  (Burst w <= 0)%Z ->
  let lists := (examineAll (credsFor w (Host id)) id ([], []) tags
                  (loopStart s w3 client creds id key val)).1 in
  (warm w id creds s).1 =
    (if decide (lists = ([], [])) then Returned
     else if decide (Burst w < 0)%Z then Panicked "makechan: size out of range"
     else Blocked) /\
  fetched (trace (warm w id creds s).2) = fetched (trace s).
Proof.
  intros Hclient Htags Hval Hkey Hset Hburst lists. subst lists.
  rewrite (warm_from_the_loop w id creds s client w1 tags w2 val key w3
             Hclient Htags Hval Hkey Hset). cbv zeta.
  pose proof (WarmerFacts.examineAll_fetched handle NewManifestKey
                (credsFor w (Host id)) id ([], []) tags
                (loopStart s w3 client creds id key val)) as Hf.
  rewrite loopStart_fetched in Hf.
  destruct (examineAll _ _ _ _ (loopStart s w3 client creds id key val))
    as [[expiring missing] s4]. cbn [fst snd] in *.
  destruct (decide ((expiring, missing) = ([], []))) as [[= -> ->]|Hsome].
  - cbn [length]. destruct (decide (0 < 0 + 0)); [lia|]. run. split; [done|].
    rewrite WarmerFacts.fetched_app, Hf. cbn. by rewrite app_nil_r.
  - assert (Hupd : missing ++ expiring <> []).
    { intros E. apply app_eq_nil in E as [-> ->]. by apply Hsome. }
    destruct (decide (0 < length expiring + length missing)) as [_|Hnone].
    2: { destruct expiring, missing; cbn in Hnone; first [done | lia]. }
    rewrite WarmerFacts.warm_bind. run. unfold Warmer.fanOut.
    destruct (decide (Burst w < 0)%Z) as [Hneg|Hzero].
    + apply Z.ltb_lt in Hneg. rewrite Hneg. run. split; [done|].
      rewrite !WarmerFacts.fetched_app, Hf. cbn. by rewrite !app_nil_r.
    + assert (Hge : (Burst w <? 0)%Z = false) by (apply Z.ltb_ge; lia).
      assert (Heq : (Burst w =? 0)%Z = true) by (apply Z.eqb_eq; lia).
      rewrite Hge, Heq, bool_decide_eq_false_2 by exact Hupd. cbn [negb andb]. run.
      split; [done|]. rewrite !WarmerFacts.fetched_app, Hf. cbn. by rewrite !app_nil_r.
Qed.

(** X26. What a pass writes to the cache, in every case: nothing but the
    tag list of the image, serialised, under the tag key of the image, and
    images, serialised, each under the manifest key made from the
    identifier the registry gave in its answer (not from the one that was
    asked for). *)
Theorem warm_writes_tag_lists_and_manifests (w : Warmer) (id : ImageID)
    (creds : string) (s : State W) :
  exists t,
    trace (warm w id creds s).2 = trace s ++ t /\
    Forall (fun kv =>
              tagsEntry NewTagKey MarshalTags (credsFor w (Host id)) id kv \/
              manifestEntry NewManifestKey MarshalImage (credsFor w (Host id)) kv)
           (stored t).
Proof.
  destruct (warm_adds
              (writesOnly (fun kv =>
                 tagsEntry NewTagKey MarshalTags (credsFor w (Host id)) id kv \/
                 manifestEntry NewManifestKey MarshalImage (credsFor w (Host id)) kv))
              (fun _ => I) w id creds) with (s := s) as (t & Et & Ht).
  - intros X c. by destruct c.
  - intros [k v] H. exact H.
  - exists t. split; [exact Et|]. by apply stored_only.
Qed.

End Runs.

(** ** The example registry and cache *)

Import Warmer.Example WarmerRuns.Example.

Lemma warm_gives_up_without_the_tags_witness :
  (slowWarm s0).1 = Returned /\
  trace (slowWarm s0).2 =
    [Called (ClientFor "quay.io" "secret"); Called (Tags 7 image); Called (Cancel 7)].
Proof.
  unfold slowWarm.
  rewrite (warm_gives_up_without_the_tags slowHandle toyTagKey toyManifestKey
             toyMarshalTags toyMarshalImage (warmer 1) image "secret" s0 7 []
             "Get https://quay.io/v2/: context deadline exceeded" [] eq_refl eq_refl).
  split; reflexivity.
Defined.

Lemma warm_looks_up_every_tag_once_witness :
  examined (trace (toyWarm None 0 s0).2) =
    [keyOf "user" (WithNewTag image "v1"); keyOf "user" (WithNewTag image "v2");
     keyOf "user" (WithNewTag image "v3")].
Proof.
  unfold toyWarm.
  rewrite (warm_looks_up_every_tag_once (toyHandle None) toyTagKey toyManifestKey
             toyMarshalTags toyMarshalImage (warmer 0) image "secret" s0
             7 [] ["v1"; "v2"; "v3"] [] "v1,v2,v3" "user|quay.io/weaveworks/helloworld"
             ["user|quay.io/weaveworks/helloworld"]
             eq_refl eq_refl eq_refl eq_refl eq_refl).
  reflexivity.
Defined.

Lemma warm_without_room_for_a_fetch_witness :
  (toyWarm None 0 s0).1 = Blocked /\
  (toyWarm None (-1) s0).1 = Panicked "makechan: size out of range".
Proof.
  split.
  - destruct (warm_without_room_for_a_fetch (toyHandle None) toyTagKey toyManifestKey
                toyMarshalTags toyMarshalImage (warmer 0) image "secret" s0
                7 [] ["v1"; "v2"; "v3"] [] "v1,v2,v3"
                "user|quay.io/weaveworks/helloworld"
                ["user|quay.io/weaveworks/helloworld"]
                eq_refl eq_refl eq_refl eq_refl eq_refl) as [H _]; [cbn; lia|].
    unfold toyWarm. rewrite H. reflexivity.
  - destruct (warm_without_room_for_a_fetch (toyHandle None) toyTagKey toyManifestKey
                toyMarshalTags toyMarshalImage (warmer (-1)) image "secret" s0
                7 [] ["v1"; "v2"; "v3"] [] "v1,v2,v3"
                "user|quay.io/weaveworks/helloworld"
                ["user|quay.io/weaveworks/helloworld"]
                eq_refl eq_refl eq_refl eq_refl eq_refl) as [H _]; [cbn; lia|].
    unfold toyWarm. rewrite H. reflexivity.
Defined.

End WarmerMore.
